(** * MPFR snapshot: remainder engine, atanh and gamma

    A shallow embedding of [rem1.c], [atanh.c] and [gamma.c] over the number
    representation declared in [mpfr.h], with the properties the
    specification states about them. *)

From Stdlib Require Import ZArith Bool List Lia.
Import ListNotations.

Local Open Scope Z_scope.

(** ** Machine integers *)

Module CInt.

(** [long] is taken as the 64-bit type of an LP64 target. *)
Definition LONG_BIT : Z := 64.
Definition LONG_MAX : Z := 2 ^ (LONG_BIT - 1) - 1.
Definition LONG_MIN : Z := - 2 ^ (LONG_BIT - 1).

(** Two's-complement wrap-around of a mathematical integer into [long]. *)
Definition wrap_long (z : Z) : Z :=
  (z + 2 ^ (LONG_BIT - 1)) mod 2 ^ LONG_BIT - 2 ^ (LONG_BIT - 1).

Definition INT_BIT : Z := 32.
Definition wrap_int (z : Z) : Z :=
  (z + 2 ^ (INT_BIT - 1)) mod 2 ^ INT_BIT - 2 ^ (INT_BIT - 1).


End CInt.
Import CInt.

(** ** The number representation of mpfr.h *)

(** [mpfr_rnd_t], without the marker [MPFR_RND_MAX] and the internal
    [MPFR_RNDNA]. *)
Inductive mpfr_rnd_t : Type :=
| MPFR_RNDN   (* round to nearest, with ties to even *)
| MPFR_RNDZ   (* round toward zero *)
| MPFR_RNDU   (* round toward +Inf *)
| MPFR_RNDD   (* round toward -Inf *)
| MPFR_RNDA.  (* round away from zero *)

Definition GMP_RNDN := MPFR_RNDN.
Definition GMP_RNDZ := MPFR_RNDZ.
Definition GMP_RNDU := MPFR_RNDU.
Definition GMP_RNDD := MPFR_RNDD.

Definition rnd_eqb (a b : mpfr_rnd_t) : bool :=
  match a, b with
  | MPFR_RNDN, MPFR_RNDN | MPFR_RNDZ, MPFR_RNDZ | MPFR_RNDU, MPFR_RNDU
  | MPFR_RNDD, MPFR_RNDD | MPFR_RNDA, MPFR_RNDA => true
  | _, _ => false
  end.

(** [__mpfr_struct].  The limb array [_mpfr_d] is read as one integer: the
    [_mpfr_prec] significant bits, most significant first, padding dropped. *)
Record mpfr_t : Type := mk_mpfr {
  _mpfr_prec : Z;
  _mpfr_sign : Z;
  _mpfr_exp  : Z;
  _mpfr_d    : Z
}.

Definition MPFR_PREC (x : mpfr_t) : Z := _mpfr_prec x.
Definition MPFR_SIGN (x : mpfr_t) : Z := _mpfr_sign x.
Definition MPFR_EXP (x : mpfr_t) : Z := _mpfr_exp x.

(** The reserved exponents, [mp_exp_t] being [long]:
    [~((~(unsigned long)0)>>1)] is the bit pattern of [LONG_MIN]. *)
Definition __MPFR_EXP_ZERO : Z := LONG_MIN + 1.
Definition __MPFR_EXP_NAN  : Z := LONG_MIN + 2.
Definition __MPFR_EXP_INF  : Z := LONG_MIN + 3.

Definition mpfr_nan_p (x : mpfr_t) : bool := _mpfr_exp x =? __MPFR_EXP_NAN.
Definition mpfr_inf_p (x : mpfr_t) : bool := _mpfr_exp x =? __MPFR_EXP_INF.
Definition mpfr_zero_p (x : mpfr_t) : bool := _mpfr_exp x =? __MPFR_EXP_ZERO.

Definition MPFR_EMAX_DEFAULT : Z := 2 ^ 30 - 1.
Definition MPFR_EMIN_DEFAULT : Z := - MPFR_EMAX_DEFAULT.

(** *** The macros of mpfr-impl.h used by the three files *)

(** Modelled from the spec: mpfr-impl.h is not part of the sources.  The
    special values are the reserved exponents of mpfr.h, so the tests are
    those of [mpfr_nan_p], [mpfr_inf_p] and [mpfr_zero_p]. *)
Definition MPFR_IS_NAN := mpfr_nan_p.
Definition MPFR_IS_INF := mpfr_inf_p.
Definition MPFR_IS_ZERO := mpfr_zero_p.
Definition MPFR_NOTZERO (x : mpfr_t) : bool := negb (mpfr_zero_p x).

(** Modelled from the spec: [MPFR_IS_SINGULAR] of mpfr-impl.h; the three
    reserved exponents are the smallest values of the type. *)
Definition MPFR_IS_SINGULAR (x : mpfr_t) : bool :=
  _mpfr_exp x <=? __MPFR_EXP_INF.

(** Modelled from the spec: [MPFR_IS_NEG] and [MPFR_GET_EXP] of mpfr-impl.h
    read the sign and exponent fields. *)
Definition MPFR_IS_NEG (x : mpfr_t) : bool := _mpfr_sign x <? 0.
Definition MPFR_GET_EXP (x : mpfr_t) : Z := _mpfr_exp x.

Definition set_exp (x : mpfr_t) (e : Z) : mpfr_t :=
  mk_mpfr (_mpfr_prec x) (_mpfr_sign x) e (_mpfr_d x).
Definition set_sign (x : mpfr_t) (s : Z) : mpfr_t :=
  mk_mpfr (_mpfr_prec x) s (_mpfr_exp x) (_mpfr_d x).

(** Modelled from the spec: [MPFR_SET_NAN], [MPFR_SET_INF] and
    [MPFR_SET_ZERO] of mpfr-impl.h store the reserved exponent.  The sign is
    a field of its own (meaningful for infinities and zeros) that they leave
    as it is: [atanh.c] follows them with [MPFR_SET_SAME_SIGN]. *)
Definition MPFR_SET_NAN (x : mpfr_t) : mpfr_t := set_exp x __MPFR_EXP_NAN.
Definition MPFR_SET_INF (x : mpfr_t) : mpfr_t := set_exp x __MPFR_EXP_INF.
Definition MPFR_SET_ZERO (x : mpfr_t) : mpfr_t := set_exp x __MPFR_EXP_ZERO.

(** Modelled from the spec: [MPFR_SET_SAME_SIGN] and [MPFR_CHANGE_SIGN] of
    mpfr-impl.h act on the sign field alone. *)
Definition MPFR_SET_SAME_SIGN (x y : mpfr_t) : mpfr_t :=
  set_sign x (_mpfr_sign y).
Definition MPFR_CHANGE_SIGN (x : mpfr_t) : mpfr_t :=
  set_sign x (- _mpfr_sign x).

(** Modelled from the spec: the sticky flags of mpfr-impl.h, as a bit mask
    threaded through the calls. *)
Definition MPFR_FLAGS_NAN : Z := 4.
Definition MPFR_FLAGS_INEXACT : Z := 8.

(** Modelled from the spec: [MPFR_RET (I)] and [MPFR_RET_NAN] of
    mpfr-impl.h, as the value returned and the flags left; a nonzero
    indicator raises the inexact flag, [MPFR_RET_NAN] the NaN flag. *)
Definition MPFR_RET (flags i : Z) : Z * Z :=
  if i =? 0 then (0, flags) else (i, Z.lor flags MPFR_FLAGS_INEXACT).
Definition MPFR_RET_NAN (flags : Z) : Z * Z :=
  (0, Z.lor flags MPFR_FLAGS_NAN).

(** A regular number: sign [+1] or [-1], a significand of exactly
    [_mpfr_prec] bits with its top bit set, an exponent in the default
    range. *)
Definition regular (x : mpfr_t) : Prop :=
  2 <= _mpfr_prec x /\
  (_mpfr_sign x = 1 \/ _mpfr_sign x = -1) /\
  MPFR_EMIN_DEFAULT <= _mpfr_exp x <= MPFR_EMAX_DEFAULT /\
  2 ^ (_mpfr_prec x - 1) <= _mpfr_d x < 2 ^ _mpfr_prec x.

(** ** What a number denotes *)

Fixpoint pos_ctz (p : positive) : Z :=
  match p with
  | xO q => 1 + pos_ctz q
  | _ => 0
  end.

Fixpoint pos_odd_part (p : positive) : positive :=
  match p with
  | xO q => pos_odd_part q
  | _ => p
  end.

(** The value of a number: a special value with its sign, or
    [(-1)^neg * m * 2^e] with [m] odd. *)
Inductive value : Type :=
| VNaN
| VInf (neg : bool)
| VZero (neg : bool)
| VFin (neg : bool) (m e : Z).

Definition fin_value (neg : bool) (m e : Z) : value :=
  match m with
  | Zpos p => VFin neg (Zpos (pos_odd_part p)) (e + pos_ctz p)
  | _ => VZero neg
  end.

Definition mpfr_value (x : mpfr_t) : value :=
  if mpfr_nan_p x then VNaN
  else if mpfr_inf_p x then VInf (MPFR_IS_NEG x)
  else if mpfr_zero_p x then VZero (MPFR_IS_NEG x)
  else fin_value (MPFR_IS_NEG x) (_mpfr_d x) (_mpfr_exp x - _mpfr_prec x).

(** ** The rounding primitive *)

(** Modelled from the spec: the rounding routine behind [mpfr_set4],
    [mpfr_set_z] and [mpfr_set_ui] is not part of the sources.  A magnitude
    [m > 0] is rounded to [p] bits; ties-to-even picks the even significand,
    the directed modes go their named way, away-from-zero goes outward.  The
    result is the [p]-bit significand, the carry into the exponent and the
    ternary indicator.  The exponent range is not checked. *)
Definition round_up_p (rnd : mpfr_rnd_t) (neg : bool) (hi lo half : Z) : bool :=
  match rnd with
  | MPFR_RNDN => (half <? lo) || ((lo =? half) && Z.odd hi)
  | MPFR_RNDZ => false
  | MPFR_RNDU => negb neg
  | MPFR_RNDD => neg
  | MPFR_RNDA => true
  end.

Definition mpfr_round_raw (p : Z) (rnd : mpfr_rnd_t) (neg : bool) (m : Z)
  : Z * Z * Z :=
  let n := Z.log2 m + 1 in
  if n <=? p then (Z.shiftl m (p - n), 0, 0)
  else
    let sh := n - p in
    let hi := Z.shiftr m sh in
    let lo := m mod 2 ^ sh in
    if lo =? 0 then (hi, 0, 0)
    else if round_up_p rnd neg hi lo (2 ^ (sh - 1)) then
      if hi + 1 =? 2 ^ p
      then (2 ^ (p - 1), 1, if neg then -1 else 1)
      else (hi + 1, 0, if neg then -1 else 1)
    else (hi, 0, if neg then 1 else -1).

(** Modelled from the spec: [mpfr_set4 (a, b, rnd, s)] is declared in mpfr.h
    and not part of the sources.  [a] gets the magnitude of [b] rounded to
    the precision of [a], with sign [s]; special values are copied. *)
Definition mpfr_set4 (flags : Z) (a b : mpfr_t) (rnd : mpfr_rnd_t) (s : Z)
  : Z * mpfr_t * Z :=
  if MPFR_IS_NAN b then
    let '(i, fl) := MPFR_RET_NAN flags in (i, MPFR_SET_NAN a, fl)
  else if MPFR_IS_INF b then (0, set_sign (MPFR_SET_INF a) s, flags)
  else if MPFR_IS_ZERO b then (0, set_sign (MPFR_SET_ZERO a) s, flags)
  else
    let '(d, carry, inex) :=
      mpfr_round_raw (_mpfr_prec a) rnd (s <? 0) (_mpfr_d b) in
    let '(i, fl) := MPFR_RET flags inex in
    (i, mk_mpfr (_mpfr_prec a) s (_mpfr_exp b + carry) d, fl).

(** The macros of mpfr.h. *)
Definition mpfr_set flags a b rnd := mpfr_set4 flags a b rnd (MPFR_SIGN b).
Definition mpfr_abs flags a b rnd := mpfr_set4 flags a b rnd 1.

(** [mpfr_set_ui (f, 0, r)], the constant-zero case spelled out in mpfr.h. *)
Definition mpfr_set_ui_0 (f : mpfr_t) : Z * mpfr_t :=
  (0, mk_mpfr (_mpfr_prec f) 1 __MPFR_EXP_ZERO (_mpfr_d f)).

(** Modelled from the spec: [mpfr_set_z (f, z, rnd)] is not part of the
    sources; [f] gets the integer [z] rounded to its precision. *)
Definition mpfr_set_z (flags : Z) (f : mpfr_t) (z : Z) (rnd : mpfr_rnd_t)
  : Z * mpfr_t * Z :=
  if z =? 0 then (0, mk_mpfr (_mpfr_prec f) 1 __MPFR_EXP_ZERO (_mpfr_d f), flags)
  else
    let '(d, carry, inex) :=
      mpfr_round_raw (_mpfr_prec f) rnd (z <? 0) (Z.abs z) in
    let '(i, fl) := MPFR_RET flags inex in
    (i, mk_mpfr (_mpfr_prec f) (Z.sgn z) (Z.log2 (Z.abs z) + 1 + carry) d, fl).

(** Modelled from the spec: [mpfr_set_ui (f, u, rnd)]; zero as mpfr.h
    spells it out, [u > 0] as [mpfr_set_z]. *)
Definition mpfr_set_ui (flags : Z) (f : mpfr_t) (u : Z) (rnd : mpfr_rnd_t)
  : Z * mpfr_t * Z :=
  if u =? 0 then let '(i, f') := mpfr_set_ui_0 f in (i, f', flags)
  else mpfr_set_z flags f u rnd.

(** Modelled from the spec: [mpfr_neg (a, a, rnd)] is not part of the
    sources; in place, only the sign changes. *)
Definition mpfr_neg_inplace (a : mpfr_t) : mpfr_t := MPFR_CHANGE_SIGN a.

(** ** GMP integers *)

(** The [mpz] functions of GMP that [rem1.c] calls, on [Z]. *)
Module Mpz.

Definition mpz_abs (z : Z) : Z := Z.abs z.

(** [mpz_scan1 (z, 0)]: the index of the lowest set bit. *)
Definition mpz_scan1_0 (z : Z) : Z :=
  match z with
  | Zpos p => pos_ctz p
  | Zneg p => pos_ctz p
  | Z0 => 2 ^ LONG_BIT - 1
  end.

Definition mpz_mul_2exp (z k : Z) : Z := z * 2 ^ k.
Definition mpz_div_2exp (z k : Z) : Z := z / 2 ^ k.
Definition mpz_tdiv_qr (n d : Z) : Z * Z := (Z.quot n d, Z.rem n d).
Definition mpz_fdiv_qr (n d : Z) : Z * Z := (n / d, n mod d).
Definition mpz_tdiv_r_2exp (z k : Z) : Z := Z.rem z (2 ^ k).
Definition mpz_tstbit (z k : Z) : bool := Z.testbit z k.
Definition mpz_powm_ui (b e m : Z) : Z := (b ^ e) mod Z.abs m.
Definition mpz_mod (n d : Z) : Z := n mod Z.abs d.
Definition mpz_cmpabs (a b : Z) : comparison := Z.abs a ?= Z.abs b.

(** [mpz_get_si]: the value when it fits, else the low bits with the sign. *)
Definition mpz_get_si (z : Z) : Z :=
  Z.sgn z * (Z.abs z mod 2 ^ (LONG_BIT - 1)).

End Mpz.
Import Mpz.

(** Modelled from the spec: [mpfr_get_z_exp] is not part of the sources.
    A finite nonzero number is (integer significand) * 2^exponent: the
    integer is the signed significand, the exponent returned is
    [EXP - PREC]. *)
Definition mpfr_get_z_exp (x : mpfr_t) : Z * Z :=
  (MPFR_SIGN x * _mpfr_d x, MPFR_GET_EXP x - MPFR_PREC x).

(** ** rem1.c *)

Module Rem1.

(** We return as many bits as we can, keeping just one bit for the sign. *)
Definition WANTED_BITS : Z := LONG_BIT - 1.

(** What a call leaves behind: the value returned, the destination, the
    cell [quo] points to ([None] for a null pointer) and the flags. *)
Record outcome : Type := mk_outcome {
  inex_of  : Z;
  rem_of   : mpfr_t;
  quo_of   : option Z;
  flags_of : Z
}.

(** The integers after the reduction (lines 97-170): remainder [r],
    divisor [my], the cell of [quo], [q_is_odd] and the adjusted [ey]. *)
Record reduced : Type := mk_reduced {
  red_r : Z;
  red_my : Z;
  red_quo : option Z;
  red_q_is_odd : bool;
  red_ey : Z
}.

Definition rem1_reduce (quo : option Z) (rnd_q : mpfr_rnd_t)
           (mx0 ex my0 ey0 : Z) : reduced :=
  let mx := mpz_abs mx0 in
  let my := mpz_abs my0 in
  (* divide my by 2^k if possible to make operations mod my easier *)
  let k := mpz_scan1_0 my in
  let ey := ey0 + k in
  let my := mpz_div_2exp my k in
  if ex <=? ey then
    (* q = x/y = mx/(my*2^(ey-ex)) *)
    let my := mpz_mul_2exp my (ey - ex) in
    let '(q, r) := if rnd_eqb rnd_q GMP_RNDZ
                   then mpz_tdiv_qr mx my
                   else mpz_fdiv_qr mx my in
    let q_is_odd := if rnd_eqb rnd_q GMP_RNDN then mpz_tstbit q 0
                    else false in
    let quo' := match quo with
                | Some _ => Some (mpz_get_si (mpz_tdiv_r_2exp q WANTED_BITS))
                | None => None
                end in
    mk_reduced r my quo' q_is_odd ey
  else
    let my := match quo with
              | Some _ => mpz_mul_2exp my WANTED_BITS  (* 2^WANTED_BITS*Y *)
              | None => mpz_mul_2exp my 1              (* 2Y *)
              end in
    let r := mpz_powm_ui 2 (ex - ey) my in             (* 2^(ex-ey) mod my *)
    let r := r * mx in
    let r := mpz_mod r my in
    match quo with
    | Some _ =>
        let my := mpz_div_2exp my WANTED_BITS in       (* back to Y *)
        let '(q, r) := mpz_tdiv_qr r my in
        let q' := mpz_get_si q in
        mk_reduced r my (Some q') (negb (Z.land q' 1 =? 0)) ey
    | None =>
        let my := mpz_div_2exp my 1 in                 (* back to Y *)
        if rnd_eqb rnd_q GMP_RNDN then
          (* least significant bit of q *)
          let q_is_odd := match mpz_cmpabs r my with
                          | Lt => false
                          | _ => true
                          end in
          mk_reduced (if q_is_odd then r - my else r) my None q_is_odd ey
        else mk_reduced r my None false ey
    end.

(** Lines 176-192: the step from the floor quotient to the nearest one. *)
Definition rem1_nearest (rnd_q : mpfr_rnd_t) (red : reduced) : Z * option Z :=
  let r := red_r red in
  if rnd_eqb rnd_q GMP_RNDN then
    let c := mpz_cmpabs (mpz_mul_2exp r 1) (red_my red) in
    let compare :=
      match c with
      | Gt => true
      | Eq => rnd_eqb rnd_q GMP_RNDN && red_q_is_odd red
      | Lt => false
      end in
    (* if compare != 0, we need to subtract my to r, and add 1 to quo *)
    if compare
    then (r - red_my red,
          match red_quo red with
          | Some q => if rnd_eqb rnd_q GMP_RNDN then Some (wrap_long (q + 1))
                      else Some q
          | None => None
          end)
    else (r, red_quo red)
  else (r, red_quo red).

Definition mpfr_rem1 (flags : Z) (rem : mpfr_t) (quo : option Z)
           (rnd_q : mpfr_rnd_t) (x y : mpfr_t) (rnd : mpfr_rnd_t) : outcome :=
  let signx := MPFR_SIGN x in
  if MPFR_IS_SINGULAR x || MPFR_IS_SINGULAR y then
    if MPFR_IS_NAN x || MPFR_IS_NAN y || MPFR_IS_INF x || MPFR_IS_ZERO y then
      (* for remquo, quo is undefined *)
      let '(i, fl) := MPFR_RET_NAN flags in
      mk_outcome i (MPFR_SET_NAN rem) quo fl
    else
      (* either y is Inf and x is 0 or non-special, or x is 0 and y is
         non-special, in both cases the quotient is zero. *)
      let quo' := match quo with Some _ => Some 0 | None => None end in
      let '(i, rem', fl) := mpfr_set flags rem x rnd in
      mk_outcome i rem' quo' fl
  else
    (* now neither x nor y is NaN, Inf or zero *)
    let '(mx, ex) := mpfr_get_z_exp x in   (* x = mx*2^ex *)
    let '(my, ey) := mpfr_get_z_exp y in   (* y = my*2^ey *)
    let sign := if signx =? MPFR_SIGN y then 1 else -1 in
    let red := rem1_reduce quo rnd_q mx ex my ey in
    let '(inex, rem', quo', fl) :=
      if red_r red =? 0 then
        let '(i, rem0) := mpfr_set_ui_0 rem in (i, rem0, red_quo red, flags)
      else
        let '(r, quo1) := rem1_nearest rnd_q red in
        let '(i, rem1, fl) := mpfr_set_z flags rem r rnd in
        (* if ex > ey, rem should be multiplied by 2^ey, else by 2^ex *)
        (i, set_exp rem1 (MPFR_EXP rem1 + (if red_ey red <? ex
                                          then red_ey red else ex)),
         quo1, fl) in
    let quo'' := match quo' with
                 | Some q => Some (wrap_long (q * sign))
                 | None => None
                 end in
    (* take into account sign of x *)
    if signx <? 0
    then mk_outcome (- inex) (mpfr_neg_inplace rem') quo'' fl
    else mk_outcome inex rem' quo'' fl.

Definition mpfr_remainder flags rem x y rnd :=
  mpfr_rem1 flags rem None GMP_RNDN x y rnd.

Definition mpfr_remquo flags rem (quo : Z) x y rnd :=
  mpfr_rem1 flags rem (Some quo) GMP_RNDN x y rnd.

Definition mpfr_fmod flags rem x y rnd :=
  mpfr_rem1 flags rem None GMP_RNDZ x y rnd.

(** The exact remainder of two regular numbers, before the conversion to
    the destination: the integer handed to [mpfr_set_z] (0 when
    [mpfr_set_ui] is called instead) and the power of two it is scaled by
    afterwards. *)
Definition rem1_exact (quo : option Z) (rnd_q : mpfr_rnd_t) (x y : mpfr_t)
  : Z * Z :=
  let '(mx, ex) := mpfr_get_z_exp x in
  let '(my, ey) := mpfr_get_z_exp y in
  let red := rem1_reduce quo rnd_q mx ex my ey in
  (if red_r red =? 0 then 0 else fst (rem1_nearest rnd_q red),
   if red_ey red <? ex then red_ey red else ex).


End Rem1.

(** ** A few numbers *)

Module Numbers.

(** [of_Z p z]: the integer [z <> 0] held exactly in [p] bits
    (for [p] at least the bit length of [z]). *)
Definition of_Z (p z : Z) : mpfr_t :=
  let n := Z.log2 (Z.abs z) + 1 in
  mk_mpfr p (Z.sgn z) n (Z.shiftl (Z.abs z) (p - n)).

(** [of_Z_2exp p z e] is [z * 2^e]. *)
Definition of_Z_2exp (p z e : Z) : mpfr_t :=
  let x := of_Z p z in set_exp x (_mpfr_exp x + e).

Definition nan (p : Z) : mpfr_t := mk_mpfr p 1 __MPFR_EXP_NAN 0.
Definition inf (p s : Z) : mpfr_t := mk_mpfr p s __MPFR_EXP_INF 0.
Definition zero (p s : Z) : mpfr_t := mk_mpfr p s __MPFR_EXP_ZERO 0.

End Numbers.



(** ** The calls into the rest of the library *)

(** The sticky flags are the only state the three files share with the rest
    of the library: a call is a function of the flags it finds, giving its
    result and the flags it leaves. *)
Module FlagM.

Definition M (A : Type) : Type := Z -> A * Z.
Definition ret {A : Type} (a : A) : M A := fun fl => (a, fl).
Definition bind {A B : Type} (c : M A) (k : A -> M B) : M B :=
  fun fl => let '(a, fl') := c fl in k a fl'.

Module Notations.
Notation "x <- c ;; k" := (bind c (fun x => k))
  (at level 61, c at next level, right associativity).
Notation "' pat <- c ;; k" := (bind c (fun x => let 'pat := x in k))
  (at level 61, pat pattern, c at next level, right associativity).
End Notations.

End FlagM.
Import FlagM FlagM.Notations.

Definition wrap_ulong (z : Z) : Z := z mod 2 ^ LONG_BIT.

(** Modelled from the spec: the allocation routines are not part of the
    sources.  A fresh or re-sized number has the precision asked for and is
    NaN; changing the precision gives the significand up. *)
Definition MPFR_DEFAULT_PREC : Z := 53.
Definition mpfr_init2 (p : Z) : mpfr_t := mk_mpfr p 1 __MPFR_EXP_NAN 0.
Definition mpfr_init : mpfr_t := mpfr_init2 MPFR_DEFAULT_PREC.
Definition mpfr_set_prec (x : mpfr_t) (p : Z) : mpfr_t :=
  mk_mpfr p (_mpfr_sign x) __MPFR_EXP_NAN 0.

(** [mpfr_set], [mpfr_abs] and [mpfr_neg] as calls. *)
Definition mpfr_set_m (a b : mpfr_t) (rnd : mpfr_rnd_t) : M (Z * mpfr_t) :=
  fun fl => let '(i, a', fl') := mpfr_set fl a b rnd in ((i, a'), fl').
Definition mpfr_abs_m (a b : mpfr_t) (rnd : mpfr_rnd_t) : M mpfr_t :=
  fun fl => let '(_, a', fl') := mpfr_abs fl a b rnd in (a', fl').
Definition mpfr_neg_m (a b : mpfr_t) (rnd : mpfr_rnd_t) : M mpfr_t :=
  fun fl => let '(_, a', fl') := mpfr_set4 fl a b rnd (- MPFR_SIGN b) in (a', fl').
Definition mpfr_set_ui_m (f : mpfr_t) (u : Z) (rnd : mpfr_rnd_t) : M mpfr_t :=
  fun fl => let '(_, f', fl') := mpfr_set_ui fl f u rnd in (f', fl').

(** Modelled from the spec: [mpfr_cmp_ui] is not part of the sources.  The
    comparison of a number that is neither NaN nor zero with 1, as -1, 0
    or 1. *)
Definition mpfr_cmp_ui_1 (x : mpfr_t) : Z :=
  if MPFR_IS_NEG x then -1
  else if MPFR_IS_INF x then 1
  else
    match mpfr_value x with
    | VFin _ m e => if (m =? 1) && (e =? 0) then 0
                    else if 0 <=? Z.log2 m + e then 1 else -1
    | _ => -1
    end.

(** The correctly rounded primitives and the rounding test the two
    functions consume, and the two quantities [gamma.c] computes in
    [double].  Each takes the destination first, as in C, and gives the
    destination back. *)
Record Primitives : Type := {
  mpfr_ui_sub    : mpfr_t -> Z -> mpfr_t -> mpfr_rnd_t -> M mpfr_t;
  mpfr_sub_ui    : mpfr_t -> mpfr_t -> Z -> mpfr_rnd_t -> M mpfr_t;
  mpfr_add_ui    : mpfr_t -> mpfr_t -> Z -> mpfr_rnd_t -> M mpfr_t;
  mpfr_add       : mpfr_t -> mpfr_t -> mpfr_t -> mpfr_rnd_t -> M mpfr_t;
  mpfr_mul       : mpfr_t -> mpfr_t -> mpfr_t -> mpfr_rnd_t -> M mpfr_t;
  mpfr_div       : mpfr_t -> mpfr_t -> mpfr_t -> mpfr_rnd_t -> M mpfr_t;
  mpfr_mul_2ui   : mpfr_t -> mpfr_t -> Z -> mpfr_rnd_t -> M mpfr_t;
  mpfr_div_2ui   : mpfr_t -> mpfr_t -> Z -> mpfr_rnd_t -> M mpfr_t;
  mpfr_log       : mpfr_t -> mpfr_t -> mpfr_rnd_t -> M mpfr_t;
  mpfr_exp       : mpfr_t -> mpfr_t -> mpfr_rnd_t -> M mpfr_t;
  mpfr_sqrt      : mpfr_t -> mpfr_t -> mpfr_rnd_t -> M mpfr_t;
  mpfr_sqrt_ui   : mpfr_t -> Z -> mpfr_rnd_t -> M mpfr_t;
  mpfr_pow       : mpfr_t -> mpfr_t -> mpfr_t -> mpfr_rnd_t -> M mpfr_t;
  mpfr_ui_pow_ui : mpfr_t -> Z -> Z -> mpfr_rnd_t -> M mpfr_t;
  mpfr_fac_ui    : mpfr_t -> Z -> mpfr_rnd_t -> M mpfr_t;
  mpfr_sin       : mpfr_t -> mpfr_t -> mpfr_rnd_t -> M mpfr_t;
  mpfr_const_pi  : mpfr_t -> mpfr_rnd_t -> M mpfr_t;
  (** [mpfr_can_round (b, err, rnd1, rnd2, prec)] *)
  mpfr_can_round : mpfr_t -> Z -> mpfr_rnd_t -> mpfr_rnd_t -> Z -> bool;
  (** [(int) (prec_nec * CST - 0.5)], computed in [double] *)
  gamma_A        : Z -> Z;
  (** [(long) ceil (ecCST * A)], computed in [double] *)
  gamma_estimated_cancel : Z -> Z
}.

(** Modelled from the spec: [__gmpfr_ceil_log2] and [_mpfr_ceil_log2] are
    not part of the sources; the guard bits are [O(log2(Nt))], the name says
    which. *)
Definition __gmpfr_ceil_log2 (d : Z) : Z := Z.log2_up d.
Definition _mpfr_ceil_log2 (d : Z) : Z := Z.log2_up d.

(** ** atanh.c *)

Module Atanh.
Section WithPrimitives.

Variable P : Primitives.

(** The variables of the escalation loop. *)
Record loop_state : Type := mk_loop_state {
  ls_Nt : Z;
  ls_t  : mpfr_t;
  ls_te : mpfr_t;
  ls_ti : mpfr_t
}.

(** One pass through the body of the [do ... while]: the new variables
    and [err]. *)
Definition atanh_body (x : mpfr_t) (st : loop_state) : M (loop_state * Z) :=
  let Nt := ls_Nt st in
  (* reactualisation of the precision *)
  let t := mpfr_set_prec (ls_t st) Nt in
  let te := mpfr_set_prec (ls_te st) Nt in
  let ti := mpfr_set_prec (ls_ti st) Nt in
  (* compute atanh *)
  te <- mpfr_ui_sub P te 1 x GMP_RNDU ;;      (* (1-xt) *)
  ti <- mpfr_add_ui P ti x 1 GMP_RNDD ;;      (* (xt+1) *)
  te <- mpfr_div P te ti te GMP_RNDN ;;       (* (1+xt)/(1-xt) *)
  te <- mpfr_log P te te GMP_RNDN ;;          (* ln((1+xt)/(1-xt)) *)
  t <- mpfr_div_2ui P t te 1 GMP_RNDN ;;      (* (1/2)*ln((1+xt)/(1-xt)) *)
  (* error estimate *)
  let err :=
    wrap_long (Nt - (Z.max (wrap_long (4 - MPFR_GET_EXP t)) 0 + 1)) in
  (* actualisation of the precision *)
  ret (mk_loop_state (wrap_ulong (Nt + 10)) t te ti, err).

(** The condition of the [while]. *)
Definition atanh_continue (rnd_mode : mpfr_rnd_t) (Ny : Z) (t : mpfr_t)
           (err : Z) : bool :=
  (err <? 0)
  || (negb (mpfr_can_round P t err GMP_RNDN GMP_RNDZ
              (wrap_ulong (Ny + (if rnd_eqb rnd_mode GMP_RNDN then 1 else 0))))
      || MPFR_IS_ZERO t).

(** The loop, run for at most [fuel] passes: [None] when it has not left
    by then. *)
Fixpoint atanh_loop (fuel : nat) (rnd_mode : mpfr_rnd_t) (Ny : Z)
         (x : mpfr_t) (st : loop_state) : M (option loop_state) :=
  match fuel with
  | O => ret None
  | S fuel' =>
      '(st', err) <- atanh_body x st ;;
      if atanh_continue rnd_mode Ny (ls_t st') err
      then atanh_loop fuel' rnd_mode Ny x st'
      else ret (Some st')
  end.

(** The precision of the first pass. *)
Definition atanh_Nt0 (Nx Ny : Z) : Z :=
  let Nt := Z.max Nx Ny in
  (* the optimal number of bits : see algorithms.ps *)
  wrap_ulong (Nt + 4 + __gmpfr_ceil_log2 Nt).

(** The general case, from [mpfr_init2 (x, Nx)] on. *)
Definition atanh_general (fuel : nat) (y xt : mpfr_t) (rnd_mode : mpfr_rnd_t)
  : M (option (Z * mpfr_t)) :=
  let x := mpfr_init2 (MPFR_PREC xt) in
  x <- mpfr_abs_m x xt GMP_RNDN ;;
  let Nx := MPFR_PREC x in
  let Ny := MPFR_PREC y in
  let st0 := mk_loop_state (atanh_Nt0 Nx Ny) mpfr_init mpfr_init mpfr_init in
  r <- atanh_loop fuel rnd_mode Ny x st0 ;;
  match r with
  | None => ret None
  | Some st =>
      let t := if MPFR_IS_NEG xt then MPFR_CHANGE_SIGN (ls_t st)
               else ls_t st in
      '(inexact, y') <- mpfr_set_m y t rnd_mode ;;
      ret (Some (inexact, y'))
  end.

Definition mpfr_atanh (fuel : nat) (y xt : mpfr_t) (rnd_mode : mpfr_rnd_t)
  : M (option (Z * mpfr_t)) :=
  (* Special cases *)
  if MPFR_IS_SINGULAR xt then
    if MPFR_IS_NAN xt then
      fun fl => let '(i, fl') := MPFR_RET_NAN fl in
                (Some (i, MPFR_SET_NAN y), fl')
    else if MPFR_IS_INF xt then
      fun fl => let '(i, fl') := MPFR_RET fl 0 in
                (Some (i, MPFR_SET_SAME_SIGN (MPFR_SET_INF y) xt), fl')
    else if MPFR_IS_ZERO xt then
      fun fl => let '(i, fl') := MPFR_RET fl 0 in
                (Some (i, MPFR_SET_SAME_SIGN (MPFR_SET_ZERO y) xt), fl')
    else
      (* MPFR_ASSERTN(1) holds: control goes on to the general case *)
      atanh_general fuel y xt rnd_mode
  else atanh_general fuel y xt rnd_mode.

End WithPrimitives.
End Atanh.

(** ** gamma.c *)

Module Gamma.
Section WithPrimitives.

Variable P : Primitives.

(** The [for (k = 1; k <= N; k++)] loop, with [n] passes left. *)
Fixpoint gamma_terms (n : nat) (k A : Z) (xp : mpfr_t) (sign : Z)
         (tmp product GammaTrial : mpfr_t)
  : M (Z * mpfr_t * mpfr_t * mpfr_t) :=
  match n with
  | O => ret (sign, tmp, product, GammaTrial)
  | S n' =>
      tmp <- mpfr_set_ui_m tmp (A - k) GMP_RNDN ;;
      product <- mpfr_exp P product tmp GMP_RNDN ;;
      tmp <- mpfr_ui_pow_ui P tmp (A - k) (k - 1) GMP_RNDN ;;
      product <- mpfr_mul P product product tmp GMP_RNDN ;;
      tmp <- mpfr_sqrt_ui P tmp (A - k) GMP_RNDN ;;
      product <- mpfr_mul P product product tmp GMP_RNDN ;;
      tmp <- mpfr_fac_ui P tmp (k - 1) GMP_RNDN ;;
      product <- mpfr_div P product product tmp GMP_RNDN ;;
      tmp <- mpfr_add_ui P tmp xp k GMP_RNDN ;;
      product <- mpfr_div P product product tmp GMP_RNDN ;;
      let sign := wrap_int (- sign) in
      let product := if sign =? 1 then mpfr_neg_inplace product
                     else product in
      GammaTrial <- mpfr_add P GammaTrial GammaTrial product GMP_RNDN ;;
      gamma_terms n' (k + 1) A xp sign tmp product GammaTrial
  end.

(** One pass through the body of the [while (!good)], up to the call of
    [mpfr_can_round]: the value of [GammaTrial]. *)
Definition gamma_trial (compared : Z) (x : mpfr_t) (realprec : Z)
  : M mpfr_t :=
  (* Precision stuff *)
  let prec_nec := if compared =? -1
                  then wrap_int (2 + realprec)  (* reflexion formula *)
                  else realprec in
  let A := gamma_A P prec_nec in
  let N := wrap_long (A - 1) in
  (* estimated_cancel is the amount of bit that will be flushed *)
  let estimated_cancel := gamma_estimated_cancel P A in
  let Prec := wrap_int (prec_nec + estimated_cancel + 20) in
  let xp := mpfr_init2 Prec in
  xp <- (if compared =? -1
         then mpfr_ui_sub P xp 1 x GMP_RNDN
         else mpfr_sub_ui P xp x 1 GMP_RNDN) ;;
  (* Initialisation *)
  let tmp := mpfr_init2 Prec in
  let tmp2 := mpfr_init2 Prec in
  let the_pi := mpfr_init2 Prec in
  let product := mpfr_init2 Prec in
  let GammaTrial := mpfr_init2 Prec in
  GammaTrial <- mpfr_set_ui_m GammaTrial 0 GMP_RNDN ;;
  '(_, tmp, product, GammaTrial) <-
    gamma_terms (Z.to_nat N) 1 A xp 1 tmp product GammaTrial ;;
  the_pi <- mpfr_const_pi P the_pi GMP_RNDN ;;
  tmp <- mpfr_const_pi P tmp GMP_RNDN ;;
  tmp <- mpfr_mul_2ui P tmp tmp 1 GMP_RNDN ;;
  tmp <- mpfr_sqrt P tmp tmp GMP_RNDN ;;
  GammaTrial <- mpfr_add P GammaTrial GammaTrial tmp GMP_RNDN ;;
  tmp2 <- mpfr_add_ui P tmp2 xp A GMP_RNDN ;;
  tmp <- mpfr_set_ui_m tmp 1 GMP_RNDN ;;
  tmp <- mpfr_div_2ui P tmp tmp 1 GMP_RNDN ;;
  tmp <- mpfr_add P tmp tmp xp GMP_RNDN ;;
  tmp <- mpfr_pow P tmp tmp2 tmp GMP_RNDN ;;
  GammaTrial <- mpfr_mul P GammaTrial GammaTrial tmp GMP_RNDN ;;
  tmp <- mpfr_neg_m tmp tmp2 GMP_RNDN ;;
  tmp <- mpfr_exp P tmp tmp GMP_RNDN ;;
  GammaTrial <- mpfr_mul P GammaTrial GammaTrial tmp GMP_RNDN ;;
  if compared =? -1 then
    tmp <- mpfr_sub_ui P tmp x 1 GMP_RNDN ;;
    tmp <- mpfr_mul P tmp the_pi tmp GMP_RNDN ;;
    GammaTrial <- mpfr_div P GammaTrial tmp GammaTrial GMP_RNDN ;;
    tmp <- mpfr_sin P tmp tmp GMP_RNDN ;;
    GammaTrial <- mpfr_div P GammaTrial GammaTrial tmp GMP_RNDN ;;
    ret (mpfr_neg_inplace GammaTrial)
  else ret GammaTrial.

(** [realprec += _mpfr_ceil_log2 ((double) realprec)], in [int]. *)
Definition next_realprec (realprec : Z) : Z :=
  wrap_int (realprec + _mpfr_ceil_log2 realprec).

(** The [while (!good)] loop, run for at most [fuel] passes. *)
Fixpoint gamma_loop (fuel : nat) (gamma x : mpfr_t) (rnd_mode : mpfr_rnd_t)
         (compared realprec : Z) : M (option mpfr_t) :=
  match fuel with
  | O => ret None
  | S fuel' =>
      GammaTrial <- gamma_trial compared x realprec ;;
      if mpfr_can_round P GammaTrial realprec GMP_RNDD rnd_mode
           (MPFR_PREC gamma)
      then
        '(_, gamma') <- mpfr_set_m gamma GammaTrial rnd_mode ;;
        ret (Some gamma')
      else
        gamma_loop fuel' gamma x rnd_mode compared (next_realprec realprec)
  end.

(** [mpfr_gamma (gamma, x, rnd_mode)]: the value returned and the
    destination, [None] when the loop has not left after [fuel] passes. *)
Definition mpfr_gamma (fuel : nat) (gamma x : mpfr_t) (rnd_mode : mpfr_rnd_t)
  : M (option (Z * mpfr_t)) :=
  (* Trivial cases *)
  if MPFR_IS_NAN x then ret (Some (1, MPFR_SET_NAN gamma))
  else if negb (MPFR_NOTZERO x) then ret (Some (1, MPFR_SET_INF gamma))
  else if MPFR_IS_INF x then ret (Some (1, MPFR_SET_INF gamma))
  else
    let prec_gamma := wrap_int (MPFR_PREC gamma) in
    let compared := mpfr_cmp_ui_1 x in
    if compared =? 0 then
      gamma' <- mpfr_set_ui_m gamma 1 rnd_mode ;;
      ret (Some (1, gamma'))
    else
      let realprec := wrap_int (prec_gamma + 10) in
      r <- gamma_loop fuel gamma x rnd_mode compared realprec ;;
      match r with
      | None => ret None
      | Some gamma' => ret (Some (1, gamma'))  (* inexact result *)
      end.

End WithPrimitives.
End Gamma.

(** ** An environment to run the two functions in *)

(** Modelled from the spec: the primitives are not part of the sources.
    The exact ones (sum and difference with an integer, quotient, division
    by a power of two) are correctly rounded from integer arithmetic; the
    logarithm is tabulated at 3 (from 60 bits of [ln 3]) and at the special
    values; the rounding test looks at the bits between the target precision
    and the error bound.  The primitives only [gamma.c] calls are left
    inert. *)
Module Demo.

(** [z * 2^e] rounded into [dest]. *)
Definition round_to (dest : mpfr_t) (rnd : mpfr_rnd_t) (z e : Z) : M mpfr_t :=
  fun fl =>
    let '(_, f, fl') := mpfr_set_z fl dest z rnd in
    (if z =? 0 then f else set_exp f (_mpfr_exp f + e), fl').

Definition copy_special (dest x : mpfr_t) : M mpfr_t :=
  ret (set_sign (set_exp dest (_mpfr_exp x)) (_mpfr_sign x)).

(** [u * 2^0 + s * x] for [s] one of [1], [-1], rounded into [dest]. *)
Definition ui_plus (dest : mpfr_t) (u s : Z) (x : mpfr_t) (rnd : mpfr_rnd_t)
  : M mpfr_t :=
  if MPFR_IS_NAN x then copy_special dest x
  else if MPFR_IS_INF x then copy_special dest (set_sign x (s * _mpfr_sign x))
  else if MPFR_IS_ZERO x then round_to dest rnd u 0
  else
    let '(mx, ex) := mpfr_get_z_exp x in
    if 0 <=? ex then round_to dest rnd (u + s * mx * 2 ^ ex) 0
    else round_to dest rnd (u * 2 ^ (- ex) + s * mx) ex.

Definition ui_sub dest u x rnd := ui_plus dest u (-1) x rnd.
Definition add_ui dest x u rnd := ui_plus dest u 1 x rnd.

(** The quotient of two regular numbers, from an integer quotient two
    bits longer than the destination and a sticky bit; [a / 0] is an
    infinity. *)
Definition div (dest a b : mpfr_t) (rnd : mpfr_rnd_t) : M mpfr_t :=
  if MPFR_IS_SINGULAR a || MPFR_IS_NAN b || MPFR_IS_INF b
  then ret (MPFR_SET_NAN dest)
  else if MPFR_IS_ZERO b
  then ret (set_sign (MPFR_SET_INF dest) (_mpfr_sign a * _mpfr_sign b))
  else
    let '(ma, ea) := mpfr_get_z_exp a in
    let '(mb, eb) := mpfr_get_z_exp b in
    let k := _mpfr_prec dest + 2 + (Z.log2 (Z.abs mb) + 1) in
    let q := Z.abs ma * 2 ^ k / Z.abs mb in
    let sticky := if Z.abs ma * 2 ^ k mod Z.abs mb =? 0 then 0 else 1 in
    round_to dest rnd (Z.sgn ma * Z.sgn mb * (2 * q + sticky))
             (ea - eb - k - 1).

(** [floor (ln 3 * 2^59)]. *)
Definition LN3_60 : Z := 633306866415404363.

Definition log (dest a : mpfr_t) (rnd : mpfr_rnd_t) : M mpfr_t :=
  match mpfr_value a with
  | VInf false => copy_special dest a
  | VFin false 3 0 => round_to dest rnd (2 * LN3_60 + 1) (-60)
  | VFin false 1 0 => round_to dest rnd 0 0
  | _ => ret (MPFR_SET_NAN dest)
  end.

Definition div_2ui (dest a : mpfr_t) (k : Z) (rnd : mpfr_rnd_t) : M mpfr_t :=
  if MPFR_IS_SINGULAR a then copy_special dest a
  else
    let '(ma, ea) := mpfr_get_z_exp a in round_to dest rnd ma (ea - k).

(** The bits of [b] after the first [prec] and up to the first [err]
    must be neither all 0 nor all 1. *)
Definition can_round (b : mpfr_t) (err : Z) (rnd1 rnd2 : mpfr_rnd_t)
           (prec : Z) : bool :=
  if MPFR_IS_SINGULAR b then false
  else if err <=? prec then false
  else
    let err := Z.min err (_mpfr_prec b) in
    let mid := (_mpfr_d b / 2 ^ (_mpfr_prec b - err)) mod 2 ^ (err - prec) in
    negb (mid =? 0) && negb (mid =? 2 ^ (err - prec) - 1).

Definition inert1 (dest : mpfr_t) (_ : mpfr_rnd_t) : M mpfr_t := ret dest.

Definition prims (test : mpfr_t -> Z -> mpfr_rnd_t -> mpfr_rnd_t -> Z -> bool)
  : Primitives :=
  {| mpfr_ui_sub := ui_sub;
     mpfr_sub_ui := fun d _ _ r => inert1 d r;
     mpfr_add_ui := add_ui;
     mpfr_add := fun d _ _ r => inert1 d r;
     mpfr_mul := fun d _ _ r => inert1 d r;
     mpfr_div := div;
     mpfr_mul_2ui := fun d _ _ r => inert1 d r;
     mpfr_div_2ui := div_2ui;
     mpfr_log := log;
     mpfr_exp := fun d _ r => inert1 d r;
     mpfr_sqrt := fun d _ r => inert1 d r;
     mpfr_sqrt_ui := fun d _ r => inert1 d r;
     mpfr_pow := fun d _ _ r => inert1 d r;
     mpfr_ui_pow_ui := fun d _ _ r => inert1 d r;
     mpfr_fac_ui := fun d _ r => inert1 d r;
     mpfr_sin := fun d _ r => inert1 d r;
     mpfr_const_pi := inert1;
     mpfr_can_round := test;
     gamma_A := fun _ => 0;
     gamma_estimated_cancel := fun _ => 0 |}.

(** The environment with the rounding test above, and one whose test
    never accepts. *)
Definition library : Primitives := prims can_round.
Definition refusing : Primitives := prims (fun _ _ _ _ _ => false).

End Demo.

(** ** The passes of the two escalation loops *)

Module Passes.
Section WithPrimitives.

Variable P : Primitives.

(** What the loop of [mpfr_atanh] goes through: the working precision,
    the trial value and the error bound of each pass it makes. *)
Fixpoint atanh_trace (fuel : nat) (rnd_mode : mpfr_rnd_t) (Ny : Z)
         (x : mpfr_t) (st : Atanh.loop_state) : M (list (Z * mpfr_t * Z)) :=
  match fuel with
  | O => ret []
  | S fuel' =>
      '(st', err) <- Atanh.atanh_body P x st ;;
      let entry := (Atanh.ls_Nt st, Atanh.ls_t st', err) in
      if Atanh.atanh_continue P rnd_mode Ny (Atanh.ls_t st') err
      then tr <- atanh_trace fuel' rnd_mode Ny x st' ;; ret (entry :: tr)
      else ret [entry]
  end.

(** The body of the loop of [mpfr_atanh], [n + 1] times in a row. *)
Fixpoint atanh_passes (n : nat) (x : mpfr_t) (st : Atanh.loop_state)
  : M (Atanh.loop_state * Z) :=
  match n with
  | O => Atanh.atanh_body P x st
  | S n' => '(st', _) <- Atanh.atanh_body P x st ;; atanh_passes n' x st'
  end.

(** Whether the loop of [mpfr_atanh] goes round again after pass [n]. *)
Definition atanh_retries (n : nat) (rnd_mode : mpfr_rnd_t) (Ny : Z)
           (x : mpfr_t) (st : Atanh.loop_state) (fl : Z) : bool :=
  let '((st', err), _) := atanh_passes n x st fl in
  Atanh.atanh_continue P rnd_mode Ny (Atanh.ls_t st') err.

(** The trial of [mpfr_gamma] of pass [n], with the [realprec] it was
    made at. *)
Fixpoint gamma_passes (n : nat) (compared : Z) (x : mpfr_t) (realprec : Z)
  : M (mpfr_t * Z) :=
  match n with
  | O => G <- Gamma.gamma_trial P compared x realprec ;; ret (G, realprec)
  | S n' =>
      _ <- Gamma.gamma_trial P compared x realprec ;;
      gamma_passes n' compared x (Gamma.next_realprec realprec)
  end.

(** Whether the loop of [mpfr_gamma] goes round again after pass [n]. *)
Definition gamma_retries (n : nat) (gamma : mpfr_t) (rnd_mode : mpfr_rnd_t)
           (compared : Z) (x : mpfr_t) (realprec : Z) (fl : Z) : bool :=
  let '((G, rp), _) := gamma_passes n compared x realprec fl in
  negb (mpfr_can_round P G rp GMP_RNDD rnd_mode (MPFR_PREC gamma)).

(** The general case of [mpfr_atanh] with the last two steps in the order
    the specification words them: the trial value is rounded into the
    destination first, the sign of the input is applied to the rounded
    result afterwards. *)
Definition atanh_sign_after_rounding (fuel : nat) (y xt : mpfr_t)
           (rnd_mode : mpfr_rnd_t) : M (option (Z * mpfr_t)) :=
  let x := mpfr_init2 (MPFR_PREC xt) in
  x <- mpfr_abs_m x xt GMP_RNDN ;;
  let st0 := Atanh.mk_loop_state (Atanh.atanh_Nt0 (MPFR_PREC x) (MPFR_PREC y))
               mpfr_init mpfr_init mpfr_init in
  r <- Atanh.atanh_loop P fuel rnd_mode (MPFR_PREC y) x st0 ;;
  match r with
  | None => ret None
  | Some st =>
      '(inexact, y') <- mpfr_set_m y (Atanh.ls_t st) rnd_mode ;;
      ret (Some (if MPFR_IS_NEG xt
                 then (- inexact, MPFR_CHANGE_SIGN y')
                 else (inexact, y')))
  end.

End WithPrimitives.
End Passes.

(** The opposite of a number (NaN has none), and the mirror image of a
    rounding mode. *)
Definition mpfr_opp (x : mpfr_t) : mpfr_t :=
  if MPFR_IS_NAN x then x else MPFR_CHANGE_SIGN x.

(** The opposite of what a call returns: indicator and destination. *)
Definition result_opp (r : option (Z * mpfr_t)) : option (Z * mpfr_t) :=
  match r with
  | Some (i, y) => Some (- i, mpfr_opp y)
  | None => None
  end.

Definition rnd_mirror (rnd : mpfr_rnd_t) : mpfr_rnd_t :=
  match rnd with
  | MPFR_RNDU => MPFR_RNDD
  | MPFR_RNDD => MPFR_RNDU
  | r => r
  end.

Definition call_opp (c : option (Z * mpfr_t) * Z) : option (Z * mpfr_t) * Z :=
  (result_opp (fst c), snd c).

(** Zero or regular. *)
Definition finite (x : mpfr_t) : Prop := MPFR_IS_ZERO x = true \/ regular x.

(** The indicator and the value of the destination a call leaves. *)
Definition result_value (c : option (Z * mpfr_t) * Z) : option (Z * value) :=
  match fst c with
  | Some (i, y) => Some (i, mpfr_value y)
  | None => None
  end.

(** ** strcasecmp.c *)

Module Strcasecmp.

(** [tolower] of <ctype.h> in the C locale, on the value of an
    [unsigned char]. *)
Definition tolower (c : Z) : Z :=
  if (65 <=? c) && (c <=? 90) then c + 32 else c.

(** A C string is the list of its bytes; reading at its end gives the
    terminating NUL. *)
Definition deref (p : list Z) : Z :=
  match p with
  | c :: _ => c
  | [] => 0
  end.

(** The [do ... while (c1 == c2)] loop and the [return c1 - c2]. *)
Fixpoint compare_loop (p1 p2 : list Z) : Z :=
  let c1 := tolower (deref p1) in
  let c2 := tolower (deref p2) in
  match p1 with
  | [] => c1 - c2
  | _ :: p1' =>
      if c1 =? 0 then c1 - c2
      else if c1 =? c2 then compare_loop p1' (tl p2)
      else c1 - c2
  end.

(** [mpfr_strcasecmp (s1, s2)]; a pointer is an address and the string
    found there. *)
Definition mpfr_strcasecmp (s1 s2 : Z * list Z) : Z :=
  if fst s1 =? fst s2 then 0
  else compare_loop (snd s1) (snd s2).

(** The bytes of a string up to its first NUL. *)
Fixpoint cstr (p : list Z) : list Z :=
  match p with
  | [] => []
  | c :: p' => if c =? 0 then [] else c :: cstr p'
  end.

(** Lexicographic comparison of two lists of byte values. *)
Fixpoint lex_compare (a b : list Z) : comparison :=
  match a, b with
  | [], [] => Eq
  | [], _ :: _ => Lt
  | _ :: _, [] => Gt
  | x :: a', y :: b' =>
      match x ?= y with
      | Eq => lex_compare a' b'
      | c => c
      end
  end.

Definition is_byte (c : Z) : Prop := 0 <= c <= 255.

End Strcasecmp.

(** ** mpfr.h: the sign, the custom interface, the sign-setting macros *)

Module Header.

Definition MPFR_FLAGS_ERANGE : Z := 16.

(** Modelled from the spec: [mpfr_set_erangeflag] is declared in mpfr.h and
    not part of the sources; it raises the erange flag. *)
Definition mpfr_set_erangeflag : M unit :=
  fun fl => (tt, Z.lor fl MPFR_FLAGS_ERANGE).

(** The macro [mpfr_sgn]. *)
Definition mpfr_sgn (x : mpfr_t) : M Z :=
  if _mpfr_exp x <? __MPFR_EXP_INF then
    _ <- (if mpfr_nan_p x then mpfr_set_erangeflag else ret tt) ;;
    ret 0
  else ret (MPFR_SIGN x).

(** [mpfr_kind_t]. *)
Definition MPFR_NAN_KIND : Z := 0.
Definition MPFR_INF_KIND : Z := 1.
Definition MPFR_ZERO_KIND : Z := 2.
Definition MPFR_REGULAR_KIND : Z := 3.

(** A macro argument is a piece of text.  [mpfr_custom_init_set] uses its
    argument [k] in two ways: as [(k)], and as [-k] with no parentheses
    around it, where the minus sign applies to the first operand of the
    text only.  An argument is kept as the sum it is written as: a first
    operand (a constant, a variable, a parenthesised expression, a
    product), then the operands added to it or subtracted from it.  The
    operands are [int]s and the sums are taken where they do not
    overflow. *)
Inductive macro_arg : Type :=
| Operand (v : Z)
| Plus (a : macro_arg) (v : Z)     (* a + v *)
| Minus (a : macro_arg) (v : Z).   (* a - v *)

(** The value of [(k)]. *)
Fixpoint arg_value (k : macro_arg) : Z :=
  match k with
  | Operand v => v
  | Plus a v => arg_value a + v
  | Minus a v => arg_value a - v
  end.

(** The value of [-k]: the first operand negated, the rest as written. *)
Fixpoint neg_arg_value (k : macro_arg) : Z :=
  match k with
  | Operand v => - v
  | Plus a v => neg_arg_value a + v
  | Minus a v => neg_arg_value a - v
  end.

(** The macro [mpfr_custom_init_set (x, k, e, p, m)]; the significand
    found at [m] stands for the pointer.  [_k] is [(k)]; a negative kind
    is turned into [_t] by [-k], not by [-_k]. *)
Definition mpfr_custom_init_set (k : macro_arg) (e p m : Z) : mpfr_t :=
  let _k := arg_value k in
  let '(_t, _s) := if 0 <=? _k then (_k, 1) else (neg_arg_value k, -1) in
  let _e := if _t =? MPFR_REGULAR_KIND then e
            else if _t =? MPFR_NAN_KIND then __MPFR_EXP_NAN
            else if _t =? MPFR_INF_KIND then __MPFR_EXP_INF
            else __MPFR_EXP_ZERO in
  mk_mpfr p _s _e m.

(** The macros [mpfr_custom_get_kind], [mpfr_custom_get_exp] and
    [mpfr_custom_get_mantissa]. *)
Definition mpfr_custom_get_kind (x : mpfr_t) : Z :=
  if __MPFR_EXP_INF <? _mpfr_exp x then MPFR_REGULAR_KIND * MPFR_SIGN x
  else if _mpfr_exp x =? __MPFR_EXP_INF then MPFR_INF_KIND * MPFR_SIGN x
  else if _mpfr_exp x =? __MPFR_EXP_NAN then MPFR_NAN_KIND
  else MPFR_ZERO_KIND * MPFR_SIGN x.
Definition mpfr_custom_get_exp (x : mpfr_t) : Z := _mpfr_exp x.
Definition mpfr_custom_get_mantissa (x : mpfr_t) : Z := _mpfr_d x.

(** The macros [mpfr_setsign] and [mpfr_signbit]. *)
Definition mpfr_setsign flags (a b : mpfr_t) (s : Z) (rnd : mpfr_rnd_t) :=
  mpfr_set4 flags a b rnd (if s =? 0 then 1 else -1).
Definition mpfr_signbit (x : mpfr_t) : bool := MPFR_SIGN x <? 0.

End Header.

(** ** copysign.c *)

(** [mpfr_copysign (z, x, y, rnd_mode)]. *)
Definition mpfr_copysign (flags : Z) (z x y : mpfr_t) (rnd_mode : mpfr_rnd_t)
  : Z * mpfr_t * Z :=
  mpfr_set4 flags z x rnd_mode (MPFR_SIGN y).

(** The value with its sign replaced. *)
Definition value_with_sign (neg : bool) (v : value) : value :=
  match v with
  | VNaN => VNaN
  | VInf _ => VInf neg
  | VZero _ => VZero neg
  | VFin _ m e => VFin neg m e
  end.

(** ** set_q.c *)

Module SetQ.
Section WithDivision.

(** [mpfr_div] as [set_q.c] uses it: the destination and the ternary
    value. *)
Variable mpfr_div : mpfr_t -> mpfr_t -> mpfr_t -> mpfr_rnd_t -> M (Z * mpfr_t).

(** [mpz_sizeinbase (z, 2)]: the number of bits of [|z|], 1 for 0. *)
Definition mpz_sizeinbase_2 (z : Z) : Z := Z.log2 (Z.abs z) + 1.

(** Modelled from the spec: [MPFR_CLEAR_FLAGS] of mpfr-impl.h; with the
    special values held in the exponent there is nothing to clear. *)
Definition MPFR_CLEAR_FLAGS (f : mpfr_t) : mpfr_t := f.

(** The two temporaries [n] and [d]: the numerator and the denominator in
    as many bits as they have. *)
Definition set_q_operand (z : Z) : M (Z * mpfr_t) :=
  fun fl =>
    let '(i, n, fl') := mpfr_set_z fl (mpfr_init2 (mpz_sizeinbase_2 z)) z
                          GMP_RNDZ in
    ((i, n), fl').

(** [mpfr_set_q (f, q, rnd)], the rational being [num / den]. *)
Definition mpfr_set_q (f : mpfr_t) (num den : Z) (rnd : mpfr_rnd_t)
  : M (Z * mpfr_t) :=
  let f := MPFR_CLEAR_FLAGS f in
  if num =? 0 then ret (0, MPFR_SET_ZERO f)
  else
    '(_, n) <- set_q_operand num ;;   (* result is exact *)
    '(_, d) <- set_q_operand den ;;   (* result is exact *)
    '(inexact, f') <- mpfr_div f n d rnd ;;
    fun fl => let '(i, fl') := MPFR_RET fl inexact in ((i, f'), fl').

End WithDivision.
End SetQ.

(** ** rem1.c: the opposite of what a call leaves *)

(** The quotient cell with [q] replaced by [-q], in [long]. *)
Definition quo_opp (quo : option Z) : option Z :=
  match quo with
  | Some q => Some (wrap_long (- q))
  | None => None
  end.

(** ** fits_s.h *)

Module Fits.

(** The number of passes of [for (prec = 0; s != 0; s /= 2, prec ++)]. *)
Fixpoint pos_bits (p : positive) : Z :=
  match p with
  | xH => 1
  | xO q | xI q => 1 + pos_bits q
  end.

Definition count_bits (s : Z) : Z :=
  match s with
  | Zpos p => pos_bits p
  | _ => 0
  end.

(** Modelled from the spec: [SAFE_ABS] of mpfr-impl.h, the magnitude in the
    unsigned type. *)
Definition SAFE_ABS (x : Z) : Z := if 0 <=? x then x else - x.

(** The exact comparison of a regular number with an integer. *)
Definition cmp_Z (x : mpfr_t) (z : Z) : comparison :=
  let '(mx, ex) := mpfr_get_z_exp x in
  if 0 <=? ex then mx * 2 ^ ex ?= z else mx ?= z * 2 ^ (- ex).

(** Modelled from the spec: [mpfr_cmp_si] is not part of the sources.  The
    comparison of a number with an integer, negative, zero or positive; an
    infinity compares as its sign, a zero as the opposite of the sign of
    the integer. *)
Definition mpfr_cmp_si (x : mpfr_t) (s : Z) : Z :=
  if MPFR_IS_NAN x then 0
  else if MPFR_IS_INF x then MPFR_SIGN x
  else if MPFR_IS_ZERO x then - Z.sgn s
  else match cmp_Z x s with
       | Lt => -1
       | Eq => 0
       | Gt => 1
       end.

Section WithType.

(** [TYPE] is a signed integer type of [w] bits: [MAXIMUM] and [MINIMUM]
    are its two bounds. *)
Variable w : Z.

Definition MAXIMUM : Z := 2 ^ (w - 1) - 1.
Definition MINIMUM : Z := - 2 ^ (w - 1).

(** [FUNCTION (f, rnd)]: 1 when [f] fits in [TYPE] once rounded to an
    integer in the direction [rnd], else 0. *)
Definition mpfr_fits (f : mpfr_t) (rnd : mpfr_rnd_t) : M Z :=
  if MPFR_IS_SINGULAR f then
    (* Zero always fit *)
    ret (if MPFR_IS_ZERO f then 1 else 0)
  else
    let e := MPFR_GET_EXP f in
    if e <? 1 then ret 1   (* |f| < 1: always fits *)
    else
      let neg := MPFR_IS_NEG f in
      (* let EXTREMUM be MAXIMUM if f > 0, and MINIMUM if f < 0 *)
      let prec := if neg then count_bits (SAFE_ABS MINIMUM)
                  else count_bits MAXIMUM in
      (* EXTREMUM needs prec bits, i.e. 2^(prec-1) <= |EXTREMUM| < 2^prec *)
      (* if e <= prec - 1, then f < 2^(prec-1) <= |EXTREMUM| *)
      if e <=? prec - 1 then ret 1
      (* if e >= prec + 1, then f >= 2^prec > |EXTREMUM| *)
      else if prec + 1 <=? e then ret 0
      else
        (* hard case: first round to prec bits, then check *)
        let x := mpfr_init2 prec in
        '(_, x) <- mpfr_set_m x f rnd ;;
        ret (if neg
             then (if 0 <=? mpfr_cmp_si x MINIMUM then 1 else 0)
             else (if MPFR_GET_EXP x =? e then 1 else 0)).

End WithType.
End Fits.

(** ** When a pass of an escalation loop is accepted *)

(** The condition of the [while] of atanh.c (lines 112-114) negated: the
    pass with trial value [t] and error bound [err] ends the loop. *)
Definition atanh_accepted (P : Primitives) (rnd_mode : mpfr_rnd_t) (Ny : Z)
           (t : mpfr_t) (err : Z) : Prop :=
  0 <= err /\
  mpfr_can_round P t err GMP_RNDN GMP_RNDZ
    (wrap_ulong (Ny + (if rnd_eqb rnd_mode GMP_RNDN then 1 else 0))) = true /\
  MPFR_IS_ZERO t = false.

(** The test of gamma.c (line 193): the pass with trial value [GammaTrial]
    made at [realprec] sets [good]. *)
Definition gamma_accepted (P : Primitives) (gamma : mpfr_t)
           (rnd_mode : mpfr_rnd_t) (GammaTrial : mpfr_t) (realprec : Z)
  : Prop :=
  mpfr_can_round P GammaTrial realprec GMP_RNDD rnd_mode (MPFR_PREC gamma)
  = true.
(** ** Facts about values and the rounding primitive *)

Lemma fin_value_double (neg : bool) (m e : Z) :
  0 < m -> fin_value neg (2 * m) (e - 1) = fin_value neg m e.
Proof.
  intros Hm. destruct m as [|p|p]; try lia.
  change (2 * Z.pos p) with (Z.pos (xO p)). unfold fin_value.
  cbn [pos_odd_part pos_ctz]. f_equal. lia.
Qed.

Lemma fin_value_shiftl (neg : bool) (m e k : Z) :
  0 < m -> 0 <= k -> fin_value neg (Z.shiftl m k) (e - k) = fin_value neg m e.
Proof.
  intros Hm Hk. revert e. pattern k. apply natlike_ind; [| |exact Hk].
  - intros e. rewrite Z.shiftl_0_r. f_equal. lia.
  - intros j Hj IH e.
    rewrite Z.shiftl_mul_pow2 by lia.
    rewrite Z.pow_succ_r by lia.
    replace (m * (2 * 2 ^ j)) with (2 * (m * 2 ^ j)) by ring.
    rewrite <- Z.shiftl_mul_pow2 by lia.
    replace (e - Z.succ j) with (e - j - 1) by lia.
    rewrite fin_value_double.
    + apply IH.
    + rewrite Z.shiftl_mul_pow2 by lia.
      apply Z.mul_pos_pos; [lia | apply Z.pow_pos_nonneg; lia].
Qed.

Lemma regular_bits (x : mpfr_t) :
  regular x -> Z.log2 (_mpfr_d x) + 1 = _mpfr_prec x /\ 0 < _mpfr_d x.
Proof.
  intros (Hp & _ & _ & Hlo & Hhi).
  assert (0 < 2 ^ (_mpfr_prec x - 1)) by (apply Z.pow_pos_nonneg; lia).
  split; [|lia].
  assert (Z.log2 (_mpfr_d x) = _mpfr_prec x - 1) as ->; [|lia].
  apply Z.log2_unique; [lia|].
  replace (Z.succ (_mpfr_prec x - 1)) with (_mpfr_prec x) by lia. lia.
Qed.

Lemma regular_not_singular (x : mpfr_t) :
  regular x ->
  MPFR_IS_SINGULAR x = false /\ mpfr_nan_p x = false /\
  mpfr_inf_p x = false /\ mpfr_zero_p x = false.
Proof.
  intros (_ & _ & He & _).
  unfold MPFR_IS_SINGULAR, mpfr_nan_p, mpfr_inf_p, mpfr_zero_p,
    __MPFR_EXP_INF, __MPFR_EXP_NAN, __MPFR_EXP_ZERO, LONG_MIN, LONG_BIT,
    MPFR_EMIN_DEFAULT, MPFR_EMAX_DEFAULT in *.
  change (2 ^ 30) with 1073741824 in He.
  change (2 ^ (64 - 1)) with 9223372036854775808.
  repeat split; first [apply Z.leb_gt | apply Z.eqb_neq]; lia.
Qed.

(** A number that fits the destination is copied exactly. *)
Lemma mpfr_set4_exact (flags : Z) (a b : mpfr_t) (rnd : mpfr_rnd_t) (s : Z) :
  regular b -> _mpfr_prec b <= _mpfr_prec a ->
  mpfr_set4 flags a b rnd s =
  (0, mk_mpfr (_mpfr_prec a) s (_mpfr_exp b)
        (Z.shiftl (_mpfr_d b) (_mpfr_prec a - _mpfr_prec b)), flags).
Proof.
  intros Hb Hp.
  destruct (regular_not_singular b Hb) as (_ & Hn & Hi & Hz).
  destruct (regular_bits b Hb) as [Hbits _].
  unfold mpfr_set4, MPFR_IS_NAN, MPFR_IS_INF, MPFR_IS_ZERO, mpfr_round_raw.
  rewrite Hn, Hi, Hz, Hbits.
  destruct (Z.leb_spec (_mpfr_prec b) (_mpfr_prec a)); [|lia].
  cbn. f_equal. f_equal. f_equal. lia.
Qed.

Lemma mpfr_value_set4_exact (flags : Z) (a b : mpfr_t) (rnd : mpfr_rnd_t) :
  regular b -> _mpfr_prec b <= _mpfr_prec a ->
  mpfr_value (snd (fst (mpfr_set4 flags a b rnd (MPFR_SIGN b)))) = mpfr_value b.
Proof.
  intros Hb Hp. rewrite mpfr_set4_exact by assumption. cbn [fst snd].
  destruct (regular_not_singular b Hb) as (_ & Hn & Hi & Hz).
  destruct (regular_bits b Hb) as [_ Hpos].
  unfold mpfr_value, mpfr_nan_p, mpfr_inf_p, mpfr_zero_p, MPFR_IS_NEG in *.
  cbn [_mpfr_exp _mpfr_sign _mpfr_d _mpfr_prec].
  rewrite Hn, Hi, Hz. unfold MPFR_SIGN.
  replace (_mpfr_exp b - _mpfr_prec a)
    with (_mpfr_exp b - _mpfr_prec b - (_mpfr_prec a - _mpfr_prec b)) by lia.
  apply fin_value_shiftl; lia.
Qed.

(** Unfolds the tests on the reserved exponents down to integers. *)
Ltac exp_cases :=
  unfold MPFR_IS_SINGULAR, MPFR_IS_NAN, MPFR_IS_INF, MPFR_IS_ZERO,
    mpfr_nan_p, mpfr_inf_p, mpfr_zero_p,
    __MPFR_EXP_INF, __MPFR_EXP_NAN, __MPFR_EXP_ZERO, LONG_MIN, LONG_BIT in *;
  change (2 ^ (64 - 1)) with 9223372036854775808 in *.

(** ** The remainder engine at the special values *)

Section Rem1Special.
Import Rem1.

Variables (flags : Z) (rem : mpfr_t) (quo : option Z).
Variables (rnd_q rnd : mpfr_rnd_t).

Lemma rem1_nan_case (x y : mpfr_t) :
  MPFR_IS_NAN x = true \/ MPFR_IS_NAN y = true \/
  MPFR_IS_INF x = true \/ MPFR_IS_ZERO y = true ->
  mpfr_rem1 flags rem quo rnd_q x y rnd =
  mk_outcome 0 (MPFR_SET_NAN rem) quo (Z.lor flags MPFR_FLAGS_NAN).
Proof.
  intros H. unfold mpfr_rem1.
  assert (Hs : MPFR_IS_SINGULAR x || MPFR_IS_SINGULAR y = true).
  { exp_cases. apply orb_true_iff.
    destruct H as [H | [H | [H | H]]]; apply Z.eqb_eq in H;
      [left | right | left | right]; apply Z.leb_le; lia. }
  rewrite Hs.
  assert (Hn : MPFR_IS_NAN x || MPFR_IS_NAN y || MPFR_IS_INF x
               || MPFR_IS_ZERO y = true).
  { destruct H as [H | [H | [H | H]]]; rewrite H;
      repeat rewrite orb_true_r; reflexivity. }
  rewrite Hn. reflexivity.
Qed.

Lemma rem1_set_case (x y : mpfr_t) :
  MPFR_IS_SINGULAR x || MPFR_IS_SINGULAR y = true ->
  MPFR_IS_NAN x = false -> MPFR_IS_NAN y = false ->
  MPFR_IS_INF x = false -> MPFR_IS_ZERO y = false ->
  mpfr_rem1 flags rem quo rnd_q x y rnd =
  let '(i, rem', fl) := mpfr_set flags rem x rnd in
  mk_outcome i rem' (match quo with Some _ => Some 0 | None => None end) fl.
Proof.
  intros Hs Hnx Hny Hix Hzy. unfold mpfr_rem1.
  rewrite Hs, Hnx, Hny, Hix, Hzy. reflexivity.
Qed.

Lemma inf_is_singular (y : mpfr_t) :
  MPFR_IS_INF y = true ->
  MPFR_IS_SINGULAR y = true /\ MPFR_IS_NAN y = false /\
  MPFR_IS_ZERO y = false.
Proof.
  exp_cases. intros H. apply Z.eqb_eq in H. rewrite H. repeat split.
Qed.

Lemma zero_is_singular (x : mpfr_t) :
  MPFR_IS_ZERO x = true ->
  MPFR_IS_SINGULAR x = true /\ MPFR_IS_NAN x = false /\
  MPFR_IS_INF x = false.
Proof.
  exp_cases. intros H. apply Z.eqb_eq in H. rewrite H. repeat split.
Qed.

Lemma mpfr_set_zero (z : mpfr_t) :
  MPFR_IS_ZERO z = true ->
  mpfr_set flags rem z rnd =
  (0, set_sign (MPFR_SET_ZERO rem) (MPFR_SIGN z), flags).
Proof.
  intros H. destruct (zero_is_singular z H) as (_ & Hn & Hi).
  unfold mpfr_set, mpfr_set4. rewrite Hn, Hi, H. reflexivity.
Qed.

Lemma mpfr_value_zero (z : mpfr_t) :
  MPFR_IS_ZERO z = true -> mpfr_value z = VZero (MPFR_IS_NEG z).
Proof.
  intros H. destruct (zero_is_singular z H) as (_ & Hn & Hi).
  unfold mpfr_value. unfold MPFR_IS_NAN, MPFR_IS_INF, MPFR_IS_ZERO in *.
  rewrite Hn, Hi, H. reflexivity.
Qed.

End Rem1Special.

(** *** Claim C3 *)

(** C3, amended: whatever the rounding modes and the quotient cell, a NaN
    operand, an infinite [x] or a zero [y] gives NaN, returns 0, raises the
    NaN flag and leaves the quotient cell as it was; an infinite [y] with a
    regular [x] gives [x] rounded to the precision of the destination (so
    [x] itself, with indicator 0, when the destination is at least as
    precise as [x]), sign kept, quotient 0; a zero [x] (with [y] neither NaN
    nor zero) gives that zero with its sign, indicator 0, quotient 0. *)
Theorem rem1_special_values
  (flags : Z) (rem : mpfr_t) (quo : option Z) (rnd_q rnd : mpfr_rnd_t)
  (x y : mpfr_t) :
  let o := Rem1.mpfr_rem1 flags rem quo rnd_q x y rnd in
  let quo0 := match quo with Some _ => Some 0 | None => None end in
  (MPFR_IS_NAN x = true \/ MPFR_IS_NAN y = true \/
   MPFR_IS_INF x = true \/ MPFR_IS_ZERO y = true ->
   mpfr_value (Rem1.rem_of o) = VNaN /\ Rem1.inex_of o = 0 /\
   Rem1.quo_of o = quo /\ Rem1.flags_of o = Z.lor flags MPFR_FLAGS_NAN)
  /\
  (MPFR_IS_INF y = true -> regular x ->
   (Rem1.inex_of o, Rem1.rem_of o, Rem1.flags_of o) = mpfr_set flags rem x rnd /\
   MPFR_SIGN (Rem1.rem_of o) = MPFR_SIGN x /\
   Rem1.quo_of o = quo0 /\
   (_mpfr_prec x <= _mpfr_prec rem ->
    mpfr_value (Rem1.rem_of o) = mpfr_value x /\ Rem1.inex_of o = 0))
  /\
  (MPFR_IS_ZERO x = true -> MPFR_IS_NAN y = false -> MPFR_IS_ZERO y = false ->
   mpfr_value (Rem1.rem_of o) = mpfr_value x /\ Rem1.inex_of o = 0 /\
   Rem1.quo_of o = quo0 /\ Rem1.flags_of o = flags).
Proof.
  intros o quo0. subst o quo0. split; [|split].
  - intros H. rewrite rem1_nan_case by exact H. cbn. repeat split.
  - intros Hy Hx.
    destruct (inf_is_singular y Hy) as (Hsy & Hny & Hzy).
    destruct (regular_not_singular x Hx) as (_ & Hnx & Hix & Hzx).
    rewrite rem1_set_case;
      [| rewrite Hsy; apply orb_true_r | assumption ..].
    pose proof (mpfr_set4_exact flags rem x rnd (MPFR_SIGN x) Hx) as Hex.
    pose proof (mpfr_value_set4_exact flags rem x rnd Hx) as Hval.
    unfold mpfr_set in *.
    assert (Hsign : MPFR_SIGN (snd (fst (mpfr_set4 flags rem x rnd (MPFR_SIGN x))))
                    = MPFR_SIGN x).
    { unfold mpfr_set4, MPFR_IS_NAN, MPFR_IS_INF, MPFR_IS_ZERO.
      rewrite Hnx, Hix, Hzx.
      destruct (mpfr_round_raw _ _ _ _) as [[d c] i].
      destruct (MPFR_RET flags i). reflexivity. }
    destruct (mpfr_set4 flags rem x rnd (MPFR_SIGN x)) as [[i r] fl] eqn:E.
    cbn [Rem1.inex_of Rem1.rem_of Rem1.flags_of Rem1.quo_of fst snd] in *.
    repeat split; try assumption.
    + apply Hval; assumption.
    + specialize (Hex H). congruence.
  - intros Hx Hny Hzy.
    destruct (zero_is_singular x Hx) as (Hsx & Hnx & Hix).
    rewrite rem1_set_case; [| rewrite Hsx; reflexivity | assumption ..].
    rewrite mpfr_set_zero by exact Hx.
    cbn [Rem1.inex_of Rem1.rem_of Rem1.flags_of Rem1.quo_of].
    repeat split. rewrite (mpfr_value_zero x Hx). reflexivity.
Qed.

(** C3 as stated fails when the destination is narrower than [x]:
    [fmod (5, +Inf)] into two bits is 4, with a negative indicator. *)
Lemma rem1_inf_divisor_rounds_x :
  let x := Numbers.of_Z 3 5 in
  let y := Numbers.inf 2 1 in
  let o := Rem1.mpfr_fmod 0 (Numbers.nan 2) x y MPFR_RNDN in
  MPFR_IS_INF y = true /\ regular x /\
  mpfr_value (Rem1.rem_of o) = VFin false 1 2 /\
  mpfr_value x = VFin false 5 0 /\
  mpfr_value (Rem1.rem_of o) <> mpfr_value x /\
  Rem1.inex_of o = -1.
Proof.
  cbv zeta. repeat split; try (vm_compute; congruence); vm_compute; lia.
Qed.

Lemma rem1_special_values_witness :
  let x := Numbers.of_Z 3 5 in
  let y := Numbers.inf 2 1 in
  let o := Rem1.mpfr_rem1 0 (Numbers.nan 3) (Some 7) GMP_RNDN x y MPFR_RNDU in
  mpfr_value (Rem1.rem_of o) = mpfr_value x /\ Rem1.inex_of o = 0.
Proof.
  cbv zeta.
  refine (proj2 (proj2 (proj2
    (proj1 (proj2 (rem1_special_values 0 (Numbers.nan 3) (Some 7) GMP_RNDN
                     MPFR_RNDU (Numbers.of_Z 3 5) (Numbers.inf 2 1)))
       _ _))) _).
  - reflexivity.
  - unfold regular; vm_compute; repeat split; (lia || congruence || auto).
  - vm_compute; congruence.
Defined.

(** ** The integer reduction of the remainder engine *)

Lemma pos_ctz_nonneg (p : positive) : 0 <= pos_ctz p.
Proof. induction p; cbn [pos_ctz]; lia. Qed.

Lemma pos_odd_part_ctz (p : positive) :
  Z.pos p = Z.pos (pos_odd_part p) * 2 ^ pos_ctz p.
Proof.
  induction p as [p IH | p IH |]; cbn [pos_ctz pos_odd_part];
    try (rewrite Z.pow_0_r; lia).
  rewrite Z.pow_add_r by (try lia; apply pos_ctz_nonneg).
  change (Z.pos p~0) with (2 * Z.pos p). rewrite IH at 1.
  change (2 ^ 1) with 2. ring.
Qed.

Lemma cmpabs_nonneg (a b : Z) :
  0 <= a -> 0 <= b -> mpz_cmpabs a b = (a ?= b).
Proof. intros. unfold mpz_cmpabs. rewrite !Z.abs_eq by lia. reflexivity. Qed.




Section Reduce.
Import Rem1.

Variables (mx0 ex my0 ey0 : Z).
Hypothesis Hmy : my0 <> 0.

(** The divisor with its trailing zero bits removed. *)
Let k := mpz_scan1_0 (mpz_abs my0).
Let Yo := mpz_div_2exp (mpz_abs my0) k.

Lemma scan1_split : 0 <= k /\ 0 < Yo /\ Z.abs my0 = Yo * 2 ^ k.
Proof.
  subst Yo k. unfold mpz_div_2exp, mpz_abs, mpz_scan1_0.
  destruct my0 as [|p|p]; [congruence | |]; cbn [Z.abs];
    pose proof (pos_ctz_nonneg p); pose proof (pos_odd_part_ctz p) as E;
    (assert (Z.pos p / 2 ^ pos_ctz p = Z.pos (pos_odd_part p)) as ->
        by (rewrite E at 1; apply Z.div_mul; apply Z.pow_nonzero; lia));
    repeat split; try lia.
Qed.

(** Nearest-quotient calls leave a remainder in [[0, my)], and [my] is the
    divisor at the scale the remainder is expressed in. *)
Lemma reduce_nearest_bounds (quo : option Z) :
  let red := rem1_reduce quo GMP_RNDN mx0 ex my0 ey0 in
  let e0 := if red_ey red <? ex then red_ey red else ex in
  0 <= red_r red < red_my red /\
  red_ey red = ey0 + k /\ e0 <= red_ey red /\
  red_my red = Yo * 2 ^ (red_ey red - e0).
Proof.
  destruct scan1_split as (Hk & HYo & _).
  unfold rem1_reduce. fold k. fold Yo. cbn [rnd_eqb GMP_RNDN GMP_RNDZ].
  destruct (Z.leb_spec ex (ey0 + k)) as [Hle | Hgt].
  - assert (Hp : 0 < 2 ^ (ey0 + k - ex)) by (apply Z.pow_pos_nonneg; lia).
    unfold mpz_fdiv_qr, mpz_mul_2exp. cbn [red_r red_my red_ey].
    destruct (Z.ltb_spec (ey0 + k) ex); [lia|].
    repeat split; try lia; apply Z.mod_pos_bound; nia.
  - unfold mpz_powm_ui, mpz_mod, mpz_mul_2exp, mpz_div_2exp, mpz_tdiv_qr.
    assert (H63 : 0 < 2 ^ WANTED_BITS) by (apply Z.pow_pos_nonneg;
      unfold WANTED_BITS, LONG_BIT; lia).
    destruct quo as [q0|]; cbn [red_r red_my red_ey].
    + rewrite Z.div_mul by lia. cbn [red_r red_my red_ey].
      destruct (Z.ltb_spec (ey0 + k) ex); [|lia].
      rewrite Z.sub_diag, Z.pow_0_r.
      repeat split; try lia;
        apply Z.rem_bound_pos; try lia;
        apply Z.mod_pos_bound; rewrite Z.abs_eq; nia.
    + rewrite Z.div_mul by lia.
      set (r1 := (2 ^ (ex - (ey0 + k)) mod Z.abs (Yo * 2 ^ 1) * mpz_abs mx0)
                   mod Z.abs (Yo * 2 ^ 1)).
      assert (Hr1 : 0 <= r1 < 2 * Yo).
      { subst r1. change (2 ^ 1) with 2. rewrite Z.abs_eq by lia.
        replace (Yo * 2) with (2 * Yo) by ring.
        apply Z.mod_pos_bound; lia. }
      rewrite cmpabs_nonneg by lia.
      destruct (Z.compare_spec r1 Yo); cbn [red_r red_my red_ey];
        (destruct (Z.ltb_spec (ey0 + k) ex); [|lia]);
        rewrite Z.sub_diag, Z.pow_0_r; repeat split; lia.
Qed.


End Reduce.

(** ** The remainder engine on regular numbers *)

Lemma wrap_long_small (z : Z) : LONG_MIN <= z <= LONG_MAX -> wrap_long z = z.
Proof.
  unfold wrap_long, LONG_MIN, LONG_MAX, LONG_BIT.
  change (2 ^ (64 - 1)) with 9223372036854775808.
  change (2 ^ 64) with 18446744073709551616.
  intros H. rewrite Z.mod_small; lia.
Qed.


Section Rem1Regular.
Import Rem1.

Variables (flags : Z) (rem : mpfr_t) (rnd : mpfr_rnd_t) (x y : mpfr_t).
Hypothesis Hx : regular x.
Hypothesis Hy : regular y.

Lemma regular_get_z : fst (mpfr_get_z_exp y) <> 0.
Proof.
  destruct (regular_bits y Hy) as [_ Hd].
  destruct Hy as (_ & Hs & _). unfold mpfr_get_z_exp, MPFR_SIGN. cbn [fst].
  destruct Hs as [-> | ->]; lia.
Qed.

Lemma regular_abs_get_z : Z.abs (fst (mpfr_get_z_exp y)) = _mpfr_d y.
Proof.
  destruct (regular_bits y Hy) as [_ Hd].
  destruct Hy as (_ & Hs & _). unfold mpfr_get_z_exp, MPFR_SIGN. cbn [fst].
  destruct Hs as [-> | ->]; lia.
Qed.

(** On regular operands the call is the reduction followed by the
    conversion of the exact remainder. *)
Lemma mpfr_rem1_regular (quo : option Z) (rnd_q : mpfr_rnd_t) :
  mpfr_rem1 flags rem quo rnd_q x y rnd =
  let '(mx, ex) := mpfr_get_z_exp x in
  let '(my, ey) := mpfr_get_z_exp y in
  let sign := if MPFR_SIGN x =? MPFR_SIGN y then 1 else -1 in
  let red := rem1_reduce quo rnd_q mx ex my ey in
  let '(inex, rem', quo', fl) :=
    if red_r red =? 0 then
      let '(i, rem0) := mpfr_set_ui_0 rem in (i, rem0, red_quo red, flags)
    else
      let '(r, quo1) := rem1_nearest rnd_q red in
      let '(i, rem1, fl) := mpfr_set_z flags rem r rnd in
      (i, set_exp rem1 (MPFR_EXP rem1 + (if red_ey red <? ex
                                        then red_ey red else ex)),
       quo1, fl) in
  let quo'' := match quo' with
               | Some q => Some (wrap_long (q * sign))
               | None => None
               end in
  if MPFR_SIGN x <? 0
  then mk_outcome (- inex) (mpfr_neg_inplace rem') quo'' fl
  else mk_outcome inex rem' quo'' fl.
Proof.
  unfold mpfr_rem1.
  destruct (regular_not_singular x Hx) as (-> & _).
  destruct (regular_not_singular y Hy) as (-> & _).
  reflexivity.
Qed.



End Rem1Regular.

Lemma mpfr_set_z_exact (flags : Z) (f : mpfr_t) (r : Z) (rnd : mpfr_rnd_t) :
  r <> 0 -> Z.log2 (Z.abs r) + 1 <= _mpfr_prec f ->
  mpfr_set_z flags f r rnd =
  (0, mk_mpfr (_mpfr_prec f) (Z.sgn r) (Z.log2 (Z.abs r) + 1)
        (Z.shiftl (Z.abs r) (_mpfr_prec f - (Z.log2 (Z.abs r) + 1))), flags).
Proof.
  intros Hr Hp. unfold mpfr_set_z, mpfr_round_raw.
  destruct (Z.eqb_spec r 0); [contradiction|].
  destruct (Z.leb_spec (Z.log2 (Z.abs r) + 1) (_mpfr_prec f)); [|lia].
  cbn. f_equal. f_equal. f_equal. lia.
Qed.

Lemma mpfr_value_regular_exp (p s e d : Z) :
  __MPFR_EXP_INF < e ->
  mpfr_value (mk_mpfr p s e d) = fin_value (s <? 0) d (e - p).
Proof.
  intros He. unfold mpfr_value, mpfr_nan_p, mpfr_inf_p, mpfr_zero_p, MPFR_IS_NEG.
  cbn [_mpfr_exp _mpfr_sign _mpfr_d _mpfr_prec].
  unfold __MPFR_EXP_INF, __MPFR_EXP_NAN, __MPFR_EXP_ZERO in *.
  destruct (Z.eqb_spec e (LONG_MIN + 2)); [lia|].
  destruct (Z.eqb_spec e (LONG_MIN + 3)); [lia|].
  destruct (Z.eqb_spec e (LONG_MIN + 1)); [lia|].
  reflexivity.
Qed.

Section Rem1Nearest.
Import Rem1.

Variables (flags : Z) (rem : mpfr_t) (rnd : mpfr_rnd_t) (x y : mpfr_t).
Hypothesis Hx : regular x.
Hypothesis Hy : regular y.



End Rem1Nearest.

Section RemquoSign.
Import Rem1.

Variables (flags : Z) (rem : mpfr_t) (rnd : mpfr_rnd_t) (x y : mpfr_t).
Hypothesis Hx : regular x.
Hypothesis Hy : regular y.




End RemquoSign.

(** ** The quotient behind the remainder *)

Lemma mpz_get_si_small (z : Z) :
  0 <= z < 2 ^ (LONG_BIT - 1) -> mpz_get_si z = z.
Proof.
  intros Hz. unfold mpz_get_si. rewrite Z.abs_eq by lia.
  rewrite Z.mod_small by lia. destruct z; cbn; lia.
Qed.

Lemma land_1_odd (q : Z) : negb (Z.land q 1 =? 0) = Z.odd q.
Proof.
  change 1 with (Z.ones 1). rewrite Z.land_ones by lia.
  change (2 ^ 1) with 2. rewrite Zmod_odd. destruct (Z.odd q); reflexivity.
Qed.

Lemma odd_add_pow2_mul (a q n : Z) :
  0 < n -> Z.odd (a * 2 ^ n + q) = Z.odd q.
Proof.
  intros Hn. replace n with (Z.succ (n - 1)) by lia.
  rewrite Z.pow_succ_r by lia.
  replace (a * (2 * 2 ^ (n - 1)) + q) with (q + 2 * (a * 2 ^ (n - 1))) by ring.
  apply Z.odd_add_mul_2.
Qed.

Section ReduceQuotient.
Import Rem1.

Variables (mx0 ex my0 ey0 : Z).
Hypothesis Hmy : my0 <> 0.

(** After the reduction of a nearest-quotient call, [r] is the remainder of
    the floor quotient [q0] of [|x|] by [|y|], both at the scale of the
    result; [q_is_odd] is the parity of [q0] and the quotient cell, if any,
    holds its low bits. *)
Lemma reduce_nearest_floor (quo : option Z) :
  let red := rem1_reduce quo GMP_RNDN mx0 ex my0 ey0 in
  let e0 := if red_ey red <? ex then red_ey red else ex in
  exists q0,
    0 <= q0 /\
    Z.abs mx0 * 2 ^ (ex - e0) = q0 * red_my red + red_r red /\
    red_q_is_odd red = Z.odd q0 /\
    match quo with
    | Some _ => red_quo red = Some (q0 mod 2 ^ WANTED_BITS)
    | None => red_quo red = None
    end.
Proof.
  destruct (scan1_split my0 Hmy) as (Hk & HYo & _).
  unfold rem1_reduce. cbn [rnd_eqb GMP_RNDN GMP_RNDZ].
  set (k := mpz_scan1_0 (mpz_abs my0)) in *.
  set (Yo := mpz_div_2exp (mpz_abs my0) k) in *.
  assert (H63 : 0 < 2 ^ WANTED_BITS) by (apply Z.pow_pos_nonneg;
    unfold WANTED_BITS, LONG_BIT; lia).
  assert (Hmx : 0 <= Z.abs mx0) by lia.
  unfold mpz_abs.
  destruct (Z.leb_spec ex (ey0 + k)) as [Hle | Hgt].
  - assert (Hp : 0 < 2 ^ (ey0 + k - ex)) by (apply Z.pow_pos_nonneg; lia).
    unfold mpz_fdiv_qr, mpz_mul_2exp, mpz_tdiv_r_2exp, mpz_tstbit.
    cbn [red_r red_my red_ey red_quo red_q_is_odd].
    destruct (Z.ltb_spec (ey0 + k) ex); [lia|].
    rewrite Z.sub_diag, Z.pow_0_r, Z.mul_1_r.
    set (Y := Yo * 2 ^ (ey0 + k - ex)).
    assert (HY : 0 < Y) by (subst Y; nia).
    assert (Hq : 0 <= Z.abs mx0 / Y) by (apply Z.div_pos; lia).
    exists (Z.abs mx0 / Y). split; [exact Hq|]. split.
    + pose proof (Z.div_mod (Z.abs mx0) Y ltac:(lia)). lia.
    + split; [apply Z.bit0_odd|].
      destruct quo; [|reflexivity]. f_equal.
      rewrite Z.rem_mod_nonneg by lia.
      apply mpz_get_si_small. apply Z.mod_pos_bound. exact H63.
  - unfold mpz_powm_ui, mpz_mod, mpz_mul_2exp, mpz_div_2exp, mpz_tdiv_qr.
    set (X := Z.abs mx0 * 2 ^ (ex - (ey0 + k))).
    assert (Hpw : 0 < 2 ^ (ex - (ey0 + k))) by (apply Z.pow_pos_nonneg; lia).
    assert (HX : 0 <= X) by (subst X; nia).
    assert (Hmod : forall M, 0 < M ->
      (2 ^ (ex - (ey0 + k)) mod Z.abs M * Z.abs mx0) mod Z.abs M = X mod M).
    { intros M HM. rewrite Z.abs_eq by lia.
      rewrite Z.mul_mod_idemp_l by lia. subst X. f_equal. ring. }
    destruct quo as [q0|]; cbn [red_r red_my red_ey red_quo red_q_is_odd].
    + rewrite Z.div_mul by lia.
      cbn [red_r red_my red_ey red_quo red_q_is_odd].
      destruct (Z.ltb_spec (ey0 + k) ex); [|lia].
      set (M := Yo * 2 ^ WANTED_BITS) in *.
      assert (HM : 0 < M) by (subst M; nia).
      rewrite Hmod by exact HM.
      pose proof (Z.mod_pos_bound X M HM) as Hr1.
      set (r1 := X mod M) in *.
      rewrite Z.quot_div_nonneg, Z.rem_mod_nonneg by lia.
      assert (Hql : 0 <= r1 / Yo < 2 ^ WANTED_BITS).
      { split; [apply Z.div_pos; lia|].
        apply Z.div_lt_upper_bound; [lia|]. subst M. lia. }
      rewrite mpz_get_si_small by exact Hql.
      exists (X / M * 2 ^ WANTED_BITS + r1 / Yo).
      split; [assert (0 <= X / M) by (apply Z.div_pos; lia); nia|].
      split.
      * pose proof (Z.div_mod X M ltac:(lia)) as E1.
        pose proof (Z.div_mod r1 Yo ltac:(lia)) as E2.
        fold r1 in E1. subst M. fold X. rewrite E1 at 1. rewrite E2 at 1. ring.
      * split.
        -- rewrite land_1_odd. symmetry. apply odd_add_pow2_mul.
           unfold WANTED_BITS, LONG_BIT. lia.
        -- f_equal. rewrite Z.add_comm, Z.mod_add by lia.
           symmetry. apply Z.mod_small. exact Hql.
    + rewrite Z.div_mul by lia.
      set (M := Yo * 2 ^ 1) in *.
      assert (HM : 0 < M) by (subst M; change (2 ^ 1) with 2; lia).
      rewrite Hmod by exact HM.
      pose proof (Z.mod_pos_bound X M HM) as Hr1.
      pose proof (Z.div_mod X M ltac:(lia)) as E1.
      assert (Hq1 : 0 <= X / M) by (apply Z.div_pos; lia).
      set (r1 := X mod M) in *. set (q1 := X / M) in *.
      assert (EM : M = 2 * Yo) by (subst M; change (2 ^ 1) with 2; ring).
      rewrite cmpabs_nonneg by lia.
      destruct (Z.compare_spec r1 Yo);
        cbn [red_r red_my red_ey red_quo red_q_is_odd];
        (destruct (Z.ltb_spec (ey0 + k) ex); [|lia]); fold X.
      * exists (2 * q1 + 1). repeat split; try lia.
        rewrite Z.add_comm. rewrite Z.odd_add_mul_2. reflexivity.
      * exists (2 * q1). repeat split; try lia.
        rewrite Z.odd_mul. reflexivity.
      * exists (2 * q1 + 1). repeat split; try lia.
        rewrite Z.add_comm. rewrite Z.odd_add_mul_2. reflexivity.
Qed.

End ReduceQuotient.

(** From the floor quotient to the nearest one, ties to even; the quotient
    cell follows unless its increment leaves the range of [long]. *)
Lemma nearest_step (red : Rem1.reduced) (X q0 : Z) :
  X = q0 * Rem1.red_my red + Rem1.red_r red ->
  0 <= Rem1.red_r red < Rem1.red_my red ->
  Rem1.red_q_is_odd red = Z.odd q0 ->
  let r := if Rem1.red_r red =? 0 then 0
           else fst (Rem1.rem1_nearest GMP_RNDN red) in
  let quo1 := if Rem1.red_r red =? 0 then Rem1.red_quo red
              else snd (Rem1.rem1_nearest GMP_RNDN red) in
  exists q, (q = q0 \/ q = q0 + 1) /\
            X = q * Rem1.red_my red + r /\
            2 * Z.abs r <= Rem1.red_my red /\
            (2 * Z.abs r = Rem1.red_my red -> Z.even q = true) /\
            (Rem1.red_quo red = None -> quo1 = None) /\
            (Rem1.red_quo red = Some (q0 mod 2 ^ Rem1.WANTED_BITS) ->
             exists z, quo1 = Some z /\
                       (z = LONG_MIN \/ z = q mod 2 ^ Rem1.WANTED_BITS)).
Proof.
  intros HX Hr Hodd. cbv zeta.
  assert (H63 : 0 < 2 ^ Rem1.WANTED_BITS) by (apply Z.pow_pos_nonneg;
    unfold Rem1.WANTED_BITS, LONG_BIT; lia).
  pose proof (Z.mod_pos_bound q0 _ H63) as Hql.
  assert (Hinc : wrap_long (q0 mod 2 ^ Rem1.WANTED_BITS + 1) = LONG_MIN \/
                 wrap_long (q0 mod 2 ^ Rem1.WANTED_BITS + 1)
                 = (q0 + 1) mod 2 ^ Rem1.WANTED_BITS).
  { destruct (Z.eq_dec (q0 mod 2 ^ Rem1.WANTED_BITS) LONG_MAX) as [E | N].
    - left. rewrite E. reflexivity.
    - right.
      assert (Hlt : q0 mod 2 ^ Rem1.WANTED_BITS + 1 < 2 ^ Rem1.WANTED_BITS).
      { unfold LONG_MAX, Rem1.WANTED_BITS in *. lia. }
      rewrite wrap_long_small
        by (unfold LONG_MIN, LONG_MAX, Rem1.WANTED_BITS in *; lia).
      rewrite <- Z.add_mod_idemp_l by lia.
      symmetry. apply Z.mod_small. lia. }
  destruct (Z.eqb_spec (Rem1.red_r red) 0) as [E0 | N0].
  - exists q0. repeat split; try lia; try tauto.
    intros ->. eexists. split; [reflexivity | right; reflexivity].
  - unfold Rem1.rem1_nearest. cbn [rnd_eqb GMP_RNDN].
    unfold mpz_mul_2exp. change (2 ^ 1) with 2.
    rewrite cmpabs_nonneg by lia. rewrite Hodd.
    destruct (Z.compare_spec (Rem1.red_r red * 2) (Rem1.red_my red))
      as [E | L | G]; cbn [andb].
    + destruct (Z.odd q0) eqn:O; cbn [fst snd].
      * exists (q0 + 1). repeat split; try lia.
        -- intros _. rewrite Z.even_add, <- Z.negb_odd, O. reflexivity.
        -- intros ->. reflexivity.
        -- intros ->. eexists. split; [reflexivity | exact Hinc].
      * exists q0. repeat split; try lia; try tauto.
        -- intros _. rewrite <- Z.negb_odd, O. reflexivity.
        -- intros ->. eexists. split; [reflexivity | right; reflexivity].
    + cbn [fst snd]. exists q0. repeat split; try lia; try tauto.
      intros ->. eexists. split; [reflexivity | right; reflexivity].
    + cbn [fst snd]. exists (q0 + 1). repeat split; try lia.
      * intros ->. reflexivity.
      * intros ->. eexists. split; [reflexivity | exact Hinc].
Qed.

Section Rem1NearestCorrect.
Import Rem1.

Variables (flags : Z) (rem : mpfr_t) (rnd : mpfr_rnd_t) (x y : mpfr_t).
Hypothesis Hx : regular x.
Hypothesis Hy : regular y.

(** X1: The nearest-quotient calls ([mpfr_remainder], [mpfr_remquo]) are
    right: with [X] and [Y] the magnitudes of [x] and [y] as integers at
    the scale [2^e] of the result, the exact remainder [r] is [X - q * Y]
    for the integer [q] nearest to [X / Y], ties to even; the quotient cell
    receives the low bits of [q] with the sign of [x / y], unless its
    increment left the range of [long]. *)
Lemma rem1_nearest_correct (quo : option Z) :
  let '(r, e) := rem1_exact quo GMP_RNDN x y in
  let ex := _mpfr_exp x - _mpfr_prec x in
  let ey := _mpfr_exp y - _mpfr_prec y in
  let o := mpfr_rem1 flags rem quo GMP_RNDN x y rnd in
  e <= ex /\
  exists q Y : Z,
    0 <= q /\ 0 < Y /\
    Y * 2 ^ (e - Z.min e ey) = _mpfr_d y * 2 ^ (ey - Z.min e ey) /\
    _mpfr_d x * 2 ^ (ex - e) = q * Y + r /\
    2 * Z.abs r <= Y /\
    (2 * Z.abs r = Y -> Z.even q = true) /\
    match quo with
    | None => quo_of o = None
    | Some _ =>
        exists w, quo_of o = Some w /\
                  (w <> LONG_MIN ->
                   w = MPFR_SIGN x * MPFR_SIGN y * (q mod 2 ^ WANTED_BITS))
    end.
Proof.
  unfold rem1_exact. rewrite mpfr_rem1_regular by assumption.
  pose proof (regular_get_z y Hy) as Hmy.
  pose proof (regular_abs_get_z y Hy) as Habsy.
  pose proof (regular_abs_get_z x Hx) as Habsx.
  destruct (mpfr_get_z_exp x) as [mx ex] eqn:Ex.
  destruct (mpfr_get_z_exp y) as [my ey] eqn:Ey.
  assert (Eex : ex = _mpfr_exp x - _mpfr_prec x)
    by (unfold mpfr_get_z_exp in Ex; inversion Ex; reflexivity).
  assert (Eey : ey = _mpfr_exp y - _mpfr_prec y)
    by (unfold mpfr_get_z_exp in Ey; inversion Ey; reflexivity).
  cbn [fst] in Hmy, Habsx, Habsy. cbv zeta.
  rewrite <- Eex, <- Eey, <- Habsx, <- Habsy. clear Eex Eey Habsx Habsy.
  destruct (scan1_split my Hmy) as (Hk & HYo & Hsplit).
  pose proof (reduce_nearest_bounds mx ex my ey Hmy quo) as Hb.
  pose proof (reduce_nearest_floor mx ex my ey Hmy quo) as Hf.
  cbv zeta in Hb, Hf.
  set (red := rem1_reduce quo GMP_RNDN mx ex my ey) in *.
  set (e0 := if red_ey red <? ex then red_ey red else ex) in *.
  destruct Hb as (Hr & Hey & He0 & Hmyred).
  destruct Hf as (q0 & Hq0 & HX & Hodd & Hquo).
  destruct (nearest_step red _ q0 HX Hr Hodd)
    as (q & Hq & Hid & Hhalf & Heven & HquoN & HquoS).
  split; [subst e0; destruct (red_ey red <? ex) eqn:E;
          [apply Z.ltb_lt in E|]; lia|].
  exists q, (red_my red).
  split; [lia|]. split; [lia|]. split.
  { set (c := Z.min e0 ey).
    assert (Hc1 : c <= e0) by (subst c; lia).
    assert (Hc2 : c <= ey) by (subst c; lia).
    rewrite Hmyred, Hsplit, Hey.
    rewrite <- !Z.mul_assoc, <- !Z.pow_add_r by lia.
    f_equal. f_equal. lia. }
  split; [exact Hid|]. split; [exact Hhalf|]. split; [exact Heven|].
  assert (Hsx : MPFR_SIGN x = 1 \/ MPFR_SIGN x = -1)
    by (destruct Hx as (_ & Hs & _); exact Hs).
  assert (Hsy : MPFR_SIGN y = 1 \/ MPFR_SIGN y = -1)
    by (destruct Hy as (_ & Hs & _); exact Hs).
  set (sign := if MPFR_SIGN x =? MPFR_SIGN y then 1 else -1).
  assert (Hsign : sign = MPFR_SIGN x * MPFR_SIGN y).
  { subst sign. destruct Hsx as [-> | ->], Hsy as [-> | ->]; reflexivity. }
  match goal with
  | |- context [quo_of ?o] =>
      assert (Hout : quo_of o =
        match (if red_r red =? 0 then red_quo red
               else snd (rem1_nearest GMP_RNDN red)) with
        | Some q1 => Some (wrap_long (q1 * sign))
        | None => None
        end)
  end.
  { destruct (red_r red =? 0).
    - cbn [mpfr_set_ui_0]. destruct (MPFR_SIGN x <? 0); reflexivity.
    - destruct (rem1_nearest GMP_RNDN red) as [r1 q1].
      destruct (mpfr_set_z flags rem r1 rnd) as [[i rem1] fl].
      cbn [snd]. destruct (MPFR_SIGN x <? 0); reflexivity. }
  rewrite Hout. clear Hout.
  destruct quo as [q0'|].
  - destruct (HquoS Hquo) as (z & -> & Hz).
    exists (wrap_long (z * sign)). split; [reflexivity|].
    assert (H63 : 0 < 2 ^ WANTED_BITS) by (apply Z.pow_pos_nonneg;
      unfold WANTED_BITS, LONG_BIT; lia).
    pose proof (Z.mod_pos_bound q _ H63) as Hqm.
    destruct Hz as [-> | ->].
    + intros Hne. exfalso. apply Hne. rewrite Hsign.
      destruct Hsx as [-> | ->], Hsy as [-> | ->]; reflexivity.
    + intros _. rewrite <- Hsign. rewrite wrap_long_small; [ring|].
      assert (Hs : sign = 1 \/ sign = -1)
        by (rewrite Hsign; destruct Hsx as [-> | ->], Hsy as [-> | ->]; auto).
      unfold LONG_MIN, LONG_MAX, WANTED_BITS in *.
      destruct Hs as [-> | ->]; lia.
  - rewrite (HquoN Hquo). reflexivity.
Qed.

End Rem1NearestCorrect.

Section FmodReduce.
Import Rem1.

Variables (mx0 ex my0 ey0 : Z).
Hypothesis Hmy : my0 <> 0.

(** What [mpfr_fmod] reduces to.  With [Yo] the divisor without its
    trailing zero bits and [ey] its exponent: when [ex <= ey] the remainder
    is that of the truncated quotient; when [ex > ey] it is taken modulo
    [2 * Yo] and left there, so it can be [Yo] or more. *)
Lemma fmod_reduce_spec :
  let k := mpz_scan1_0 (mpz_abs my0) in
  let Yo := mpz_div_2exp (mpz_abs my0) k in
  let red := rem1_reduce None GMP_RNDZ mx0 ex my0 ey0 in
  (ex <= ey0 + k ->
   red_my red = Yo * 2 ^ (ey0 + k - ex) /\
   red_r red = Z.abs mx0 mod red_my red /\
   Z.abs mx0 = Z.quot (Z.abs mx0) (red_my red) * red_my red + red_r red)
  /\
  (ey0 + k < ex ->
   red_my red = Yo /\
   red_r red = (Z.abs mx0 * 2 ^ (ex - (ey0 + k))) mod (2 * Yo)).
Proof.
  destruct (scan1_split my0 Hmy) as (Hk & HYo & _).
  cbv zeta. unfold rem1_reduce. cbn [rnd_eqb GMP_RNDN GMP_RNDZ].
  set (k := mpz_scan1_0 (mpz_abs my0)) in *.
  set (Yo := mpz_div_2exp (mpz_abs my0) k) in *.
  unfold mpz_abs. split; intros H.
  - destruct (Z.leb_spec ex (ey0 + k)); [|lia].
    assert (Hp : 0 < 2 ^ (ey0 + k - ex)) by (apply Z.pow_pos_nonneg; lia).
    unfold mpz_tdiv_qr, mpz_mul_2exp. cbn [red_r red_my].
    assert (HY : 0 < Yo * 2 ^ (ey0 + k - ex)) by nia.
    split; [reflexivity|]. rewrite Z.rem_mod_nonneg by lia.
    split; [reflexivity|].
    rewrite Z.quot_div_nonneg by lia.
    pose proof (Z.div_mod (Z.abs mx0) (Yo * 2 ^ (ey0 + k - ex)) ltac:(lia)).
    lia.
  - destruct (Z.leb_spec ex (ey0 + k)); [lia|].
    unfold mpz_powm_ui, mpz_mod, mpz_mul_2exp, mpz_div_2exp.
    cbn [red_r red_my]. change (2 ^ 1) with 2.
    rewrite Z.div_mul by lia. split; [reflexivity|].
    rewrite Z.abs_eq by lia. rewrite Z.mul_mod_idemp_l by lia.
    f_equal; ring.
Qed.

End FmodReduce.

Ltac solve_regular :=
  unfold regular; repeat split;
  first [ left; reflexivity | right; reflexivity
        | vm_compute; discriminate | vm_compute; reflexivity ].

(** *** Claim C2 *)




(** *** Claim C1 *)

(** The scenarios of the specification, at 53 bits. *)
Example remainder_5_3 :
  let o := Rem1.mpfr_remquo 0 (Numbers.nan 53) 0
             (Numbers.of_Z 53 5) (Numbers.of_Z 53 3) MPFR_RNDN in
  mpfr_value (Rem1.rem_of o) = VFin true 1 0 /\ Rem1.quo_of o = Some 2 /\
  Rem1.inex_of o = 0 /\
  Rem1.rem_of (Rem1.mpfr_remainder 0 (Numbers.nan 53)
                 (Numbers.of_Z 53 5) (Numbers.of_Z 53 3) MPFR_RNDN)
  = Rem1.rem_of o.
Proof. cbv zeta. repeat split; reflexivity. Qed.

Example fmod_5_3 :
  let o := Rem1.mpfr_fmod 0 (Numbers.nan 53)
             (Numbers.of_Z 53 5) (Numbers.of_Z 53 3) MPFR_RNDN in
  mpfr_value (Rem1.rem_of o) = VFin false 1 1 /\ Rem1.inex_of o = 0 /\
  Z.quot 5 3 = 1 /\ 5 - 1 * 3 = 2.
Proof. cbv zeta. repeat split; reflexivity. Qed.

(** C1 at a failing input.  When [ex > ey] and no quotient is asked for,
    the reduction is done modulo [2Y] and the subtraction that brings the
    remainder below [Y] is only made for the nearest quotient, so [fmod]
    can return a remainder that is not below the divisor:
    [fmod (5, 1.5)] with [x] on 3 bits and [y] on 2 bits returns 2 where
    [5 - 3 * 1.5 = 0.5], and [fmod (7 * 2^60, 3)] at 53 bits returns 4
    where the remainder is 1. *)
Theorem fmod_skips_last_subtraction :
  let x := Numbers.of_Z 3 5 in
  let y := Numbers.of_Z_2exp 2 3 (-1) in
  let o := Rem1.mpfr_fmod 0 (Numbers.nan 53) x y MPFR_RNDN in
  let x' := Numbers.of_Z_2exp 53 7 60 in
  let y' := Numbers.of_Z 53 3 in
  let o' := Rem1.mpfr_fmod 0 (Numbers.nan 53) x' y' MPFR_RNDN in
  (regular x /\ regular y /\
   mpfr_value x = VFin false 5 0 /\ mpfr_value y = VFin false 3 (-1) /\
   Rem1.rem1_exact None GMP_RNDZ x y = (4, -1) /\
   mpfr_value (Rem1.rem_of o) = VFin false 1 1 /\ Rem1.inex_of o = 0 /\
   Z.quot (5 * 2) 3 = 3 /\ 5 * 2 - 3 * 3 = 1)
  /\
  (regular x' /\ regular y' /\
   mpfr_value x' = VFin false 7 60 /\ mpfr_value y' = VFin false 3 0 /\
   Rem1.rem1_exact None GMP_RNDZ x' y' = (4, 0) /\
   mpfr_value (Rem1.rem_of o') = VFin false 1 2 /\ Rem1.inex_of o' = 0 /\
   Z.rem (7 * 2 ^ 60) 3 = 1).
Proof.
  cbv zeta. split.
  - split; [solve_regular|]. split; [solve_regular|].
    repeat split; vm_compute; reflexivity.
  - split; [solve_regular|]. split; [solve_regular|].
    repeat split; vm_compute; reflexivity.
Qed.

(** ** atanh at the special values *)

Section AtanhSpecial.

Variables (P : Primitives) (fuel : nat) (y xt : mpfr_t).
Variables (rnd_mode : mpfr_rnd_t) (fl : Z).

Lemma atanh_nan :
  MPFR_IS_NAN xt = true ->
  Atanh.mpfr_atanh P fuel y xt rnd_mode fl =
  (Some (0, MPFR_SET_NAN y), Z.lor fl MPFR_FLAGS_NAN).
Proof.
  intros H. unfold Atanh.mpfr_atanh. rewrite H.
  assert (MPFR_IS_SINGULAR xt = true) as ->; [|reflexivity].
  exp_cases. apply Z.eqb_eq in H. rewrite H. reflexivity.
Qed.

Lemma atanh_inf :
  MPFR_IS_INF xt = true ->
  Atanh.mpfr_atanh P fuel y xt rnd_mode fl =
  (Some (0, MPFR_SET_SAME_SIGN (MPFR_SET_INF y) xt), fl).
Proof.
  intros H. unfold Atanh.mpfr_atanh.
  destruct (inf_is_singular xt H) as (-> & -> & _). rewrite H. reflexivity.
Qed.

Lemma atanh_zero :
  MPFR_IS_ZERO xt = true ->
  Atanh.mpfr_atanh P fuel y xt rnd_mode fl =
  (Some (0, MPFR_SET_SAME_SIGN (MPFR_SET_ZERO y) xt), fl).
Proof.
  intros H. unfold Atanh.mpfr_atanh.
  destruct (zero_is_singular xt H) as (-> & -> & ->). rewrite H. reflexivity.
Qed.

Lemma atanh_regular :
  regular xt ->
  Atanh.mpfr_atanh P fuel y xt rnd_mode fl =
  Atanh.atanh_general P fuel y xt rnd_mode fl.
Proof.
  intros H. unfold Atanh.mpfr_atanh.
  destruct (regular_not_singular xt H) as (-> & _). reflexivity.
Qed.

End AtanhSpecial.

(** *** Claim C10 *)

(** C10: on an infinite input, [mpfr_atanh] returns 0 and leaves in the
    destination an infinity with the sign of the input (not NaN); the flags
    are untouched. *)
Theorem atanh_of_infinity
  (P : Primitives) (fuel : nat) (y xt : mpfr_t) (rnd_mode : mpfr_rnd_t)
  (fl : Z) :
  MPFR_IS_INF xt = true ->
  exists y', Atanh.mpfr_atanh P fuel y xt rnd_mode fl = (Some (0, y'), fl) /\
             mpfr_value y' = VInf (MPFR_IS_NEG xt) /\
             MPFR_SIGN y' = MPFR_SIGN xt /\
             mpfr_value y' = mpfr_value xt.
Proof.
  intros H. rewrite atanh_inf by exact H. eexists. split; [reflexivity|].
  destruct (inf_is_singular xt H) as (_ & Hn & _).
  unfold mpfr_value.
  unfold MPFR_IS_NAN, MPFR_IS_INF in *. rewrite Hn, H.
  repeat split.
Qed.

Lemma atanh_of_infinity_witness :
  MPFR_IS_INF (Numbers.inf 53 (-1)) = true /\
  exists y',
    Atanh.mpfr_atanh Demo.library 0 (Numbers.nan 24) (Numbers.inf 53 (-1))
      MPFR_RNDN 0 = (Some (0, y'), 0) /\
    mpfr_value y' = VInf true.
Proof.
  split; [reflexivity|].
  destruct (atanh_of_infinity Demo.library 0 (Numbers.nan 24)
              (Numbers.inf 53 (-1)) MPFR_RNDN 0 eq_refl)
    as (y' & E & V & _).
  exists y'. split; [exact E | exact V].
Defined.

(** ** The general case of atanh *)

Lemma mpfr_abs_exact (xt : mpfr_t) (fl : Z) :
  regular xt ->
  mpfr_abs_m (mpfr_init2 (MPFR_PREC xt)) xt GMP_RNDN fl = (set_sign xt 1, fl).
Proof.
  intros H. unfold mpfr_abs_m, mpfr_abs.
  rewrite mpfr_set4_exact; [| exact H | cbn; unfold MPFR_PREC; lia].
  cbn [_mpfr_prec mpfr_init2]. unfold MPFR_PREC.
  rewrite Z.sub_diag, Z.shiftl_0_r. destruct xt; reflexivity.
Qed.

(** On a regular input the trials are made on [|xt|], and the sign of [xt]
    is put on the trial value that left the loop before it is rounded into
    the destination. *)
Lemma atanh_general_regular
  (P : Primitives) (fuel : nat) (y xt : mpfr_t) (rnd_mode : mpfr_rnd_t)
  (fl : Z) :
  regular xt ->
  Atanh.mpfr_atanh P fuel y xt rnd_mode fl =
  let st0 := Atanh.mk_loop_state
               (Atanh.atanh_Nt0 (MPFR_PREC xt) (MPFR_PREC y))
               mpfr_init mpfr_init mpfr_init in
  let '(r, fl1) :=
    Atanh.atanh_loop P fuel rnd_mode (MPFR_PREC y) (set_sign xt 1) st0 fl in
  match r with
  | None => (None, fl1)
  | Some st =>
      let t := if MPFR_IS_NEG xt then MPFR_CHANGE_SIGN (Atanh.ls_t st)
               else Atanh.ls_t st in
      let '(inexact, y', fl2) := mpfr_set fl1 y t rnd_mode in
      (Some (inexact, y'), fl2)
  end.
Proof.
  intros H. rewrite atanh_regular by exact H.
  unfold Atanh.atanh_general, bind. rewrite mpfr_abs_exact by exact H.
  change (MPFR_PREC (set_sign xt 1)) with (MPFR_PREC xt).
  cbv zeta.
  destruct (Atanh.atanh_loop P fuel rnd_mode (MPFR_PREC y) (set_sign xt 1) _ fl)
    as [[st|] fl1]; [|reflexivity].
  unfold mpfr_set_m.
  destruct (mpfr_set fl1 y _ rnd_mode) as [[i y'] fl2]. reflexivity.
Qed.

(** *** Claim C8 *)

(** C8, amended: [mpfr_atanh] maps NaN to NaN (returning 0 and raising the
    NaN flag) and a zero to the zero of the same sign (returning 0); on a
    regular input the loop is run on [|xt|], and the sign of [xt] is put on
    the trial value before the final rounding into the destination, which
    is done on the signed value in the caller's mode. *)
Theorem atanh_special_and_sign
  (P : Primitives) (fuel : nat) (y xt : mpfr_t) (rnd_mode : mpfr_rnd_t)
  (fl : Z) :
  (MPFR_IS_NAN xt = true ->
   exists y', Atanh.mpfr_atanh P fuel y xt rnd_mode fl =
              (Some (0, y'), Z.lor fl MPFR_FLAGS_NAN) /\
              mpfr_value y' = VNaN)
  /\
  (MPFR_IS_ZERO xt = true ->
   exists y', Atanh.mpfr_atanh P fuel y xt rnd_mode fl = (Some (0, y'), fl) /\
              mpfr_value y' = VZero (MPFR_IS_NEG xt) /\
              mpfr_value y' = mpfr_value xt)
  /\
  (regular xt ->
   MPFR_SIGN (set_sign xt 1) = 1 /\
   _mpfr_d (set_sign xt 1) = _mpfr_d xt /\
   _mpfr_exp (set_sign xt 1) = _mpfr_exp xt /\
   Atanh.mpfr_atanh P fuel y xt rnd_mode fl =
   let st0 := Atanh.mk_loop_state
                (Atanh.atanh_Nt0 (MPFR_PREC xt) (MPFR_PREC y))
                mpfr_init mpfr_init mpfr_init in
   let '(r, fl1) :=
     Atanh.atanh_loop P fuel rnd_mode (MPFR_PREC y) (set_sign xt 1) st0 fl in
   match r with
   | None => (None, fl1)
   | Some st =>
       let t := if MPFR_IS_NEG xt then MPFR_CHANGE_SIGN (Atanh.ls_t st)
                else Atanh.ls_t st in
       let '(inexact, y', fl2) := mpfr_set fl1 y t rnd_mode in
       (Some (inexact, y'), fl2)
   end).
Proof.
  split; [|split].
  - intros H. rewrite atanh_nan by exact H. eexists. split; reflexivity.
  - intros H. rewrite atanh_zero by exact H. eexists. split; [reflexivity|].
    rewrite (mpfr_value_zero xt H). split; reflexivity.
  - intros H. repeat split. apply atanh_general_regular. exact H.
Qed.

(** C8 as stated fails under the directed modes: for [xt = -1/2] into two
    bits, rounding toward plus infinity, the code rounds [-0.5493...] up to
    [-1/2]; rounding the trial value first and negating afterwards would
    give [-3/4]. *)
Lemma atanh_sign_precedes_rounding :
  let xt := Numbers.of_Z_2exp 2 (-1) (-1) in
  let y := Numbers.nan 2 in
  regular xt /\ mpfr_value xt = VFin true 1 (-1) /\
  result_value (Atanh.mpfr_atanh Demo.library 2 y xt MPFR_RNDU 0)
  = Some (1, VFin true 1 (-1)) /\
  result_value (Passes.atanh_sign_after_rounding Demo.library 2 y xt MPFR_RNDU 0)
  = Some (-1, VFin true 3 (-2)) /\
  Atanh.mpfr_atanh Demo.library 2 y xt MPFR_RNDU 0 <>
  Passes.atanh_sign_after_rounding Demo.library 2 y xt MPFR_RNDU 0.
Proof.
  cbv zeta. split; [solve_regular|].
  split; [vm_compute; reflexivity|].
  split; [vm_compute; reflexivity|].
  split; [vm_compute; reflexivity|].
  vm_compute. discriminate.
Qed.

Lemma atanh_special_and_sign_witness :
  MPFR_IS_ZERO (Numbers.zero 53 (-1)) = true /\
  exists y',
    Atanh.mpfr_atanh Demo.library 0 (Numbers.nan 24) (Numbers.zero 53 (-1))
      MPFR_RNDN 0 = (Some (0, y'), 0) /\
    mpfr_value y' = VZero true.
Proof.
  split; [reflexivity|].
  destruct (proj1 (proj2 (atanh_special_and_sign Demo.library 0
                            (Numbers.nan 24) (Numbers.zero 53 (-1))
                            MPFR_RNDN 0)) eq_refl)
    as (y' & E & V & _).
  exists y'. split; [exact E | exact V].
Defined.

(** ** Rounding and negation *)

Lemma round_up_p_mirror (rnd : mpfr_rnd_t) (neg : bool) (hi lo half : Z) :
  round_up_p rnd (negb neg) hi lo half =
  round_up_p (rnd_mirror rnd) neg hi lo half.
Proof. destruct rnd, neg; reflexivity. Qed.

Lemma mpfr_round_raw_mirror (p : Z) (rnd : mpfr_rnd_t) (neg : bool) (m : Z) :
  mpfr_round_raw p rnd (negb neg) m =
  let '(d, c, i) := mpfr_round_raw p (rnd_mirror rnd) neg m in (d, c, - i).
Proof.
  unfold mpfr_round_raw. rewrite round_up_p_mirror.
  destruct (Z.log2 m + 1 <=? p); [reflexivity|].
  destruct (m mod 2 ^ (Z.log2 m + 1 - p) =? 0); [reflexivity|].
  destruct (round_up_p _ _ _ _ _); [destruct (_ =? _)|];
    destruct neg; reflexivity.
Qed.

Lemma mpfr_round_raw_carry (p : Z) (rnd : mpfr_rnd_t) (neg : bool) (m : Z) :
  let '(_, c, _) := mpfr_round_raw p rnd neg m in c = 0 \/ c = 1.
Proof.
  unfold mpfr_round_raw.
  destruct (Z.log2 m + 1 <=? p); [left; reflexivity|].
  destruct (m mod 2 ^ (Z.log2 m + 1 - p) =? 0); [left; reflexivity|].
  destruct (round_up_p _ _ _ _ _); [destruct (_ =? _)|]; auto.
Qed.

Lemma MPFR_RET_opp (fl i : Z) :
  MPFR_RET fl (- i) = let '(r, fl') := MPFR_RET fl i in (- r, fl').
Proof.
  unfold MPFR_RET. destruct (Z.eqb_spec i 0) as [-> | N]; [reflexivity|].
  destruct (Z.eqb_spec (- i) 0); [lia | reflexivity].
Qed.

(** Copying with the opposite sign in a mode is the opposite of copying in
    the mirror mode. *)
Lemma mpfr_set4_opp (fl : Z) (a b : mpfr_t) (rnd : mpfr_rnd_t) (s : Z) :
  s = 1 \/ s = -1 ->
  mpfr_set4 fl a b rnd (- s) =
  let '(i, a', fl') := mpfr_set4 fl a b (rnd_mirror rnd) s in
  (- i, mpfr_opp a', fl').
Proof.
  intros Hs. unfold mpfr_set4.
  destruct (MPFR_IS_NAN b) eqn:Hn; [reflexivity|].
  destruct (MPFR_IS_INF b) eqn:Hi; [reflexivity|].
  destruct (MPFR_IS_ZERO b) eqn:Hz; [reflexivity|].
  assert (Hneg : (- s <? 0) = negb (s <? 0))
    by (destruct Hs as [-> | ->]; reflexivity).
  rewrite Hneg, mpfr_round_raw_mirror.
  pose proof (mpfr_round_raw_carry (_mpfr_prec a) (rnd_mirror rnd) (s <? 0)
                (_mpfr_d b)) as Hc.
  destruct (mpfr_round_raw _ _ _ _) as [[d c] i].
  rewrite MPFR_RET_opp. destruct (MPFR_RET fl i) as [r fl'].
  f_equal. f_equal. unfold mpfr_opp.
  assert (MPFR_IS_NAN (mk_mpfr (_mpfr_prec a) s (_mpfr_exp b + c) d) = false)
    as ->; [|reflexivity].
  unfold MPFR_IS_NAN, MPFR_IS_INF, MPFR_IS_ZERO, mpfr_nan_p, mpfr_inf_p,
    mpfr_zero_p, __MPFR_EXP_NAN, __MPFR_EXP_INF, __MPFR_EXP_ZERO in *.
  cbn [_mpfr_exp].
  apply Z.eqb_neq. apply Z.eqb_neq in Hn, Hz. lia.
Qed.

(** The loop only looks at whether the mode is to-nearest. *)
Lemma atanh_loop_mirror
  (P : Primitives) (fuel : nat) (rnd : mpfr_rnd_t) (Ny : Z) (x : mpfr_t)
  (st : Atanh.loop_state) (fl : Z) :
  Atanh.atanh_loop P fuel (rnd_mirror rnd) Ny x st fl =
  Atanh.atanh_loop P fuel rnd Ny x st fl.
Proof.
  revert st fl. induction fuel as [|fuel IH]; intros st fl; [reflexivity|].
  cbn [Atanh.atanh_loop]. unfold bind.
  destruct (Atanh.atanh_body P x st fl) as [[st' err] fl'].
  assert (Atanh.atanh_continue P (rnd_mirror rnd) Ny (Atanh.ls_t st') err =
          Atanh.atanh_continue P rnd Ny (Atanh.ls_t st') err) as ->
    by (destruct rnd; reflexivity).
  destruct (Atanh.atanh_continue P rnd Ny (Atanh.ls_t st') err);
    [apply IH | reflexivity].
Qed.

Lemma mpfr_set4_ignores_sign (fl : Z) (a b : mpfr_t) (rnd : mpfr_rnd_t)
  (s s' : Z) :
  mpfr_set4 fl a (set_sign b s') rnd s = mpfr_set4 fl a b rnd s.
Proof. reflexivity. Qed.

Lemma mpfr_opp_involutive (y : mpfr_t) : mpfr_opp (mpfr_opp y) = y.
Proof.
  unfold mpfr_opp. destruct (MPFR_IS_NAN y) eqn:E; [rewrite E; reflexivity|].
  change (MPFR_IS_NAN (MPFR_CHANGE_SIGN y)) with (MPFR_IS_NAN y). rewrite E.
  destruct y as [p s e d]. unfold MPFR_CHANGE_SIGN, set_sign.
  cbn [_mpfr_prec _mpfr_sign _mpfr_exp _mpfr_d]. f_equal. lia.
Qed.

Lemma call_opp_involutive c : call_opp (call_opp c) = c.
Proof.
  destruct c as [[[i y]|] fl]; [|reflexivity].
  unfold call_opp, result_opp. cbn [fst snd].
  rewrite mpfr_opp_involutive. do 3 f_equal. lia.
Qed.

Lemma regular_opp (x : mpfr_t) : regular x -> regular (MPFR_CHANGE_SIGN x).
Proof.
  intros (Hp & Hs & He & Hd). unfold regular, MPFR_CHANGE_SIGN, set_sign.
  cbn [_mpfr_prec _mpfr_sign _mpfr_exp _mpfr_d]. repeat split; lia.
Qed.

Lemma regular_not_nan (x : mpfr_t) : finite x -> MPFR_IS_NAN x = false.
Proof.
  intros [H | H].
  - destruct (zero_is_singular x H) as (_ & Hn & _). exact Hn.
  - destruct (regular_not_singular x H) as (_ & Hn & _). exact Hn.
Qed.

Section AtanhOdd.

Variables (P : Primitives) (fuel : nat) (y xt : mpfr_t) (fl : Z).

Let st0 := Atanh.mk_loop_state
             (Atanh.atanh_Nt0 (MPFR_PREC xt) (MPFR_PREC y))
             mpfr_init mpfr_init mpfr_init.

Hypothesis Hfin : finite xt.

(** The trial value that leaves the loop carries a sign. *)
Hypothesis Hsign : forall rnd st fl',
  Atanh.atanh_loop P fuel rnd (MPFR_PREC y) (set_sign xt 1) st0 fl
  = (Some st, fl') ->
  MPFR_SIGN (Atanh.ls_t st) = 1 \/ MPFR_SIGN (Atanh.ls_t st) = -1.

Lemma atanh_opp_mirror (rnd : mpfr_rnd_t) :
  Atanh.mpfr_atanh P fuel y (mpfr_opp xt) rnd fl =
  call_opp (Atanh.mpfr_atanh P fuel y xt (rnd_mirror rnd) fl).
Proof.
  unfold mpfr_opp. rewrite (regular_not_nan xt Hfin).
  destruct Hfin as [Hz | Hr].
  - rewrite !atanh_zero by exact Hz. unfold call_opp, result_opp, mpfr_opp.
    cbn [fst snd]. reflexivity.
  - rewrite !atanh_general_regular by (try apply regular_opp; exact Hr).
    change (MPFR_PREC (MPFR_CHANGE_SIGN xt)) with (MPFR_PREC xt).
    change (set_sign (MPFR_CHANGE_SIGN xt) 1) with (set_sign xt 1).
    cbv zeta. fold st0. rewrite atanh_loop_mirror.
    pose proof (Hsign rnd) as Hs.
    destruct (Atanh.atanh_loop P fuel rnd (MPFR_PREC y) (set_sign xt 1) st0 fl)
      as [[st|] fl1]; [|reflexivity].
    specialize (Hs st fl1 eq_refl).
    assert (Hx : MPFR_SIGN xt = 1 \/ MPFR_SIGN xt = -1)
      by (destruct Hr as (_ & H & _); exact H).
    unfold MPFR_IS_NEG, MPFR_CHANGE_SIGN, mpfr_set, MPFR_SIGN in *.
    destruct Hx as [E | E]; rewrite E; cbn [_mpfr_sign set_sign Z.opp Z.ltb
                                             Z.compare].
    + rewrite mpfr_set4_ignores_sign, mpfr_set4_opp by exact Hs.
      destruct (mpfr_set4 fl1 y (Atanh.ls_t st) (rnd_mirror rnd) _)
        as [[i y'] fl2].
      reflexivity.
    + rewrite mpfr_set4_ignores_sign.
      rewrite (mpfr_set4_opp fl1 y (Atanh.ls_t st) (rnd_mirror rnd)) by exact Hs.
      replace (rnd_mirror (rnd_mirror rnd)) with rnd by (destruct rnd; reflexivity).
      destruct (mpfr_set4 fl1 y (Atanh.ls_t st) rnd _) as [[i y'] fl2].
      change (Some (i, y'), fl2) with
        (@pair (option (Z * mpfr_t)) Z (Some (i, y')) fl2).
      rewrite <- (call_opp_involutive (Some (i, y'), fl2)) at 1.
      reflexivity.
Qed.

End AtanhOdd.

(** *** Claim C7 *)

(** C7: for a finite [xt] (zero or regular), whenever the trial value that
    leaves the loop carries a sign, [atanh (-xt)] is the opposite of
    [atanh (xt)], destination, indicator and flags, under to-nearest,
    toward-zero and away-from-zero, and the results toward plus infinity and
    toward minus infinity are the opposites of each other; the two calls
    leave the loop after the same number of passes, or neither does. *)
Theorem atanh_odd_symmetry
  (P : Primitives) (fuel : nat) (y xt : mpfr_t) (fl : Z) :
  finite xt ->
  (forall rnd st fl',
     Atanh.atanh_loop P fuel rnd (MPFR_PREC y) (set_sign xt 1)
       (Atanh.mk_loop_state (Atanh.atanh_Nt0 (MPFR_PREC xt) (MPFR_PREC y))
          mpfr_init mpfr_init mpfr_init) fl = (Some st, fl') ->
     MPFR_SIGN (Atanh.ls_t st) = 1 \/ MPFR_SIGN (Atanh.ls_t st) = -1) ->
  let atanh := Atanh.mpfr_atanh P fuel y in
  atanh (mpfr_opp xt) MPFR_RNDN fl = call_opp (atanh xt MPFR_RNDN fl) /\
  atanh (mpfr_opp xt) MPFR_RNDZ fl = call_opp (atanh xt MPFR_RNDZ fl) /\
  atanh (mpfr_opp xt) MPFR_RNDA fl = call_opp (atanh xt MPFR_RNDA fl) /\
  atanh (mpfr_opp xt) MPFR_RNDU fl = call_opp (atanh xt MPFR_RNDD fl) /\
  atanh (mpfr_opp xt) MPFR_RNDD fl = call_opp (atanh xt MPFR_RNDU fl).
Proof.
  intros Hfin Hsign atanh. subst atanh.
  repeat split; apply (atanh_opp_mirror P fuel y xt fl Hfin Hsign).
Qed.

Lemma atanh_odd_symmetry_witness :
  let x := Numbers.of_Z_2exp 2 1 (-1) in
  let y := Numbers.nan 2 in
  finite x /\
  fst (Atanh.mpfr_atanh Demo.library 2 y (mpfr_opp x) MPFR_RNDU 0) =
  result_opp (fst (Atanh.mpfr_atanh Demo.library 2 y x MPFR_RNDD 0)) /\
  exists r, fst (Atanh.mpfr_atanh Demo.library 2 y x MPFR_RNDD 0) = Some r.
Proof.
  cbv zeta.
  assert (Hfin : finite (Numbers.of_Z_2exp 2 1 (-1))) by (right; solve_regular).
  split; [exact Hfin|]. split.
  - refine (f_equal fst (proj1 (proj2 (proj2 (proj2
      (atanh_odd_symmetry Demo.library 2 (Numbers.nan 2)
         (Numbers.of_Z_2exp 2 1 (-1)) 0 Hfin _)))))).
    intros rnd st fl' H.
    destruct rnd; vm_compute in H; inversion H; left; reflexivity.
  - eexists. vm_compute. reflexivity.
Defined.

(** ** The escalation loops, pass by pass *)

Section AtanhLoop.

Variables (P : Primitives) (rnd : mpfr_rnd_t) (Ny : Z) (x : mpfr_t).

Lemma atanh_body_spec (st st' : Atanh.loop_state) (err fl fl' : Z) :
  Atanh.atanh_body P x st fl = ((st', err), fl') ->
  Atanh.ls_Nt st' = wrap_ulong (Atanh.ls_Nt st + 10) /\
  err = wrap_long (Atanh.ls_Nt st
                   - (Z.max (wrap_long (4 - MPFR_GET_EXP (Atanh.ls_t st'))) 0
                      + 1)).
Proof.
  unfold Atanh.atanh_body, bind, ret.
  destruct (mpfr_ui_sub P _ _ _ _ fl) as [te1 fl1].
  destruct (mpfr_add_ui P _ _ _ _ fl1) as [ti1 fl2].
  destruct (mpfr_div P _ _ _ _ fl2) as [te2 fl3].
  destruct (mpfr_log P _ _ _ fl3) as [te3 fl4].
  destruct (mpfr_div_2ui P _ _ _ _ fl4) as [t1 fl5].
  intros H. inversion H; subst. cbn. split; reflexivity.
Qed.

Lemma atanh_loop_retries (fuel : nat) (st : Atanh.loop_state) (fl : Z) :
  (forall n, (n < fuel)%nat -> Passes.atanh_retries P n rnd Ny x st fl = true) ->
  fst (Atanh.atanh_loop P fuel rnd Ny x st fl) = None.
Proof.
  revert st fl. induction fuel as [|fuel IH]; intros st fl H; [reflexivity|].
  cbn [Atanh.atanh_loop]. unfold bind.
  pose proof (H 0%nat ltac:(lia)) as H0.
  unfold Passes.atanh_retries in H0. cbn [Passes.atanh_passes] in H0.
  destruct (Atanh.atanh_body P x st fl) as [[st' err] fl'] eqn:E.
  rewrite H0. apply IH. intros n Hn.
  specialize (H (S n) ltac:(lia)).
  unfold Passes.atanh_retries in *. cbn [Passes.atanh_passes] in H.
  unfold bind in H. rewrite E in H. exact H.
Qed.

Lemma atanh_loop_exit (n fuel : nat) (st : Atanh.loop_state) (fl : Z) :
  (n < fuel)%nat ->
  Passes.atanh_retries P n rnd Ny x st fl = false ->
  (forall m, (m < n)%nat -> Passes.atanh_retries P m rnd Ny x st fl = true) ->
  Atanh.atanh_loop P fuel rnd Ny x st fl =
  (Some (fst (fst (Passes.atanh_passes P n x st fl))),
   snd (Passes.atanh_passes P n x st fl)).
Proof.
  revert fuel st fl. induction n as [|n IH]; intros fuel st fl Hlt Hn Hm;
    (destruct fuel as [|fuel]; [lia|]);
    cbn [Atanh.atanh_loop Passes.atanh_passes]; unfold bind.
  - unfold Passes.atanh_retries in Hn. cbn [Passes.atanh_passes] in Hn.
    destruct (Atanh.atanh_body P x st fl) as [[st' err] fl'].
    rewrite Hn. reflexivity.
  - pose proof (Hm 0%nat ltac:(lia)) as H0.
    unfold Passes.atanh_retries in H0, Hn. cbn [Passes.atanh_passes] in H0, Hn.
    unfold bind in Hn.
    destruct (Atanh.atanh_body P x st fl) as [[st' err] fl'] eqn:E.
    rewrite H0. apply IH; [lia | exact Hn |].
    intros m Hlm. specialize (Hm (S m) ltac:(lia)).
    unfold Passes.atanh_retries in *. cbn [Passes.atanh_passes] in Hm.
    unfold bind in Hm. rewrite E in Hm. exact Hm.
Qed.

(** The trace lists the passes of the loop: when the loop leaves, its last
    entry is the pass that was accepted. *)
Lemma atanh_trace_loop (fuel : nat) (st st' : Atanh.loop_state) (fl fl' : Z) :
  Atanh.atanh_loop P fuel rnd Ny x st fl = (Some st', fl') ->
  exists tr Nt err,
    fst (Passes.atanh_trace P fuel rnd Ny x st fl)
    = tr ++ [(Nt, Atanh.ls_t st', err)] /\
    Atanh.atanh_continue P rnd Ny (Atanh.ls_t st') err = false.
Proof.
  revert st fl. induction fuel as [|fuel IH]; intros st fl; [discriminate|].
  cbn [Atanh.atanh_loop Passes.atanh_trace]. unfold bind.
  destruct (Atanh.atanh_body P x st fl) as [[st1 err] fl1].
  destruct (Atanh.atanh_continue P rnd Ny (Atanh.ls_t st1) err) eqn:C.
  - intros H. destruct (IH st1 fl1 H) as (tr & Nt & e & Htr & Hc).
    destruct (Passes.atanh_trace P fuel rnd Ny x st1 fl1) as [tr1 fl2].
    cbn [fst] in *. subst tr1.
    exists ((Atanh.ls_Nt st, Atanh.ls_t st1, err) :: tr), Nt, e.
    split; [reflexivity | exact Hc].
  - intros H. inversion H; subst.
    exists [], (Atanh.ls_Nt st), err. split; [reflexivity | exact C].
Qed.


End AtanhLoop.

(** *** Claim C6 *)




Section GammaLoop.

Variables (P : Primitives) (gamma x : mpfr_t) (rnd : mpfr_rnd_t).
Variable compared : Z.

Lemma gamma_loop_retries (fuel : nat) (realprec fl : Z) :
  (forall n, (n < fuel)%nat ->
             Passes.gamma_retries P n gamma rnd compared x realprec fl = true) ->
  fst (Gamma.gamma_loop P fuel gamma x rnd compared realprec fl) = None.
Proof.
  revert realprec fl. induction fuel as [|fuel IH]; intros rp fl H;
    [reflexivity|].
  cbn [Gamma.gamma_loop]. unfold bind.
  pose proof (H 0%nat ltac:(lia)) as H0.
  unfold Passes.gamma_retries in H0. cbn [Passes.gamma_passes] in H0.
  unfold bind, ret in H0.
  destruct (Gamma.gamma_trial P compared x rp fl) as [G fl1] eqn:E.
  apply negb_true_iff in H0. rewrite H0. apply IH. intros n Hn.
  specialize (H (S n) ltac:(lia)).
  unfold Passes.gamma_retries in *. cbn [Passes.gamma_passes] in H.
  unfold bind in H. rewrite E in H. exact H.
Qed.

Lemma gamma_loop_exit (n fuel : nat) (realprec fl : Z) :
  (n < fuel)%nat ->
  Passes.gamma_retries P n gamma rnd compared x realprec fl = false ->
  (forall m, (m < n)%nat ->
             Passes.gamma_retries P m gamma rnd compared x realprec fl = true) ->
  Gamma.gamma_loop P fuel gamma x rnd compared realprec fl =
  let '((G, _), fl1) := Passes.gamma_passes P n compared x realprec fl in
  let '(_, gamma', fl2) := mpfr_set fl1 gamma G rnd in
  (Some gamma', fl2).
Proof.
  revert fuel realprec fl.
  induction n as [|n IH]; intros fuel rp fl Hlt Hn Hm;
    (destruct fuel as [|fuel]; [lia|]);
    cbn [Gamma.gamma_loop Passes.gamma_passes]; unfold bind, ret.
  - unfold Passes.gamma_retries in Hn. cbn [Passes.gamma_passes] in Hn.
    unfold bind, ret in Hn.
    destruct (Gamma.gamma_trial P compared x rp fl) as [G fl1].
    apply negb_false_iff in Hn. rewrite Hn. unfold mpfr_set_m.
    destruct (mpfr_set fl1 gamma G rnd) as [[i g] fl2]. reflexivity.
  - pose proof (Hm 0%nat ltac:(lia)) as H0.
    unfold Passes.gamma_retries in H0, Hn. cbn [Passes.gamma_passes] in H0, Hn.
    unfold bind, ret in H0, Hn.
    destruct (Gamma.gamma_trial P compared x rp fl) as [G fl1] eqn:E.
    apply negb_true_iff in H0. rewrite H0. apply IH; [lia | exact Hn |].
    intros m Hlm. specialize (Hm (S m) ltac:(lia)).
    unfold Passes.gamma_retries in *. cbn [Passes.gamma_passes] in Hm.
    unfold bind in Hm. rewrite E in Hm. exact Hm.
Qed.

(** Whatever the loop returns is a trial value rounded into the
    destination. *)
Lemma gamma_loop_result (fuel : nat) (realprec fl : Z) (g : mpfr_t) :
  fst (Gamma.gamma_loop P fuel gamma x rnd compared realprec fl) = Some g ->
  exists G fl1, g = snd (fst (mpfr_set fl1 gamma G rnd)).
Proof.
  revert realprec fl. induction fuel as [|fuel IH]; intros rp fl;
    [discriminate|].
  cbn [Gamma.gamma_loop]. unfold bind, ret.
  destruct (Gamma.gamma_trial P compared x rp fl) as [G fl1].
  destruct (mpfr_can_round P G rp GMP_RNDD rnd (MPFR_PREC gamma)).
  - unfold mpfr_set_m. intros H. exists G, fl1.
    destruct (mpfr_set fl1 gamma G rnd) as [[i g'] fl2].
    cbn in H. inversion H. reflexivity.
  - apply IH.
Qed.

End GammaLoop.

(** ** gamma: the value returned and the trivial cases *)

Section GammaCases.

Variables (P : Primitives) (fuel : nat) (gamma x : mpfr_t).
Variables (rnd : mpfr_rnd_t) (fl : Z).

Lemma gamma_nan :
  MPFR_IS_NAN x = true ->
  Gamma.mpfr_gamma P fuel gamma x rnd fl = (Some (1, MPFR_SET_NAN gamma), fl).
Proof. intros H. unfold Gamma.mpfr_gamma. rewrite H. reflexivity. Qed.

Lemma gamma_zero :
  MPFR_IS_ZERO x = true ->
  Gamma.mpfr_gamma P fuel gamma x rnd fl = (Some (1, MPFR_SET_INF gamma), fl).
Proof.
  intros H. unfold Gamma.mpfr_gamma.
  destruct (zero_is_singular x H) as (_ & -> & _).
  unfold MPFR_NOTZERO. unfold MPFR_IS_ZERO in H. rewrite H. reflexivity.
Qed.

Lemma gamma_inf :
  MPFR_IS_INF x = true ->
  Gamma.mpfr_gamma P fuel gamma x rnd fl = (Some (1, MPFR_SET_INF gamma), fl).
Proof.
  intros H. unfold Gamma.mpfr_gamma.
  destruct (inf_is_singular x H) as (_ & -> & Hz).
  unfold MPFR_NOTZERO. unfold MPFR_IS_ZERO in Hz. rewrite Hz, H. reflexivity.
Qed.

Lemma gamma_general :
  MPFR_IS_NAN x = false -> MPFR_IS_ZERO x = false -> MPFR_IS_INF x = false ->
  Gamma.mpfr_gamma P fuel gamma x rnd fl =
  if mpfr_cmp_ui_1 x =? 0
  then (let '(_, g, fl') := mpfr_set_ui fl gamma 1 rnd in (Some (1, g), fl'))
  else
    let '(r, fl') :=
      Gamma.gamma_loop P fuel gamma x rnd (mpfr_cmp_ui_1 x)
        (wrap_int (wrap_int (MPFR_PREC gamma) + 10)) fl in
    (match r with Some g => Some (1, g) | None => None end, fl').
Proof.
  intros Hn Hz Hi. unfold Gamma.mpfr_gamma, MPFR_NOTZERO.
  unfold MPFR_IS_ZERO in Hz. rewrite Hn, Hz, Hi. cbn [negb].
  destruct (mpfr_cmp_ui_1 x =? 0).
  - unfold bind, mpfr_set_ui_m, ret.
    destruct (mpfr_set_ui fl gamma 1 rnd) as [[i g] fl']. reflexivity.
  - unfold bind, ret.
    destruct (Gamma.gamma_loop P fuel gamma x rnd _ _ fl) as [[g|] fl'];
      reflexivity.
Qed.

(** Every [return] of [mpfr_gamma] is a [return 1]. *)
Lemma gamma_returns_1 (i : Z) (g : mpfr_t) :
  fst (Gamma.mpfr_gamma P fuel gamma x rnd fl) = Some (i, g) -> i = 1.
Proof.
  destruct (MPFR_IS_NAN x) eqn:Hn;
    [rewrite gamma_nan by exact Hn; cbn; congruence|].
  destruct (MPFR_IS_ZERO x) eqn:Hz;
    [rewrite gamma_zero by exact Hz; cbn; congruence|].
  destruct (MPFR_IS_INF x) eqn:Hi;
    [rewrite gamma_inf by exact Hi; cbn; congruence|].
  rewrite gamma_general by assumption.
  destruct (mpfr_cmp_ui_1 x =? 0).
  - destruct (mpfr_set_ui fl gamma 1 rnd) as [[j g'] fl']. cbn. congruence.
  - destruct (Gamma.gamma_loop P fuel gamma x rnd _ _ fl) as [[g'|] fl'];
      cbn; congruence.
Qed.

End GammaCases.

Lemma mpfr_set_ui_1_value (fl : Z) (f : mpfr_t) (rnd : mpfr_rnd_t) :
  1 <= _mpfr_prec f ->
  exists f', mpfr_set_ui fl f 1 rnd = (0, f', fl) /\
             mpfr_value f' = VFin false 1 0.
Proof.
  intros Hp. unfold mpfr_set_ui. cbn [Z.eqb].
  rewrite mpfr_set_z_exact by (cbn; lia).
  eexists. split; [reflexivity|].
  rewrite mpfr_value_regular_exp by (vm_compute; reflexivity).
  change (Z.log2 (Z.abs 1) + 1) with 1. change (Z.abs 1) with 1.
  change (Z.sgn 1 <? 0) with false.
  replace (1 - _mpfr_prec f) with (0 - (_mpfr_prec f - 1)) by lia.
  rewrite fin_value_shiftl by lia. reflexivity.
Qed.

Lemma value_one_cmp (x : mpfr_t) :
  regular x -> mpfr_value x = VFin false 1 0 -> mpfr_cmp_ui_1 x = 0.
Proof.
  intros Hr Hv. destruct (regular_not_singular x Hr) as (_ & Hn & Hi & Hz).
  assert (Hneg : MPFR_IS_NEG x = false).
  { unfold mpfr_value in Hv. rewrite Hn, Hi, Hz in Hv.
    destruct (_mpfr_d x); cbn [fin_value] in Hv; congruence. }
  unfold mpfr_cmp_ui_1, MPFR_IS_INF. rewrite Hneg, Hi, Hv. reflexivity.
Qed.

(** *** Claim C9 *)

(** C9: every path through [mpfr_gamma] that returns, returns 1; the
    trivial cases NaN, zero and infinity return 1 without entering the loop,
    the input 1 returns 1 although the destination then holds exactly 1,
    and in the general case the call returns 1 as soon as a pass is accepted
    by the rounding test. *)
Theorem gamma_indicator_always_one
  (P : Primitives) (fuel : nat) (gamma x : mpfr_t) (rnd : mpfr_rnd_t)
  (fl : Z) :
  (forall i g, fst (Gamma.mpfr_gamma P fuel gamma x rnd fl) = Some (i, g) ->
               i = 1)
  /\
  (MPFR_IS_NAN x = true \/ MPFR_IS_ZERO x = true \/ MPFR_IS_INF x = true ->
   exists g, Gamma.mpfr_gamma P fuel gamma x rnd fl = (Some (1, g), fl))
  /\
  (regular x -> mpfr_value x = VFin false 1 0 -> 1 <= _mpfr_prec gamma ->
   exists g, Gamma.mpfr_gamma P fuel gamma x rnd fl = (Some (1, g), fl) /\
             mpfr_value g = VFin false 1 0)
  /\
  (forall n : nat,
     (n < fuel)%nat -> regular x -> mpfr_cmp_ui_1 x <> 0 ->
     let realprec := wrap_int (wrap_int (MPFR_PREC gamma) + 10) in
     Passes.gamma_retries P n gamma rnd (mpfr_cmp_ui_1 x) x realprec fl
     = false ->
     (forall m, (m < n)%nat ->
        Passes.gamma_retries P m gamma rnd (mpfr_cmp_ui_1 x) x realprec fl
        = true) ->
     exists g fl', Gamma.mpfr_gamma P fuel gamma x rnd fl = (Some (1, g), fl')).
Proof.
  split; [|split; [|split]].
  - intros i g. apply gamma_returns_1.
  - intros [H | [H | H]]; eexists;
      [apply gamma_nan | apply gamma_zero | apply gamma_inf]; exact H.
  - intros Hr Hv Hp.
    destruct (regular_not_singular x Hr) as (_ & Hn & Hi & Hz).
    rewrite gamma_general by assumption.
    rewrite (value_one_cmp x Hr Hv). cbn [Z.eqb].
    destruct (mpfr_set_ui_1_value fl gamma rnd Hp) as (g & -> & Hg).
    exists g. split; [reflexivity | exact Hg].
  - intros n Hlt Hr Hc realprec Hn Hm.
    destruct (regular_not_singular x Hr) as (_ & Hnan & Hi & Hz).
    rewrite gamma_general by assumption.
    destruct (Z.eqb_spec (mpfr_cmp_ui_1 x) 0) as [E | _]; [contradiction|].
    fold realprec.
    rewrite (gamma_loop_exit P gamma x rnd (mpfr_cmp_ui_1 x) n fuel realprec fl
               Hlt Hn Hm).
    destruct (Passes.gamma_passes P n (mpfr_cmp_ui_1 x) x realprec fl)
      as [[G rp] fl1].
    destruct (mpfr_set fl1 gamma G rnd) as [[i g] fl2].
    exists g, fl2. reflexivity.
Qed.

Lemma gamma_indicator_always_one_witness :
  let x := Numbers.of_Z 53 1 in
  regular x /\ mpfr_value x = VFin false 1 0 /\
  exists g,
    Gamma.mpfr_gamma Demo.library 0 (Numbers.nan 53) x MPFR_RNDN 0
    = (Some (1, g), 0) /\
    mpfr_value g = VFin false 1 0.
Proof.
  cbv zeta.
  assert (Hr : regular (Numbers.of_Z 53 1)) by solve_regular.
  split; [exact Hr|]. split; [reflexivity|].
  refine (proj1 (proj2 (proj2 (gamma_indicator_always_one Demo.library 0
            (Numbers.nan 53) (Numbers.of_Z 53 1) MPFR_RNDN 0))) Hr eq_refl _).
  vm_compute. discriminate.
Defined.

(** *** Claim C4 *)

(** C4 at failing inputs.  [MPFR_SET_INF] leaves the sign of the
    destination as it was, and nothing sets it afterwards: called in place
    on [-Inf], or on [+Inf] with a destination that held [-1], [mpfr_gamma]
    leaves [-Inf].  A negative integer is not looked for either: [-2] goes
    into the loop (with no pass allowed nothing is returned), and whatever
    the loop returns is a trial value rounded into the destination.  The
    other trivial cases are as stated: NaN gives NaN, a zero gives an
    infinity, 1 gives exactly 1. *)
Theorem gamma_trivial_cases_as_coded
  (P : Primitives) (fuel : nat) (rnd : mpfr_rnd_t) (fl : Z) :
  let minf := Numbers.inf 53 (-1) in
  let m2 := Numbers.of_Z 53 (-2) in
  (Gamma.mpfr_gamma P fuel minf minf rnd fl = (Some (1, minf), fl) /\
   mpfr_value minf = VInf true)
  /\
  result_value (Gamma.mpfr_gamma P fuel (Numbers.of_Z 53 (-1))
                  (Numbers.inf 53 1) rnd fl) = Some (1, VInf true)
  /\
  (regular m2 /\ mpfr_value m2 = VFin true 1 1 /\
   Gamma.mpfr_gamma P 0 (Numbers.nan 53) m2 rnd fl = (None, fl) /\
   forall i g,
     fst (Gamma.mpfr_gamma P fuel (Numbers.nan 53) m2 rnd fl) = Some (i, g) ->
     exists G fl1, g = snd (fst (mpfr_set fl1 (Numbers.nan 53) G rnd)))
  /\
  result_value (Gamma.mpfr_gamma P fuel (Numbers.nan 53) (Numbers.nan 53) rnd fl)
  = Some (1, VNaN)
  /\
  result_value (Gamma.mpfr_gamma P fuel (Numbers.nan 53) (Numbers.zero 53 1)
                  rnd fl) = Some (1, VInf false)
  /\
  result_value (Gamma.mpfr_gamma P fuel (Numbers.nan 53) (Numbers.of_Z 53 1)
                  rnd fl) = Some (1, VFin false 1 0).
Proof.
  cbv zeta.
  split; [split; reflexivity|].
  split; [reflexivity|].
  split; [|split; [reflexivity|]; split; [reflexivity|]].
  - split; [solve_regular|]. split; [reflexivity|]. split; [reflexivity|].
    intros i g.
    rewrite gamma_general by reflexivity.
    change (mpfr_cmp_ui_1 (Numbers.of_Z 53 (-2))) with (-1). cbn [Z.eqb].
    destruct (Gamma.gamma_loop P fuel _ _ rnd (-1) _ fl) as [[g'|] fl'] eqn:E;
      [|discriminate].
    cbn [fst]. intros H. inversion H; subst.
    apply (gamma_loop_result P (Numbers.nan 53) (Numbers.of_Z 53 (-2)) rnd (-1)
             fuel (wrap_int (wrap_int (MPFR_PREC (Numbers.nan 53)) + 10)) fl).
    rewrite E. reflexivity.
  - destruct (mpfr_set_ui_1_value fl (Numbers.nan 53) rnd ltac:(cbn; lia))
      as (g & E & V).
    unfold result_value. rewrite gamma_general by reflexivity.
    change (mpfr_cmp_ui_1 (Numbers.of_Z 53 1)) with 0. cbn [Z.eqb].
    rewrite E. cbn [fst]. rewrite V. reflexivity.
Qed.

(** *** Claim C5 *)

(** The first index below [k] at which a test fails, if there is one. *)
Lemma first_false (f : nat -> bool) (k : nat) :
  (forall n, (n < k)%nat -> f n = true) \/
  (exists n, (n < k)%nat /\ f n = false /\
             forall m, (m < n)%nat -> f m = true).
Proof.
  induction k as [|k [IH | (n & Hn & Hf & Hm)]].
  - left. intros n Hn. lia.
  - destruct (f k) eqn:E.
    + left. intros n Hn.
      destruct (Nat.eq_dec n k) as [-> | Hne]; [exact E | apply IH; lia].
    + right. exists k. split; [lia|]. split; [exact E|].
      intros m Hm. apply IH. exact Hm.
  - right. exists n. split; [lia|]. split; assumption.
Qed.

Section Acceptance.

Variables (P : Primitives) (rnd : mpfr_rnd_t).

(** The loop of [mpfr_atanh] goes round again exactly when the pass is not
    accepted. *)
Lemma atanh_continue_accepted (Ny : Z) (t : mpfr_t) (err : Z) :
  Atanh.atanh_continue P rnd Ny t err = false <->
  atanh_accepted P rnd Ny t err.
Proof.
  unfold Atanh.atanh_continue, atanh_accepted.
  rewrite !orb_false_iff, negb_false_iff, Z.ltb_ge. tauto.
Qed.

Lemma atanh_retries_accepted (n : nat) (Ny : Z) (x : mpfr_t)
  (st : Atanh.loop_state) (fl : Z) :
  Passes.atanh_retries P n rnd Ny x st fl = false <->
  atanh_accepted P rnd Ny
    (Atanh.ls_t (fst (fst (Passes.atanh_passes P n x st fl))))
    (snd (fst (Passes.atanh_passes P n x st fl))).
Proof.
  unfold Passes.atanh_retries.
  destruct (Passes.atanh_passes P n x st fl) as [[s e] f]. cbn [fst snd].
  apply atanh_continue_accepted.
Qed.

Lemma atanh_retries_refused (n : nat) (Ny : Z) (x : mpfr_t)
  (st : Atanh.loop_state) (fl : Z) :
  Passes.atanh_retries P n rnd Ny x st fl = true <->
  ~ atanh_accepted P rnd Ny
      (Atanh.ls_t (fst (fst (Passes.atanh_passes P n x st fl))))
      (snd (fst (Passes.atanh_passes P n x st fl))).
Proof.
  rewrite <- atanh_retries_accepted.
  destruct (Passes.atanh_retries P n rnd Ny x st fl); split;
    congruence.
Qed.

Lemma gamma_retries_accepted (n : nat) (gamma : mpfr_t) (compared : Z)
  (x : mpfr_t) (realprec fl : Z) :
  Passes.gamma_retries P n gamma rnd compared x realprec fl = false <->
  gamma_accepted P gamma rnd
    (fst (fst (Passes.gamma_passes P n compared x realprec fl)))
    (snd (fst (Passes.gamma_passes P n compared x realprec fl))).
Proof.
  unfold Passes.gamma_retries, gamma_accepted.
  destruct (Passes.gamma_passes P n compared x realprec fl) as [[G rp] f].
  cbn [fst snd]. apply negb_false_iff.
Qed.

Lemma gamma_retries_refused (n : nat) (gamma : mpfr_t) (compared : Z)
  (x : mpfr_t) (realprec fl : Z) :
  Passes.gamma_retries P n gamma rnd compared x realprec fl = true <->
  ~ gamma_accepted P gamma rnd
      (fst (fst (Passes.gamma_passes P n compared x realprec fl)))
      (snd (fst (Passes.gamma_passes P n compared x realprec fl))).
Proof.
  rewrite <- gamma_retries_accepted.
  destruct (Passes.gamma_retries P n gamma rnd compared x realprec fl); split;
    congruence.
Qed.

(** Pass [n + 1] is the body of the loop run from what pass [n] left. *)
Lemma atanh_passes_succ (n : nat) (x : mpfr_t) (st : Atanh.loop_state)
  (fl : Z) :
  Passes.atanh_passes P (S n) x st fl =
  let '((s, _), fl1) := Passes.atanh_passes P n x st fl in
  Atanh.atanh_body P x s fl1.
Proof.
  revert st fl. induction n as [|n IH]; intros st fl.
  - cbn [Passes.atanh_passes]. unfold bind.
    destruct (Atanh.atanh_body P x st fl) as [[s e] fl1]. reflexivity.
  - change (Passes.atanh_passes P (S (S n)) x st fl)
      with (bind (Atanh.atanh_body P x st)
              (fun r => let '(st', _) := r in
                        Passes.atanh_passes P (S n) x st') fl).
    change (Passes.atanh_passes P (S n) x st fl)
      with (bind (Atanh.atanh_body P x st)
              (fun r => let '(st', _) := r in
                        Passes.atanh_passes P n x st') fl).
    unfold bind.
    destruct (Atanh.atanh_body P x st fl) as [[s e] fl1].
    apply IH.
Qed.

(** The working precision a pass leaves for the next one. *)
Lemma atanh_passes_Nt (n : nat) (x : mpfr_t) (st : Atanh.loop_state)
  (fl : Z) :
  Atanh.ls_Nt (fst (fst (Passes.atanh_passes P n x st fl))) =
  wrap_ulong
    (match n with
     | O => Atanh.ls_Nt st
     | S m => Atanh.ls_Nt (fst (fst (Passes.atanh_passes P m x st fl)))
     end + 10).
Proof.
  destruct n as [|n].
  - cbn [Passes.atanh_passes].
    destruct (Atanh.atanh_body P x st fl) as [[s e] fl1] eqn:E.
    cbn [fst]. apply (atanh_body_spec P x st s e fl fl1 E).
  - rewrite atanh_passes_succ.
    destruct (Passes.atanh_passes P n x st fl) as [[s e] fl1]. cbn [fst].
    destruct (Atanh.atanh_body P x s fl1) as [[s' e'] fl2] eqn:E.
    cbn [fst]. apply (atanh_body_spec P x s s' e' fl1 fl2 E).
Qed.

(** The [realprec] of pass [n + 1] is that of pass [n] after the [+=]. *)
Lemma gamma_passes_realprec (n : nat) (compared : Z) (x : mpfr_t)
  (realprec fl : Z) :
  snd (fst (Passes.gamma_passes P n compared x realprec fl)) =
  Nat.iter n Gamma.next_realprec realprec.
Proof.
  revert realprec fl. induction n as [|n IH]; intros rp fl.
  - cbn [Passes.gamma_passes]. unfold bind, ret.
    destruct (Gamma.gamma_trial P compared x rp fl) as [G fl1]. reflexivity.
  - cbn [Passes.gamma_passes]. unfold bind.
    destruct (Gamma.gamma_trial P compared x rp fl) as [G fl1].
    rewrite IH. symmetry. apply Nat.iter_succ_r.
Qed.

End Acceptance.

Lemma next_realprec_higher (realprec : Z) :
  2 <= realprec < 2 ^ 30 ->
  realprec < Gamma.next_realprec realprec.
Proof.
  intros [Hlo Hhi].
  assert (H1 : 0 < Z.log2_up realprec) by (apply Z.log2_up_pos; lia).
  assert (H2 : Z.log2_up realprec <= 30).
  { replace 30 with (Z.log2_up (2 ^ 30)) by (apply Z.log2_up_pow2; lia).
    apply Z.log2_up_le_mono. lia. }
  unfold Gamma.next_realprec, _mpfr_ceil_log2, wrap_int, INT_BIT.
  change (2 ^ 30) with 1073741824 in Hhi.
  change (2 ^ (32 - 1)) with 2147483648. change (2 ^ 32) with 4294967296.
  rewrite Z.mod_small; lia.
Qed.

(** C5, amended: neither escalation loop has an iteration or precision
    cap, or an assertion.  The loop of [mpfr_atanh] leaves at the first pass
    for which [err >= 0], the rounding test accepts and [t] is not zero, and
    the loop of [mpfr_gamma] at the first pass the rounding test accepts;
    each leaves there and nowhere else, with the variables of that pass.
    As long as no pass is accepted they go round again: if none of the
    first [fuel] passes is accepted, the loop is still running after [fuel]
    passes.  Each new pass is made at a higher precision: in [mpfr_atanh]
    it is the loop body run from what the pass before left, with [Nt] ten
    more (as long as that fits the precision type); in [mpfr_gamma] its
    [realprec] is that of the pass before plus [ceil (log2 (realprec))],
    which is more from 2 bits up to [2^30]. *)
Theorem escalation_loops_exit_on_acceptance_only
  (P : Primitives) (fuel : nat) (rnd : mpfr_rnd_t)
  (Ny : Z) (x : mpfr_t) (st : Atanh.loop_state)
  (gamma xg : mpfr_t) (compared realprec : Z) (fl : Z) :
  let apass := fun n => Passes.atanh_passes P n x st fl in
  let aacc := fun n =>
    atanh_accepted P rnd Ny (Atanh.ls_t (fst (fst (apass n))))
      (snd (fst (apass n))) in
  let aNt := fun n =>
    match n with
    | O => Atanh.ls_Nt st
    | S m => Atanh.ls_Nt (fst (fst (apass m)))
    end in
  let gpass := fun n => Passes.gamma_passes P n compared xg realprec fl in
  let gacc := fun n =>
    gamma_accepted P gamma rnd (fst (fst (gpass n))) (snd (fst (gpass n))) in
  let grp := fun n => snd (fst (gpass n)) in
  (* mpfr_atanh: the loop leaves at the first accepted pass *)
  (forall n, (n < fuel)%nat -> aacc n ->
     (forall m, (m < n)%nat -> ~ aacc m) ->
     Atanh.atanh_loop P fuel rnd Ny x st fl =
     (Some (fst (fst (apass n))), snd (apass n)))
  /\
  (* and nowhere else *)
  (forall s fl',
     Atanh.atanh_loop P fuel rnd Ny x st fl = (Some s, fl') ->
     exists n, (n < fuel)%nat /\ aacc n /\
               (forall m, (m < n)%nat -> ~ aacc m) /\
               s = fst (fst (apass n)) /\ fl' = snd (apass n))
  /\
  (* with no pass accepted it is still running *)
  ((forall n, (n < fuel)%nat -> ~ aacc n) ->
   fst (Atanh.atanh_loop P fuel rnd Ny x st fl) = None)
  /\
  (* each pass is the body run from what the pass before left, at ten
     bits more *)
  (forall n,
     apass (S n) = (let '((s, _), fl1) := apass n in
                    Atanh.atanh_body P x s fl1) /\
     aNt (S n) = wrap_ulong (aNt n + 10) /\
     (0 <= aNt n -> aNt n + 10 < 2 ^ LONG_BIT -> aNt (S n) = aNt n + 10))
  /\
  (* mpfr_gamma: the loop leaves at the first accepted pass *)
  (forall n, (n < fuel)%nat -> gacc n ->
     (forall m, (m < n)%nat -> ~ gacc m) ->
     Gamma.gamma_loop P fuel gamma xg rnd compared realprec fl =
     let '((G, _), fl1) := gpass n in
     let '(_, gamma', fl2) := mpfr_set fl1 gamma G rnd in
     (Some gamma', fl2))
  /\
  (* and nowhere else *)
  (forall g fl',
     Gamma.gamma_loop P fuel gamma xg rnd compared realprec fl
     = (Some g, fl') ->
     exists n, (n < fuel)%nat /\ gacc n /\
               (forall m, (m < n)%nat -> ~ gacc m) /\
               (Some g, fl') =
               (let '((G, _), fl1) := gpass n in
                let '(_, gamma', fl2) := mpfr_set fl1 gamma G rnd in
                (Some gamma', fl2)))
  /\
  (* with no pass accepted it is still running *)
  ((forall n, (n < fuel)%nat -> ~ gacc n) ->
   fst (Gamma.gamma_loop P fuel gamma xg rnd compared realprec fl) = None)
  /\
  (* each pass is made at the realprec of the pass before, raised *)
  (grp 0%nat = realprec /\
   forall n,
     grp (S n) = Gamma.next_realprec (grp n) /\
     (2 <= grp n < 2 ^ 30 -> grp n < grp (S n))).
Proof.
  cbv zeta.
  split; [|split; [|split; [|split; [|split; [|split; [|split]]]]]].
  - intros n Hlt Hacc Hfirst. apply atanh_loop_exit; [exact Hlt | |].
    + apply atanh_retries_accepted. exact Hacc.
    + intros m Hm. apply atanh_retries_refused. apply Hfirst. exact Hm.
  - intros s fl' Hloop.
    destruct (first_false
                (fun n => Passes.atanh_retries P n rnd Ny x st fl) fuel)
      as [Hall | (n & Hlt & Hn & Hm)].
    + pose proof (atanh_loop_retries P rnd Ny x fuel st fl Hall) as Hnone.
      rewrite Hloop in Hnone. discriminate Hnone.
    + pose proof (atanh_loop_exit P rnd Ny x n fuel st fl Hlt Hn Hm) as Hex.
      rewrite Hloop in Hex. inversion Hex; subst.
      exists n. split; [exact Hlt|].
      split; [apply atanh_retries_accepted; exact Hn|].
      split; [|split; reflexivity].
      intros m Hlm. apply atanh_retries_refused. apply Hm. exact Hlm.
  - intros Hnone. apply atanh_loop_retries. intros n Hn.
    apply atanh_retries_refused. apply Hnone. exact Hn.
  - intros n. split; [apply atanh_passes_succ|].
    pose proof (atanh_passes_Nt P n x st fl) as HNt.
    split; [exact HNt|].
    intros H0 Hlt. rewrite HNt. unfold wrap_ulong. apply Z.mod_small. lia.
  - intros n Hlt Hacc Hfirst. apply gamma_loop_exit; [exact Hlt | |].
    + apply gamma_retries_accepted. exact Hacc.
    + intros m Hm. apply gamma_retries_refused. apply Hfirst. exact Hm.
  - intros g fl' Hloop.
    destruct (first_false
                (fun n => Passes.gamma_retries P n gamma rnd compared xg
                            realprec fl) fuel)
      as [Hall | (n & Hlt & Hn & Hm)].
    + pose proof (gamma_loop_retries P gamma xg rnd compared fuel realprec fl
                    Hall) as Hnone.
      rewrite Hloop in Hnone. discriminate Hnone.
    + pose proof (gamma_loop_exit P gamma xg rnd compared n fuel realprec fl
                    Hlt Hn Hm) as Hex.
      exists n. split; [exact Hlt|].
      split; [apply gamma_retries_accepted; exact Hn|].
      split; [|rewrite <- Hex; symmetry; exact Hloop].
      intros m Hlm. apply gamma_retries_refused. apply Hm. exact Hlm.
  - intros Hnone. apply gamma_loop_retries. intros n Hn.
    apply gamma_retries_refused. apply Hnone. exact Hn.
  - split; [apply (gamma_passes_realprec P 0)|].
    intros n.
    rewrite !gamma_passes_realprec. cbn [Nat.iter nat_rect].
    split; [reflexivity | apply next_realprec_higher].
Qed.

Lemma escalation_loops_exit_on_acceptance_only_witness :
  let x := Numbers.of_Z_2exp 2 1 (-1) in
  let st0 := Atanh.mk_loop_state (Atanh.atanh_Nt0 2 2)
               mpfr_init mpfr_init mpfr_init in
  Passes.atanh_retries Demo.library 0 MPFR_RNDN 2 x st0 0 = true /\
  Passes.atanh_retries Demo.library 1 MPFR_RNDN 2 x st0 0 = false /\
  Atanh.atanh_loop Demo.library 5 MPFR_RNDN 2 x st0 0 =
  (Some (fst (fst (Passes.atanh_passes Demo.library 1 x st0 0))),
   snd (Passes.atanh_passes Demo.library 1 x st0 0)).
Proof.
  cbv zeta.
  split; [vm_compute; reflexivity|]. split; [vm_compute; reflexivity|].
  refine (proj1 (escalation_loops_exit_on_acceptance_only Demo.library 5
            MPFR_RNDN 2 (Numbers.of_Z_2exp 2 1 (-1))
            (Atanh.mk_loop_state (Atanh.atanh_Nt0 2 2)
               mpfr_init mpfr_init mpfr_init)
            (Numbers.nan 2) (Numbers.nan 2) 0 0 0) 1%nat _ _ _).
  - lia.
  - apply atanh_retries_accepted. vm_compute. reflexivity.
  - intros m Hm. destruct m as [|m]; [|lia].
    apply atanh_retries_refused. vm_compute. reflexivity.
Defined.

Lemma refusing_atanh_never_leaves (fuel : nat) (y xt : mpfr_t)
  (rnd : mpfr_rnd_t) (fl : Z) :
  regular xt ->
  fst (Atanh.mpfr_atanh Demo.refusing fuel y xt rnd fl) = None.
Proof.
  intros Hr. rewrite atanh_general_regular by exact Hr. cbv zeta.
  match goal with
  | |- context [Atanh.atanh_loop ?P ?f ?r ?Ny ?x ?st ?fl0] =>
      pose proof (atanh_loop_retries P r Ny x f st fl0) as H
  end.
  destruct (Atanh.atanh_loop _ _ _ _ _ _ _) as [[st|] fl1].
  - cbn [fst] in H. discriminate H.
    intros n _. unfold Passes.atanh_retries.
    destruct (Passes.atanh_passes _ _ _ _ _) as [[st' err] fl'].
    unfold Atanh.atanh_continue. cbn [mpfr_can_round Demo.refusing Demo.prims].
    cbn [negb orb]. apply orb_true_r.
  - reflexivity.
Qed.

Lemma refusing_gamma_never_leaves (fuel : nat) (gamma x : mpfr_t)
  (rnd : mpfr_rnd_t) (fl : Z) :
  regular x -> mpfr_cmp_ui_1 x <> 0 ->
  fst (Gamma.mpfr_gamma Demo.refusing fuel gamma x rnd fl) = None.
Proof.
  intros Hr Hc. destruct (regular_not_singular x Hr) as (_ & Hn & Hi & Hz).
  rewrite gamma_general by assumption.
  destruct (Z.eqb_spec (mpfr_cmp_ui_1 x) 0) as [E | _]; [contradiction|].
  match goal with
  | |- context [Gamma.gamma_loop ?P ?f ?g ?x0 ?r ?c ?rp ?fl0] =>
      pose proof (gamma_loop_retries P g x0 r c f rp fl0) as H
  end.
  destruct (Gamma.gamma_loop _ _ _ _ _ _ _ _) as [[g|] fl1].
  - cbn [fst] in H. discriminate H.
    intros n _. unfold Passes.gamma_retries.
    destruct (Passes.gamma_passes _ _ _ _ _ _) as [[G rp] fl'].
    reflexivity.
  - reflexivity.
Qed.

(** C5 as stated fails: no number of passes is enough for every
    environment and input.  With a rounding test that never accepts, the
    loops of [atanh (1/2)] and [gamma (2)] are still running after any
    number of passes, and nothing is reported.  With the rounding test of
    the library, [atanh (1)] computes an infinite trial value at every
    precision (50 passes shown), and [atanh (2^-1000)] into 10 bits computes
    a zero trial value as long as the working precision is below 1000 bits
    (90 passes shown). *)
Lemma escalation_loops_have_no_cap :
  (forall fuel,
     fst (Atanh.mpfr_atanh Demo.refusing fuel (Numbers.nan 53)
            (Numbers.of_Z_2exp 53 1 (-1)) MPFR_RNDN 0) = None)
  /\
  (forall fuel,
     fst (Gamma.mpfr_gamma Demo.refusing fuel (Numbers.nan 53)
            (Numbers.of_Z 53 2) MPFR_RNDN 0) = None)
  /\
  fst (Atanh.mpfr_atanh Demo.library 50 (Numbers.nan 10)
         (Numbers.of_Z 2 1) MPFR_RNDN 0) = None
  /\
  fst (Atanh.mpfr_atanh Demo.library 90 (Numbers.nan 10)
         (Numbers.of_Z_2exp 2 1 (-1000)) MPFR_RNDN 0) = None
  /\
  ~ (exists cap : nat,
       forall (P : Primitives) (y x : mpfr_t) (rnd : mpfr_rnd_t) (fl : Z),
       exists fuel, (fuel <= cap)%nat /\
                    fst (Atanh.mpfr_atanh P fuel y x rnd fl) <> None)
  /\
  ~ (exists cap : nat,
       forall (P : Primitives) (g x : mpfr_t) (rnd : mpfr_rnd_t) (fl : Z),
       exists fuel, (fuel <= cap)%nat /\
                    fst (Gamma.mpfr_gamma P fuel g x rnd fl) <> None).
Proof.
  assert (Hh : regular (Numbers.of_Z_2exp 53 1 (-1))) by solve_regular.
  assert (H2 : regular (Numbers.of_Z 53 2)) by solve_regular.
  assert (Hc : mpfr_cmp_ui_1 (Numbers.of_Z 53 2) <> 0)
    by (vm_compute; discriminate).
  split; [intros fuel; apply refusing_atanh_never_leaves; exact Hh|].
  split; [intros fuel; apply refusing_gamma_never_leaves; assumption|].
  split; [vm_compute; reflexivity|].
  split; [vm_compute; reflexivity|].
  split.
  - intros (cap & H).
    destruct (H Demo.refusing (Numbers.nan 53) (Numbers.of_Z_2exp 53 1 (-1))
                MPFR_RNDN 0) as (fuel & _ & Hne).
    apply Hne. apply refusing_atanh_never_leaves. exact Hh.
  - intros (cap & H).
    destruct (H Demo.refusing (Numbers.nan 53) (Numbers.of_Z 53 2)
                MPFR_RNDN 0) as (fuel & _ & Hne).
    apply Hne. apply refusing_gamma_never_leaves; assumption.
Qed.

(** ** strcasecmp.c: comparison ignoring case *)

Section StrcasecmpFacts.
Import Strcasecmp.

Lemma tolower_zero (c : Z) : tolower c = 0 <-> c = 0.
Proof.
  unfold tolower.
  destruct (Z.leb_spec 65 c), (Z.leb_spec c 90); cbn [andb]; lia.
Qed.

Lemma tolower_idempotent (c : Z) : tolower (tolower c) = tolower c.
Proof.
  unfold tolower.
  destruct (Z.leb_spec 65 c), (Z.leb_spec c 90); cbn [andb];
    destruct (Z.leb_spec 65 (c + 32)), (Z.leb_spec (c + 32) 90);
    destruct (Z.leb_spec 65 c), (Z.leb_spec c 90); cbn [andb]; lia.
Qed.

Lemma tolower_byte (c : Z) : is_byte c -> is_byte (tolower c).
Proof.
  unfold tolower, is_byte.
  destruct (Z.leb_spec 65 c), (Z.leb_spec c 90); cbn [andb]; lia.
Qed.

Lemma tolower_pos (c : Z) : 0 <= c -> c <> 0 -> 0 < tolower c.
Proof.
  unfold tolower.
  destruct (Z.leb_spec 65 c), (Z.leb_spec c 90); cbn [andb]; lia.
Qed.

Lemma compare_loop_refl (s : list Z) : compare_loop s s = 0.
Proof.
  induction s as [|c s IH]; cbn [compare_loop deref tl]; [lia|].
  destruct (tolower c =? 0); [lia|]. rewrite Z.eqb_refl. exact IH.
Qed.

Lemma compare_loop_nil_r (b : list Z) :
  compare_loop b [] = tolower (deref b).
Proof.
  destruct b as [|y b]; cbn [compare_loop deref tl].
  - reflexivity.
  - change (tolower 0) with 0.
    destruct (Z.eqb_spec (tolower y) 0) as [E | N]; lia.
Qed.

End StrcasecmpFacts.

(** X13: Swapping the two strings changes the sign of the result. *)
Theorem strcasecmp_antisymmetric (a b : list Z) :
  Strcasecmp.compare_loop b a = - Strcasecmp.compare_loop a b.
Proof.
  revert b. induction a as [|x a IH]; intros b.
  - rewrite compare_loop_nil_r. cbn [Strcasecmp.compare_loop Strcasecmp.deref].
    change (Strcasecmp.tolower 0) with 0. lia.
  - destruct b as [|y b].
    + rewrite compare_loop_nil_r.
      cbn [Strcasecmp.compare_loop Strcasecmp.deref].
      change (Strcasecmp.tolower 0) with 0.
      destruct (Z.eqb_spec (Strcasecmp.tolower x) 0) as [E | N]; lia.
    + cbn [Strcasecmp.compare_loop Strcasecmp.deref tl].
      destruct (Z.eqb_spec (Strcasecmp.tolower x) 0) as [Ex | Nx];
        destruct (Z.eqb_spec (Strcasecmp.tolower y) 0) as [Ey | Ny];
        try lia;
        destruct (Z.eqb_spec (Strcasecmp.tolower x) (Strcasecmp.tolower y))
          as [E | N];
        destruct (Z.eqb_spec (Strcasecmp.tolower y) (Strcasecmp.tolower x));
        try lia.
      apply IH.
Qed.

(** X16: The early return on equal pointers agrees with the loop: two pointers
    that are equal point to the same string, and a string compares equal
    to itself. *)
Theorem strcasecmp_same_pointer (s1 s2 : Z * list Z) :
  (fst s1 = fst s2 -> snd s1 = snd s2) ->
  Strcasecmp.mpfr_strcasecmp s1 s2 =
  Strcasecmp.compare_loop (snd s1) (snd s2).
Proof.
  intros H. unfold Strcasecmp.mpfr_strcasecmp.
  destruct (Z.eqb_spec (fst s1) (fst s2)) as [E | N]; [|reflexivity].
  rewrite (H E). symmetry. apply compare_loop_refl.
Qed.

Lemma strcasecmp_same_pointer_witness :
  Strcasecmp.mpfr_strcasecmp (4096, [73; 110; 102]) (4096, [73; 110; 102]) =
  Strcasecmp.compare_loop [73; 110; 102] [73; 110; 102].
Proof.
  apply (strcasecmp_same_pointer (4096, [73; 110; 102]) (4096, [73; 110; 102])).
  intros _. reflexivity.
Defined.

Lemma compare_loop_lex (a b : list Z) :
  Forall (fun c => 0 <= c) a -> Forall (fun c => 0 <= c) b ->
  (Strcasecmp.compare_loop a b ?= 0) =
  Strcasecmp.lex_compare (map Strcasecmp.tolower (Strcasecmp.cstr a))
                         (map Strcasecmp.tolower (Strcasecmp.cstr b)).
Proof.
  intros Ha. revert b. induction Ha as [|x a Hx Ha IH]; intros b Hb.
  - cbn [Strcasecmp.compare_loop Strcasecmp.deref Strcasecmp.cstr map].
    change (Strcasecmp.tolower 0) with 0.
    destruct Hb as [|y b Hy Hb];
      cbn [Strcasecmp.deref Strcasecmp.cstr map Strcasecmp.lex_compare];
      [reflexivity|].
    destruct (Z.eqb_spec y 0) as [-> | Ny];
      cbn [map Strcasecmp.lex_compare]; [reflexivity|].
    pose proof (tolower_pos y Hy Ny). apply Z.compare_lt_iff. lia.
  - cbn [Strcasecmp.compare_loop Strcasecmp.deref Strcasecmp.cstr tl].
    destruct (Z.eqb_spec x 0) as [-> | Nx].
    + change (Strcasecmp.tolower 0) with 0. cbn [Z.eqb map].
      destruct Hb as [|y b Hy Hb];
        cbn [Strcasecmp.deref Strcasecmp.cstr map Strcasecmp.lex_compare];
        [reflexivity|].
      destruct (Z.eqb_spec y 0) as [-> | Ny];
        cbn [map Strcasecmp.lex_compare]; [reflexivity|].
      pose proof (tolower_pos y Hy Ny). apply Z.compare_lt_iff. lia.
    + pose proof (tolower_pos x Hx Nx) as Px.
      destruct (Z.eqb_spec (Strcasecmp.tolower x) 0) as [E | _]; [lia|].
      cbn [map].
      destruct Hb as [|y b Hy Hb];
        cbn [Strcasecmp.deref Strcasecmp.cstr map Strcasecmp.lex_compare tl].
      * change (Strcasecmp.tolower 0) with 0.
        destruct (Z.eqb_spec (Strcasecmp.tolower x) 0); [lia|].
        apply Z.compare_gt_iff. lia.
      * destruct (Z.eqb_spec y 0) as [-> | Ny].
        -- change (Strcasecmp.tolower 0) with 0.
           destruct (Z.eqb_spec (Strcasecmp.tolower x) 0); [lia|].
           cbn [map Strcasecmp.lex_compare]. apply Z.compare_gt_iff. lia.
        -- cbn [map Strcasecmp.lex_compare].
           destruct (Z.eqb_spec (Strcasecmp.tolower x) (Strcasecmp.tolower y))
             as [E | N].
           ++ rewrite E, Z.compare_refl. apply IH. exact Hb.
           ++ rewrite <- Z.compare_sub.
              destruct (Strcasecmp.tolower x ?= Strcasecmp.tolower y) eqn:C;
                try reflexivity.
              apply Z.compare_eq_iff in C. contradiction.
Qed.

(** X11: The sign of the result is the lexicographic order of the two strings,
    each cut at its first NUL and put in lower case. *)
Theorem strcasecmp_order (a b : list Z) :
  Forall (fun c => 0 <= c) a -> Forall (fun c => 0 <= c) b ->
  (Strcasecmp.compare_loop a b ?= 0) =
  Strcasecmp.lex_compare (map Strcasecmp.tolower (Strcasecmp.cstr a))
                         (map Strcasecmp.tolower (Strcasecmp.cstr b)).
Proof. apply compare_loop_lex. Qed.

Lemma strcasecmp_order_witness :
  (Strcasecmp.compare_loop [78; 97; 78] [110; 65; 110; 0; 33] ?= 0) = Eq /\
  (Strcasecmp.compare_loop [73; 110; 102] [105; 78; 70; 105] ?= 0) = Lt.
Proof.
  split.
  - rewrite (strcasecmp_order [78; 97; 78] [110; 65; 110; 0; 33]).
    + reflexivity.
    + repeat constructor; lia.
    + repeat constructor; lia.
  - rewrite (strcasecmp_order [73; 110; 102] [105; 78; 70; 105]).
    + reflexivity.
    + repeat constructor; lia.
    + repeat constructor; lia.
Defined.

Lemma lex_compare_eq (a b : list Z) :
  Strcasecmp.lex_compare a b = Eq <-> a = b.
Proof.
  revert b. induction a as [|x a IH]; intros [|y b];
    cbn [Strcasecmp.lex_compare]; try (split; [discriminate | congruence]).
  - split; reflexivity.
  - destruct (Z.compare_spec x y) as [E | L | G].
    + subst y. rewrite IH. split; congruence.
    + split; [discriminate | intros H; inversion H; lia].
    + split; [discriminate | intros H; inversion H; lia].
Qed.

(** X12: The result is 0 exactly when the two strings, each cut at its first
    NUL, are equal up to the case of their letters. *)
Theorem strcasecmp_zero_iff (a b : list Z) :
  Forall (fun c => 0 <= c) a -> Forall (fun c => 0 <= c) b ->
  (Strcasecmp.compare_loop a b = 0 <->
   map Strcasecmp.tolower (Strcasecmp.cstr a) =
   map Strcasecmp.tolower (Strcasecmp.cstr b)).
Proof.
  intros Ha Hb. rewrite <- lex_compare_eq, <- (compare_loop_lex a b Ha Hb).
  symmetry. apply Z.compare_eq_iff.
Qed.

Lemma strcasecmp_zero_iff_witness :
  Strcasecmp.compare_loop [64; 73; 110; 102; 64] [64; 105; 78; 70; 64] = 0.
Proof.
  apply (proj2 (strcasecmp_zero_iff [64; 73; 110; 102; 64]
                  [64; 105; 78; 70; 64]
                  ltac:(repeat constructor; lia)
                  ltac:(repeat constructor; lia))).
  reflexivity.
Defined.

(** X15: On strings of bytes the result is a difference of two bytes. *)
Theorem strcasecmp_range (a b : list Z) :
  Forall Strcasecmp.is_byte a -> Forall Strcasecmp.is_byte b ->
  -255 <= Strcasecmp.compare_loop a b <= 255.
Proof.
  intros Ha. revert b.
  assert (H0 : Strcasecmp.is_byte 0) by (unfold Strcasecmp.is_byte; lia).
  assert (Hd : forall l, Forall Strcasecmp.is_byte l ->
                         Strcasecmp.is_byte
                           (Strcasecmp.tolower (Strcasecmp.deref l))).
  { intros l Hl. apply tolower_byte. destruct Hl; cbn; assumption. }
  induction Ha as [|x a Hx Ha IH]; intros b Hb.
  - cbn [Strcasecmp.compare_loop].
    pose proof (Hd [] (Forall_nil _)) as H1. pose proof (Hd b Hb) as H2.
    unfold Strcasecmp.is_byte in *. lia.
  - cbn [Strcasecmp.compare_loop].
    pose proof (Hd (x :: a) (Forall_cons _ Hx Ha)) as H1.
    pose proof (Hd b Hb) as H2.
    assert (Htl : Forall Strcasecmp.is_byte (tl b))
      by (destruct Hb; cbn; [constructor | assumption]).
    destruct (_ =? 0); [unfold Strcasecmp.is_byte in *; lia|].
    destruct (_ =? _); [apply IH; exact Htl|].
    unfold Strcasecmp.is_byte in *. lia.
Qed.

Lemma strcasecmp_range_witness :
  -255 <= Strcasecmp.compare_loop [255] [] <= 255 /\
  Strcasecmp.compare_loop [255] [] = 255.
Proof.
  split; [|reflexivity].
  apply (strcasecmp_range [255] []); repeat constructor;
    unfold Strcasecmp.is_byte; lia.
Defined.

(** X14: Changing the case of letters in either string does not change the
    result: only the lower-case form of each byte is looked at. *)
Theorem strcasecmp_ignores_case (a a' b b' : list Z) :
  Forall2 (fun c c' => Strcasecmp.tolower c = Strcasecmp.tolower c') a a' ->
  Forall2 (fun c c' => Strcasecmp.tolower c = Strcasecmp.tolower c') b b' ->
  Strcasecmp.compare_loop a' b' = Strcasecmp.compare_loop a b.
Proof.
  intros Ha. revert b b'.
  assert (Hd : forall l l',
    Forall2 (fun c c' => Strcasecmp.tolower c = Strcasecmp.tolower c') l l' ->
    Strcasecmp.tolower (Strcasecmp.deref l')
    = Strcasecmp.tolower (Strcasecmp.deref l)).
  { intros l l' H. destruct H; cbn; [reflexivity | congruence]. }
  induction Ha as [|x x' a a' Hx Ha IH]; intros b b' Hb.
  - cbn [Strcasecmp.compare_loop]. rewrite (Hd b b' Hb). reflexivity.
  - cbn [Strcasecmp.compare_loop].
    rewrite (Hd b b' Hb), (Hd (x :: a) (x' :: a') (Forall2_cons _ _ Hx Ha)).
    assert (Htl : Forall2 (fun c c' => Strcasecmp.tolower c
                                       = Strcasecmp.tolower c') (tl b) (tl b'))
      by (destruct Hb; cbn; [constructor | assumption]).
    rewrite (IH _ _ Htl). reflexivity.
Qed.

Lemma strcasecmp_ignores_case_witness :
  Strcasecmp.compare_loop [78; 65; 78] [105; 110; 102] =
  Strcasecmp.compare_loop [110; 97; 110] [73; 78; 70].
Proof.
  apply (strcasecmp_ignores_case [110; 97; 110] [78; 65; 78]
           [73; 78; 70] [105; 110; 102]);
    repeat constructor.
Defined.

(** ** mpfr.h: the custom interface and the sign *)

(** X20: What [mpfr_custom_init_set] stores, [mpfr_custom_get_kind] and the
    other accessors give back: the kind with its sign (NaN has none), the
    precision, the significand, and for a regular number the exponent,
    which must not be one of the reserved ones.  This holds for a kind
    argument that [-k], as the macro writes it, negates: a single operand
    always, a sum only when it is not negative. *)
Theorem custom_kind_round_trip (k : Header.macro_arg) (e p m : Z) :
  -3 <= Header.arg_value k <= 3 ->
  (Header.arg_value k < 0 ->
   Header.neg_arg_value k = - Header.arg_value k) ->
  (Z.abs (Header.arg_value k) = Header.MPFR_REGULAR_KIND ->
   __MPFR_EXP_INF < e) ->
  let x := Header.mpfr_custom_init_set k e p m in
  Header.mpfr_custom_get_kind x = Header.arg_value k /\
  MPFR_PREC x = p /\
  Header.mpfr_custom_get_mantissa x = m /\
  (Z.abs (Header.arg_value k) = Header.MPFR_REGULAR_KIND ->
   Header.mpfr_custom_get_exp x = e).
Proof.
  intros Hk Hneg He. cbv zeta.
  unfold Header.mpfr_custom_init_set.
  destruct (Z.leb_spec 0 (Header.arg_value k)) as [Hpos | Hlt];
    [|rewrite (Hneg Hlt)];
    set (v := Header.arg_value k) in *; clearbody v; clear Hneg;
    assert (Hc : v = -3 \/ v = -2 \/ v = -1 \/ v = 0 \/ v = 1 \/ v = 2 \/ v = 3)
      by lia;
    unfold Header.mpfr_custom_get_kind, Header.mpfr_custom_get_exp,
      Header.mpfr_custom_get_mantissa, MPFR_PREC, MPFR_SIGN;
    destruct Hc as [-> | [-> | [-> | [-> | [-> | [-> | ->]]]]]]; try lia;
    cbn [Z.leb Z.compare Z.opp Z.eqb Pos.eqb Header.MPFR_REGULAR_KIND
         Header.MPFR_NAN_KIND Header.MPFR_INF_KIND Header.MPFR_ZERO_KIND
         _mpfr_exp _mpfr_sign _mpfr_prec _mpfr_d];
    try (specialize (He eq_refl); apply Z.ltb_lt in He; rewrite He);
    repeat split; try reflexivity; intros H; discriminate H.
Qed.

Lemma custom_kind_round_trip_witness :
  Header.mpfr_custom_get_kind
    (Header.mpfr_custom_init_set (Header.Operand (-3)) 5 24 9437184) = -3 /\
  Header.mpfr_custom_get_kind
    (Header.mpfr_custom_init_set (Header.Minus (Header.Operand 4) 2) 0 24 0)
  = 2.
Proof.
  split.
  - apply (custom_kind_round_trip (Header.Operand (-3)) 5 24 9437184);
      [cbn; lia | reflexivity | intros _; reflexivity].
  - apply (custom_kind_round_trip (Header.Minus (Header.Operand 4) 2) 0 24 0);
      [cbn; lia | cbn; lia | intros H; discriminate H].
Defined.

(** With a negative kind written as a difference the macro does not store
    that kind: for the argument [1 - 4], [-k] is [-1 - 4], no kind at all,
    and what is stored is a negative zero instead of a negative regular
    number. *)
Example custom_kind_of_a_difference :
  let k := Header.Minus (Header.Operand 1) 4 in
  let x := Header.mpfr_custom_init_set k 5 24 9437184 in
  Header.arg_value k = - Header.MPFR_REGULAR_KIND /\
  Header.neg_arg_value k = -5 /\
  MPFR_IS_ZERO x = true /\
  Header.mpfr_custom_get_kind x = - Header.MPFR_ZERO_KIND.
Proof. cbv zeta. repeat split; vm_compute; reflexivity. Qed.

(** X19: [mpfr_sgn] is the sign of the value: 0 for a zero and for NaN, the
    erange flag being raised for NaN and only then; -1 or 1 for an infinity
    or a regular number. *)
Theorem mpfr_sgn_of_value (x : mpfr_t) (fl : Z) :
  MPFR_IS_NAN x = true \/
  ((MPFR_IS_INF x = true \/ MPFR_IS_ZERO x = true \/ regular x) /\
   (MPFR_SIGN x = 1 \/ MPFR_SIGN x = -1)) ->
  Header.mpfr_sgn x fl =
  match mpfr_value x with
  | VNaN => (0, Z.lor fl Header.MPFR_FLAGS_ERANGE)
  | VZero _ => (0, fl)
  | VInf neg | VFin neg _ _ => (if neg then -1 else 1, fl)
  end.
Proof.
  intros [Hn | [[Hi | [Hz | Hr]] Hs]].
  - unfold Header.mpfr_sgn, mpfr_value. unfold MPFR_IS_NAN in Hn. rewrite Hn.
    exp_cases. apply Z.eqb_eq in Hn. rewrite Hn. reflexivity.
  - destruct (inf_is_singular x Hi) as (_ & Hn & Hz).
    unfold Header.mpfr_sgn, mpfr_value, MPFR_IS_NEG.
    unfold MPFR_IS_NAN, MPFR_IS_INF, MPFR_IS_ZERO in *. rewrite Hn, Hi.
    assert (_mpfr_exp x = __MPFR_EXP_INF) as -> by (apply Z.eqb_eq; exact Hi).
    rewrite Z.ltb_irrefl. unfold MPFR_SIGN in *.
    destruct Hs as [-> | ->]; reflexivity.
  - destruct (zero_is_singular x Hz) as (_ & Hn & Hi).
    unfold Header.mpfr_sgn, mpfr_value.
    unfold MPFR_IS_NAN, MPFR_IS_INF, MPFR_IS_ZERO in *. rewrite Hn, Hi, Hz.
    assert (_mpfr_exp x = __MPFR_EXP_ZERO) as -> by (apply Z.eqb_eq; exact Hz).
    reflexivity.
  - destruct (regular_not_singular x Hr) as (Hsg & Hn & Hi & Hz).
    destruct (regular_bits x Hr) as [_ Hd].
    unfold Header.mpfr_sgn, mpfr_value, MPFR_IS_NEG. rewrite Hn, Hi, Hz.
    unfold MPFR_IS_SINGULAR in Hsg. apply Z.leb_gt in Hsg.
    destruct (Z.ltb_spec (_mpfr_exp x) __MPFR_EXP_INF); [lia|].
    destruct (_mpfr_d x) as [|q|q]; try lia. cbn [fin_value].
    unfold MPFR_SIGN in *. destruct Hs as [-> | ->]; reflexivity.
Qed.

Lemma mpfr_sgn_of_value_witness :
  Header.mpfr_sgn (Numbers.nan 53) 0 = (0, 16) /\
  Header.mpfr_sgn (Numbers.of_Z 53 (-5)) 0 = (-1, 0).
Proof.
  split.
  - apply (mpfr_sgn_of_value (Numbers.nan 53) 0). left. reflexivity.
  - apply (mpfr_sgn_of_value (Numbers.of_Z 53 (-5)) 0). right.
    split; [right; right; solve_regular | right; reflexivity].
Defined.

(** ** copysign.c *)

Lemma value_with_sign_fin (neg neg' : bool) (d e : Z) :
  value_with_sign neg (fin_value neg' d e) = fin_value neg d e.
Proof. destruct d; reflexivity. Qed.

(** X18: When no rounding occurs ([x] is an infinity, a zero, or a regular
    number no more precise than the destination), [mpfr_copysign] is the
    copysign of IEEE 754: the magnitude of [x] with the sign of [y], the
    value returned and the flags telling that nothing was rounded. *)
Theorem copysign_exact
  (flags : Z) (z x y : mpfr_t) (rnd_mode : mpfr_rnd_t) :
  MPFR_IS_INF x = true \/ MPFR_IS_ZERO x = true \/
  (regular x /\ _mpfr_prec x <= _mpfr_prec z) ->
  let '(i, z', fl) := mpfr_copysign flags z x y rnd_mode in
  i = 0 /\ fl = flags /\
  MPFR_SIGN z' = MPFR_SIGN y /\ MPFR_PREC z' = MPFR_PREC z /\
  mpfr_value z' = value_with_sign (MPFR_IS_NEG y) (mpfr_value x).
Proof.
  unfold mpfr_copysign. intros [Hi | [Hz | [Hr Hp]]].
  - destruct (inf_is_singular x Hi) as (_ & Hn & Hz).
    unfold mpfr_set4. rewrite Hn, Hi. repeat split.
    unfold mpfr_value. unfold MPFR_IS_NAN, MPFR_IS_INF in *. rewrite Hn, Hi.
    reflexivity.
  - destruct (zero_is_singular x Hz) as (_ & Hn & Hi).
    unfold mpfr_set4. rewrite Hn, Hi, Hz. repeat split.
    unfold mpfr_value. unfold MPFR_IS_NAN, MPFR_IS_INF, MPFR_IS_ZERO in *.
    rewrite Hn, Hi, Hz. reflexivity.
  - rewrite mpfr_set4_exact by assumption. repeat split.
    destruct (regular_not_singular x Hr) as (Hs & Hn & Hi & Hz).
    destruct (regular_bits x Hr) as [_ Hd].
    unfold MPFR_IS_SINGULAR in Hs. apply Z.leb_gt in Hs.
    rewrite mpfr_value_regular_exp by exact Hs.
    unfold mpfr_value at 1. rewrite Hn, Hi, Hz.
    rewrite value_with_sign_fin.
    replace (_mpfr_exp x - _mpfr_prec z)
      with (_mpfr_exp x - _mpfr_prec x - (_mpfr_prec z - _mpfr_prec x)) by lia.
    unfold MPFR_IS_NEG, MPFR_SIGN. apply fin_value_shiftl; lia.
Qed.

Lemma copysign_exact_witness :
  let '(i, z', fl) :=
    mpfr_copysign 0 (Numbers.nan 24) (Numbers.of_Z 3 5) (Numbers.zero 2 (-1))
      MPFR_RNDU in
  i = 0 /\ mpfr_value z' = VFin true 5 0.
Proof.
  pose proof (copysign_exact 0 (Numbers.nan 24) (Numbers.of_Z 3 5)
                (Numbers.zero 2 (-1)) MPFR_RNDU) as H.
  destruct (mpfr_copysign 0 (Numbers.nan 24) (Numbers.of_Z 3 5)
              (Numbers.zero 2 (-1)) MPFR_RNDU) as [[i z'] fl].
  destruct H as (Hi & _ & _ & _ & Hv).
  - right. right. split; [solve_regular | cbn; lia].
  - split; [exact Hi | exact Hv].
Defined.

(** ** set_q.c *)

Section SetQFacts.

Variable div : mpfr_t -> mpfr_t -> mpfr_t -> mpfr_rnd_t -> M (Z * mpfr_t).

(** A temporary holds its integer exactly: nothing is rounded, nothing is
    flagged. *)
Lemma set_q_operand_exact (z fl : Z) :
  z <> 0 ->
  exists n,
    SetQ.set_q_operand z fl = ((0, n), fl) /\
    mpfr_value n = fin_value (z <? 0) (Z.abs z) 0 /\
    MPFR_PREC n = Z.log2 (Z.abs z) + 1.
Proof.
  intros Hz. unfold SetQ.set_q_operand, SetQ.mpz_sizeinbase_2.
  rewrite mpfr_set_z_exact by (cbn [_mpfr_prec mpfr_init2]; lia).
  eexists. split; [reflexivity|]. split; [|reflexivity].
  cbn [_mpfr_prec mpfr_init2].
  assert (0 <= Z.log2 (Z.abs z)) by apply Z.log2_nonneg.
  rewrite mpfr_value_regular_exp
    by (unfold __MPFR_EXP_INF, LONG_MIN, LONG_BIT;
        change (2 ^ (64 - 1)) with 9223372036854775808; lia).
  rewrite Z.sub_diag, Z.shiftl_0_r.
  f_equal. destruct z; reflexivity || contradiction.
Qed.

End SetQFacts.

(** X17: A zero numerator gives a zero and the value 0 without any division,
    the sign and the precision of the destination staying as they were.
    With a nonzero numerator, the numerator and the denominator are first
    held exactly, each at a precision of as many bits as it has (one bit
    for 1 and -1), and the result is what the division of the one by the
    other into the destination gives: its destination, and its ternary
    value passed through [MPFR_RET]. *)
Theorem set_q_divides_exact_operands
  (div : mpfr_t -> mpfr_t -> mpfr_t -> mpfr_rnd_t -> M (Z * mpfr_t))
  (f : mpfr_t) (num den : Z) (rnd : mpfr_rnd_t) (fl : Z) :
  (num = 0 ->
   exists f',
     SetQ.mpfr_set_q div f num den rnd fl = ((0, f'), fl) /\
     mpfr_value f' = VZero (MPFR_IS_NEG f) /\
     MPFR_PREC f' = MPFR_PREC f)
  /\
  (num <> 0 -> den <> 0 ->
   exists n d,
     mpfr_value n = fin_value (num <? 0) (Z.abs num) 0 /\
     mpfr_value d = fin_value (den <? 0) (Z.abs den) 0 /\
     MPFR_PREC n = Z.log2 (Z.abs num) + 1 /\
     MPFR_PREC d = Z.log2 (Z.abs den) + 1 /\
     SetQ.mpfr_set_q div f num den rnd fl =
     let '((inexact, f'), fl1) := div f n d rnd fl in
     let '(i, fl2) := MPFR_RET fl1 inexact in
     ((i, f'), fl2)).
Proof.
  split.
  - intros ->. eexists. split; [reflexivity|]. split; reflexivity.
  - intros Hn Hd.
    destruct (set_q_operand_exact num fl Hn) as (n & En & Vn & Pn).
    destruct (set_q_operand_exact den fl Hd) as (d & Ed & Vd & Pd).
    exists n, d. split; [exact Vn|]. split; [exact Vd|].
    split; [exact Pn|]. split; [exact Pd|].
    unfold SetQ.mpfr_set_q, SetQ.MPFR_CLEAR_FLAGS, bind.
    destruct (Z.eqb_spec num 0); [contradiction|].
    rewrite En, Ed.
    destruct (div f n d rnd fl) as [[inexact f'] fl1].
    destruct (MPFR_RET fl1 inexact) as [i fl2]. reflexivity.
Qed.

Lemma set_q_divides_exact_operands_witness :
  exists n d,
    mpfr_value n = VFin true 3 0 /\ mpfr_value d = VFin false 1 3 /\
    SetQ.mpfr_set_q (fun a b c r => ret (0, a)) (Numbers.nan 53) (-3) 8
      MPFR_RNDN 0 = ((0, Numbers.nan 53), 0).
Proof.
  destruct (proj2 (set_q_divides_exact_operands (fun a b c r => ret (0, a))
                     (Numbers.nan 53) (-3) 8 MPFR_RNDN 0))
    as (n & d & Vn & Vd & _ & _ & E); [lia | lia |].
  exists n, d. split; [exact Vn|]. split; [exact Vd | exact E].
Defined.

(** ** rem1.c: symmetries of the engine *)

Lemma wrap_long_opp (z : Z) : wrap_long (- wrap_long z) = wrap_long (- z).
Proof.
  unfold wrap_long.
  set (h := 2 ^ (LONG_BIT - 1)). set (m := 2 ^ LONG_BIT).
  assert (Hm : 0 < m) by (subst m; apply Z.pow_pos_nonneg; unfold LONG_BIT; lia).
  f_equal.
  pose proof (Z.div_mod (z + h) m ltac:(lia)) as E.
  replace (- ((z + h) mod m - h) + h)
    with (- z + h + ((z + h) / m) * m) by lia.
  apply Z_mod_plus_full.
Qed.

Lemma change_sign_involutive (x : mpfr_t) :
  MPFR_CHANGE_SIGN (MPFR_CHANGE_SIGN x) = x.
Proof.
  destruct x as [p s e d]. unfold MPFR_CHANGE_SIGN, set_sign.
  cbn [_mpfr_prec _mpfr_sign _mpfr_exp _mpfr_d]. f_equal. lia.
Qed.

Section Rem1Symmetry.
Import Rem1.

Variables (flags : Z) (rem : mpfr_t) (quo : option Z) (rnd_q rnd : mpfr_rnd_t).
Variables (x y : mpfr_t).
Hypothesis Hx : regular x.
Hypothesis Hy : regular y.

Lemma reduce_abs_l (mx ex my ey : Z) :
  rem1_reduce quo rnd_q (- mx) ex my ey = rem1_reduce quo rnd_q mx ex my ey.
Proof. unfold rem1_reduce, mpz_abs. rewrite Z.abs_opp. reflexivity. Qed.

Lemma reduce_abs_r (mx ex my ey : Z) :
  rem1_reduce quo rnd_q mx ex (- my) ey = rem1_reduce quo rnd_q mx ex my ey.
Proof. unfold rem1_reduce, mpz_abs. rewrite Z.abs_opp. reflexivity. Qed.

(** X2: The sign of [x] is set aside on entry and applied to what has been
    rounded (lines 93-96 and 205-210): on regular operands, changing the
    sign of [x] changes the sign of the remainder stored, of the value
    returned and of the quotient, and nothing else, in every rounding mode;
    changing the sign of [y] changes the sign of the quotient only. *)
Theorem rem1_operand_signs :
  mpfr_rem1 flags rem quo rnd_q (MPFR_CHANGE_SIGN x) y rnd =
    (let o := mpfr_rem1 flags rem quo rnd_q x y rnd in
     mk_outcome (- inex_of o) (MPFR_CHANGE_SIGN (rem_of o))
                (quo_opp (quo_of o)) (flags_of o))
  /\
  mpfr_rem1 flags rem quo rnd_q x (MPFR_CHANGE_SIGN y) rnd =
    (let o := mpfr_rem1 flags rem quo rnd_q x y rnd in
     mk_outcome (inex_of o) (rem_of o) (quo_opp (quo_of o)) (flags_of o)).
Proof.
  pose proof (regular_opp x Hx) as Hx'.
  pose proof (regular_opp y Hy) as Hy'.
  assert (Hsx : _mpfr_sign x = 1 \/ _mpfr_sign x = -1)
    by (destruct Hx as (_ & Hs & _); exact Hs).
  assert (Hsy : _mpfr_sign y = 1 \/ _mpfr_sign y = -1)
    by (destruct Hy as (_ & Hs & _); exact Hs).
  split.
  - rewrite (mpfr_rem1_regular flags rem rnd _ y Hx' Hy quo rnd_q).
    rewrite (mpfr_rem1_regular flags rem rnd x y Hx Hy quo rnd_q).
    unfold mpfr_get_z_exp, MPFR_CHANGE_SIGN, MPFR_SIGN, MPFR_GET_EXP,
      MPFR_PREC, set_sign.
    cbn [_mpfr_prec _mpfr_sign _mpfr_exp _mpfr_d].
    rewrite Z.mul_opp_l, reduce_abs_l.
    set (red := rem1_reduce _ _ _ _ _ _).
    destruct (if red_r red =? 0 then _ else _) as [[[inex rem'] quo'] fl].
    unfold mpfr_neg_inplace, MPFR_CHANGE_SIGN, set_sign.
    destruct Hsx as [-> | ->], Hsy as [-> | ->];
      cbn [Z.eqb Z.opp Z.ltb Z.compare Pos.eqb inex_of rem_of quo_of flags_of
           _mpfr_prec _mpfr_sign _mpfr_exp _mpfr_d];
      destruct rem' as [p s e d];
      cbn [_mpfr_prec _mpfr_sign _mpfr_exp _mpfr_d];
      rewrite ?Z.opp_involutive;
      (f_equal; destruct quo' as [q|]; cbn [quo_opp]; [|reflexivity]);
      rewrite wrap_long_opp; do 2 f_equal; lia.
  - rewrite (mpfr_rem1_regular flags rem rnd x _ Hx Hy' quo rnd_q).
    rewrite (mpfr_rem1_regular flags rem rnd x y Hx Hy quo rnd_q).
    unfold mpfr_get_z_exp, MPFR_CHANGE_SIGN, MPFR_SIGN, MPFR_GET_EXP,
      MPFR_PREC, set_sign.
    cbn [_mpfr_prec _mpfr_sign _mpfr_exp _mpfr_d].
    rewrite Z.mul_opp_l, reduce_abs_r.
    set (red := rem1_reduce _ _ _ _ _ _).
    destruct (if red_r red =? 0 then _ else _) as [[[inex rem'] quo'] fl].
    destruct Hsx as [-> | ->], Hsy as [-> | ->];
      cbn [Z.eqb Z.opp Z.ltb Z.compare Pos.eqb inex_of rem_of quo_of flags_of];
      (f_equal; destruct quo' as [q|]; cbn [quo_opp]; [|reflexivity]);
      rewrite wrap_long_opp; do 2 f_equal; lia.
Qed.

End Rem1Symmetry.

Lemma rem1_operand_signs_witness :
  let x := Numbers.of_Z 53 5 in
  let y := Numbers.of_Z 53 3 in
  regular x /\ regular y /\
  Rem1.quo_of (Rem1.mpfr_rem1 0 (Numbers.nan 53) (Some 0) GMP_RNDN
                 x (MPFR_CHANGE_SIGN y) MPFR_RNDN) =
  quo_opp (Rem1.quo_of (Rem1.mpfr_rem1 0 (Numbers.nan 53) (Some 0) GMP_RNDN
                          x y MPFR_RNDN)).
Proof.
  cbv zeta.
  assert (Hx : regular (Numbers.of_Z 53 5)) by solve_regular.
  assert (Hy : regular (Numbers.of_Z 53 3)) by solve_regular.
  split; [exact Hx|]. split; [exact Hy|].
  exact (f_equal Rem1.quo_of
           (proj2 (rem1_operand_signs 0 (Numbers.nan 53) (Some 0) GMP_RNDN
                     MPFR_RNDN _ _ Hx Hy))).
Defined.

Lemma rem1_nearest_correct_witness :
  let x := Numbers.of_Z 53 5 in
  let y := Numbers.of_Z 53 3 in
  regular x /\ regular y /\
  let '(r, e) := Rem1.rem1_exact (Some 0) GMP_RNDN x y in
  e <= _mpfr_exp x - _mpfr_prec x.
Proof.
  cbv zeta.
  assert (Hx : regular (Numbers.of_Z 53 5)) by solve_regular.
  assert (Hy : regular (Numbers.of_Z 53 3)) by solve_regular.
  split; [exact Hx|]. split; [exact Hy|].
  pose proof (rem1_nearest_correct 0 (Numbers.nan 53) MPFR_RNDN _ _ Hx Hy
                (Some 0)) as H.
  destruct (Rem1.rem1_exact (Some 0) GMP_RNDN (Numbers.of_Z 53 5)
              (Numbers.of_Z 53 3)) as [r e].
  exact (proj1 H).
Defined.

(** ** rem1.c: what is stored when nothing has to be rounded *)

Section Rem1Exact.
Import Rem1.

Variables (flags : Z) (rem : mpfr_t) (rnd : mpfr_rnd_t) (x y : mpfr_t).
Hypothesis Hx : regular x.
Hypothesis Hy : regular y.



End Rem1Exact.


(** ** The precision of the destination *)

Lemma mpfr_set4_prec (fl : Z) (a b : mpfr_t) (rnd : mpfr_rnd_t) (s : Z) :
  MPFR_PREC (snd (fst (mpfr_set4 fl a b rnd s))) = MPFR_PREC a.
Proof.
  unfold mpfr_set4.
  destruct (MPFR_IS_NAN b); [reflexivity|].
  destruct (MPFR_IS_INF b); [reflexivity|].
  destruct (MPFR_IS_ZERO b); [reflexivity|].
  destruct (mpfr_round_raw _ _ _ _) as [[d c] i].
  destruct (MPFR_RET fl i) as [i' fl']. reflexivity.
Qed.

Lemma mpfr_set_z_prec (fl : Z) (f : mpfr_t) (z : Z) (rnd : mpfr_rnd_t) :
  MPFR_PREC (snd (fst (mpfr_set_z fl f z rnd))) = MPFR_PREC f.
Proof.
  unfold mpfr_set_z. destruct (z =? 0); [reflexivity|].
  destruct (mpfr_round_raw _ _ _ _) as [[d c] i].
  destruct (MPFR_RET fl i) as [i' fl']. reflexivity.
Qed.

Lemma mpfr_set_ui_prec (fl : Z) (f : mpfr_t) (u : Z) (rnd : mpfr_rnd_t) :
  MPFR_PREC (snd (fst (mpfr_set_ui fl f u rnd))) = MPFR_PREC f.
Proof.
  unfold mpfr_set_ui. destruct (u =? 0); [reflexivity|].
  apply mpfr_set_z_prec.
Qed.

(** X5: Whatever the operands, the submode and the rounding mode, [mpfr_rem1]
    leaves the destination with the precision it had: a NaN, a copy of
    [x], a zero or a rounded remainder is always stored at the precision
    of [rem]. *)
Theorem rem1_keeps_precision
  (flags : Z) (rem : mpfr_t) (quo : option Z) (rnd_q rnd : mpfr_rnd_t)
  (x y : mpfr_t) :
  MPFR_PREC (Rem1.rem_of (Rem1.mpfr_rem1 flags rem quo rnd_q x y rnd)) =
  MPFR_PREC rem.
Proof.
  unfold Rem1.mpfr_rem1.
  destruct (MPFR_IS_SINGULAR x || MPFR_IS_SINGULAR y).
  - destruct (MPFR_IS_NAN x || MPFR_IS_NAN y || MPFR_IS_INF x || MPFR_IS_ZERO y);
      [reflexivity|].
    pose proof (mpfr_set4_prec flags rem x rnd (MPFR_SIGN x)) as H.
    unfold mpfr_set.
    destruct (mpfr_set4 flags rem x rnd (MPFR_SIGN x)) as [[i rem'] fl].
    exact H.
  - destruct (mpfr_get_z_exp x) as [mx ex].
    destruct (mpfr_get_z_exp y) as [my ey].
    cbv zeta.
    set (red := Rem1.rem1_reduce quo rnd_q mx ex my ey).
    assert (H : forall o,
      o = (if Rem1.red_r red =? 0
           then let '(i, rem0) := mpfr_set_ui_0 rem in
                (i, rem0, Rem1.red_quo red, flags)
           else let '(r, quo1) := Rem1.rem1_nearest rnd_q red in
                let '(i, rem1, fl) := mpfr_set_z flags rem r rnd in
                (i, set_exp rem1
                      (MPFR_EXP rem1 + (if Rem1.red_ey red <? ex
                                        then Rem1.red_ey red else ex)),
                 quo1, fl)) ->
      MPFR_PREC (snd (fst (fst o))) = MPFR_PREC rem).
    { intros o ->. destruct (Rem1.red_r red =? 0); [reflexivity|].
      destruct (Rem1.rem1_nearest rnd_q red) as [r quo1].
      pose proof (mpfr_set_z_prec flags rem r rnd) as H.
      destruct (mpfr_set_z flags rem r rnd) as [[i rem1] fl]. exact H. }
    specialize (H _ eq_refl).
    destruct (if Rem1.red_r red =? 0 then _ else _) as [[[inex rem'] quo'] fl].
    cbn [fst snd] in H.
    destruct (MPFR_SIGN x <? 0); cbn [Rem1.rem_of]; exact H.
Qed.

(** X6: Whenever [mpfr_atanh] or [mpfr_gamma] returns, the destination has the
    precision it had on entry, whatever the primitives did to the working
    variables: every path ends in a store at the precision of the
    destination. *)
Theorem atanh_gamma_keep_precision
  (P : Primitives) (fuel : nat) (dest x : mpfr_t) (rnd : mpfr_rnd_t)
  (fl i : Z) (r : mpfr_t) :
  (fst (Atanh.mpfr_atanh P fuel dest x rnd fl) = Some (i, r) ->
   MPFR_PREC r = MPFR_PREC dest)
  /\
  (fst (Gamma.mpfr_gamma P fuel dest x rnd fl) = Some (i, r) ->
   MPFR_PREC r = MPFR_PREC dest).
Proof.
  split.
  - unfold Atanh.mpfr_atanh.
    assert (G : fst (Atanh.atanh_general P fuel dest x rnd fl) = Some (i, r) ->
                MPFR_PREC r = MPFR_PREC dest).
    { unfold Atanh.atanh_general, bind, ret.
      destruct (mpfr_abs_m _ x GMP_RNDN fl) as [x' fl0].
      destruct (Atanh.atanh_loop P fuel rnd (MPFR_PREC dest) x' _ fl0)
        as [[st|] fl1]; [|discriminate].
      unfold mpfr_set_m, mpfr_set.
      match goal with |- context [mpfr_set4 fl1 dest ?t rnd ?s] =>
        pose proof (mpfr_set4_prec fl1 dest t rnd s) as H;
        destruct (mpfr_set4 fl1 dest t rnd s) as [[j y'] fl2] end.
      cbn [fst snd] in *. intros E. inversion E. subst. exact H. }
    destruct (MPFR_IS_SINGULAR x); [|exact G].
    destruct (MPFR_IS_NAN x).
    { cbn. intros E. inversion E. reflexivity. }
    destruct (MPFR_IS_INF x).
    { cbn. intros E. inversion E. reflexivity. }
    destruct (MPFR_IS_ZERO x); [|exact G].
    cbn. intros E. inversion E. reflexivity.
  - destruct (MPFR_IS_NAN x) eqn:Hn.
    { rewrite gamma_nan by exact Hn. cbn. intros E. inversion E. reflexivity. }
    destruct (MPFR_IS_ZERO x) eqn:Hz.
    { rewrite gamma_zero by exact Hz. cbn. intros E. inversion E. reflexivity. }
    destruct (MPFR_IS_INF x) eqn:Hi.
    { rewrite gamma_inf by exact Hi. cbn. intros E. inversion E. reflexivity. }
    rewrite gamma_general by assumption.
    destruct (mpfr_cmp_ui_1 x =? 0).
    + pose proof (mpfr_set_ui_prec fl dest 1 rnd) as H.
      destruct (mpfr_set_ui fl dest 1 rnd) as [[j g] fl'].
      cbn [fst snd] in *. intros E. inversion E. subst. exact H.
    + destruct (Gamma.gamma_loop P fuel dest x rnd _ _ fl) as [[g|] fl'] eqn:EL;
        [|discriminate].
      cbn [fst]. intros E. inversion E. subst.
      apply (f_equal fst) in EL. cbn [fst] in EL.
      apply gamma_loop_result in EL. destruct EL as (G & fl1 & ->).
      apply mpfr_set4_prec.
Qed.

Lemma atanh_gamma_keep_precision_witness :
  match fst (Atanh.mpfr_atanh Demo.library 8 (Numbers.nan 24)
               (Numbers.of_Z_2exp 53 1 (-1)) MPFR_RNDN 0) with
  | Some (_, r) => MPFR_PREC r = 24
  | None => False
  end.
Proof.
  destruct (fst (Atanh.mpfr_atanh Demo.library 8 (Numbers.nan 24)
                   (Numbers.of_Z_2exp 53 1 (-1)) MPFR_RNDN 0))
    as [[i r]|] eqn:E.
  - exact (proj1 (atanh_gamma_keep_precision Demo.library 8 (Numbers.nan 24)
                    (Numbers.of_Z_2exp 53 1 (-1)) MPFR_RNDN 0 i r) E).
  - vm_compute in E. discriminate E.
Defined.

(** ** rem1.c: [mpfr_fmod] when the last bit of [x] is not above that of [y] *)

Section FmodAligned.
Import Rem1.

Variables (x y : mpfr_t).
Hypothesis Hx : regular x.
Hypothesis Hy : regular y.

(** X4: With [x = d_x * 2^ex] and [y = d_y * 2^ey] in magnitude and [k] the
    number of trailing zero bits of [d_y]: when [ex <= ey + k] the exact
    remainder of [mpfr_fmod] is that of the truncated division.  It is
    expressed at the scale [2^ex], it is [d_x - q * Y] for an integer
    [q >= 0], [Y] being [|y|] at that scale, and [0 <= r < Y]. *)
Theorem fmod_exact_when_aligned :
  let ex := _mpfr_exp x - _mpfr_prec x in
  let ey := _mpfr_exp y - _mpfr_prec y in
  ex <= ey + mpz_scan1_0 (_mpfr_d y) ->
  let '(r, e) := rem1_exact None GMP_RNDZ x y in
  e = ex /\
  exists q Y : Z,
    0 <= q /\
    Y * 2 ^ (ex - Z.min ex ey) = _mpfr_d y * 2 ^ (ey - Z.min ex ey) /\
    _mpfr_d x = q * Y + r /\
    0 <= r < Y.
Proof.
  cbv zeta. intros Hal.
  unfold rem1_exact.
  pose proof (regular_get_z y Hy) as Hmy.
  pose proof (regular_abs_get_z y Hy) as Habsy.
  pose proof (regular_abs_get_z x Hx) as Habsx.
  unfold mpfr_get_z_exp, MPFR_GET_EXP, MPFR_PREC in *.
  cbn [fst] in Hmy, Habsx, Habsy.
  set (mx := MPFR_SIGN x * _mpfr_d x) in *.
  set (my := MPFR_SIGN y * _mpfr_d y) in *.
  set (ex := _mpfr_exp x - _mpfr_prec x) in *.
  set (ey := _mpfr_exp y - _mpfr_prec y) in *.
  rewrite <- Habsy in Hal.
  destruct (scan1_split my Hmy) as (Hk & HYo & Hsplit).
  unfold rem1_reduce, rem1_nearest. cbn [rnd_eqb GMP_RNDN GMP_RNDZ].
  unfold mpz_abs in *.
  set (k := mpz_scan1_0 (Z.abs my)) in *.
  set (Yo := mpz_div_2exp (Z.abs my) k) in *.
  destruct (Z.leb_spec ex (ey + k)); [|lia].
  assert (Hp : 0 < 2 ^ (ey + k - ex)) by (apply Z.pow_pos_nonneg; lia).
  unfold mpz_tdiv_qr, mpz_mul_2exp. cbn [red_r red_my red_ey fst].
  set (Y := Yo * 2 ^ (ey + k - ex)).
  assert (HY : 0 < Y) by (subst Y; nia).
  assert (Hmx : 0 <= Z.abs mx) by lia.
  rewrite Z.rem_mod_nonneg by lia.
  pose proof (Z.mod_pos_bound (Z.abs mx) Y HY) as Hb.
  pose proof (Z.div_mod (Z.abs mx) Y ltac:(lia)) as Hdm.
  assert (Hr : (if Z.abs mx mod Y =? 0 then 0 else Z.abs mx mod Y)
               = Z.abs mx mod Y)
    by (destruct (Z.eqb_spec (Z.abs mx mod Y) 0); lia).
  rewrite Hr.
  split.
  - destruct (Z.ltb_spec (ey + k) ex); lia.
  - exists (Z.abs mx / Y), Y.
    split; [apply Z.div_pos; lia|].
    split.
    + rewrite <- Habsy, Hsplit. subst Y.
      rewrite <- !Z.mul_assoc, <- !Z.pow_add_r by lia.
      f_equal. f_equal. lia.
    + rewrite <- Habsx. split; [lia | exact Hb].
Qed.

End FmodAligned.

Lemma fmod_exact_when_aligned_witness :
  let x := Numbers.of_Z 53 5 in
  let y := Numbers.of_Z 53 3 in
  regular x /\ regular y /\
  snd (Rem1.rem1_exact None GMP_RNDZ x y) = _mpfr_exp x - _mpfr_prec x.
Proof.
  cbv zeta.
  assert (Hx : regular (Numbers.of_Z 53 5)) by solve_regular.
  assert (Hy : regular (Numbers.of_Z 53 3)) by solve_regular.
  split; [exact Hx|]. split; [exact Hy|].
  pose proof (fmod_exact_when_aligned _ _ Hx Hy) as H. cbv zeta in H.
  destruct (Rem1.rem1_exact None GMP_RNDZ (Numbers.of_Z 53 5)
              (Numbers.of_Z 53 3)) as [r e].
  apply H. vm_compute. discriminate.
Defined.

(** ** fits_s.h: does a number fit a signed integer type *)

Lemma pos_bits_size (p : positive) : Fits.pos_bits p = Z.pos (Pos.size p).
Proof.
  induction p as [p IH | p IH |]; cbn [Fits.pos_bits Pos.size];
    [rewrite IH | rewrite IH |]; lia.
Qed.

(** The loop counts the bits of [s]. *)
Lemma count_bits_log2 (s : Z) : 0 < s -> Fits.count_bits s = Z.log2 s + 1.
Proof.
  destruct s as [|p|p]; try lia. intros _.
  cbn [Fits.count_bits]. rewrite pos_bits_size.
  destruct p; cbn [Z.log2 Pos.size]; lia.
Qed.

Section FitsFacts.

(** The width of the type: at least two bits. *)
Variable w : Z.
Hypothesis Hw : 2 <= w.

Lemma pow_w_pos : 0 < 2 ^ (w - 1).
Proof. apply Z.pow_pos_nonneg; lia. Qed.

Lemma pow_w_ge_2 : 2 <= 2 ^ (w - 1).
Proof.
  replace (w - 1) with (1 + (w - 2)) by lia.
  rewrite Z.pow_add_r by lia.
  assert (0 < 2 ^ (w - 2)) by (apply Z.pow_pos_nonneg; lia).
  change (2 ^ 1) with 2. lia.
Qed.

Lemma pow_w_double : 2 ^ w = 2 * 2 ^ (w - 1).
Proof.
  replace w with (1 + (w - 1)) at 1 by lia.
  rewrite Z.pow_add_r by lia. reflexivity.
Qed.

Lemma prec_of_MAXIMUM : Fits.count_bits (Fits.MAXIMUM w) = w - 1.
Proof.
  pose proof pow_w_ge_2.
  unfold Fits.MAXIMUM. rewrite count_bits_log2 by lia.
  assert (Z.log2 (2 ^ (w - 1) - 1) = w - 2) as ->; [|lia].
  apply Z.log2_unique; [lia|].
  replace (Z.succ (w - 2)) with (w - 1) by lia.
  replace (w - 1) with (1 + (w - 2)) by lia.
  rewrite Z.pow_add_r by lia. change (2 ^ 1) with 2.
  assert (0 < 2 ^ (w - 2)) by (apply Z.pow_pos_nonneg; lia). lia.
Qed.

Lemma prec_of_MINIMUM :
  Fits.count_bits (Fits.SAFE_ABS (Fits.MINIMUM w)) = w.
Proof.
  pose proof pow_w_pos.
  unfold Fits.MINIMUM, Fits.SAFE_ABS.
  destruct (Z.leb_spec 0 (- 2 ^ (w - 1))); [lia|].
  rewrite Z.opp_involutive, count_bits_log2 by lia.
  rewrite Z.log2_pow2 by lia. lia.
Qed.

(** On a regular number the function is the three tests on the exponent
    and, in between, the rounding to the bits of the extremum. *)
Lemma fits_regular (f : mpfr_t) (rnd : mpfr_rnd_t) (fl : Z) :
  regular f ->
  Fits.mpfr_fits w f rnd fl =
  let e := _mpfr_exp f in
  let neg := _mpfr_sign f <? 0 in
  let prec := if neg then w else w - 1 in
  if e <? 1 then (1, fl)
  else if e <=? prec - 1 then (1, fl)
  else if prec + 1 <=? e then (0, fl)
  else
    let '(d, c, inex) := mpfr_round_raw prec rnd neg (_mpfr_d f) in
    let '(_, fl') := MPFR_RET fl inex in
    (if neg
     then (if 0 <=? (match - (d * 2 ^ c) ?= Fits.MINIMUM w with
                     | Lt => -1 | Eq => 0 | Gt => 1 end)
           then 1 else 0)
     else (if e + c =? e then 1 else 0), fl').
Proof.
  intros Hf.
  destruct (regular_not_singular f Hf) as (Hs & Hn & Hi & Hz).
  assert (Hsg : _mpfr_sign f = 1 \/ _mpfr_sign f = -1)
    by (destruct Hf as (_ & H & _); exact H).
  unfold Fits.mpfr_fits. rewrite Hs. cbv zeta.
  unfold MPFR_GET_EXP, MPFR_IS_NEG.
  destruct (_mpfr_exp f <? 1) eqn:E1; [reflexivity|].
  rewrite prec_of_MAXIMUM, prec_of_MINIMUM.
  set (neg := _mpfr_sign f <? 0).
  set (prec := if neg then w else w - 1).
  destruct (_mpfr_exp f <=? prec - 1) eqn:E2; [reflexivity|].
  destruct (prec + 1 <=? _mpfr_exp f) eqn:E3; [reflexivity|].
  apply Z.ltb_ge in E1. apply Z.leb_gt in E2, E3.
  assert (He : _mpfr_exp f = prec) by lia.
  unfold bind, ret, mpfr_set_m, mpfr_set, mpfr_set4, MPFR_IS_NAN, MPFR_IS_INF,
    MPFR_IS_ZERO, MPFR_SIGN.
  rewrite Hn, Hi, Hz. cbn [_mpfr_prec mpfr_init2]. fold neg.
  pose proof (mpfr_round_raw_carry prec rnd neg (_mpfr_d f)) as Hc.
  destruct (mpfr_round_raw prec rnd neg (_mpfr_d f)) as [[d c] inex].
  destruct (MPFR_RET fl inex) as [i fl'].
  f_equal. cbn [_mpfr_exp].
  destruct neg eqn:En; [|reflexivity].
  assert (Hprec : prec = w) by reflexivity.
  unfold Fits.mpfr_cmp_si, MPFR_IS_NAN, MPFR_IS_INF, MPFR_IS_ZERO,
    mpfr_nan_p, mpfr_inf_p, mpfr_zero_p, Fits.cmp_Z, mpfr_get_z_exp,
    MPFR_SIGN, MPFR_GET_EXP, MPFR_PREC.
  cbn [_mpfr_exp _mpfr_sign _mpfr_prec _mpfr_d].
  unfold __MPFR_EXP_NAN, __MPFR_EXP_INF, __MPFR_EXP_ZERO, LONG_MIN, LONG_BIT.
  change (2 ^ (64 - 1)) with 9223372036854775808.
  do 3 match goal with
       | |- context [?a =? ?b] => destruct (Z.eqb_spec a b); [lia|]
       end.
  destruct (Z.leb_spec 0 (_mpfr_exp f + c - prec)); [|lia].
  replace (_mpfr_exp f + c - prec) with c by lia.
  assert (Hneg : _mpfr_sign f = -1).
  { subst neg. apply Z.ltb_lt in En. lia. }
  rewrite Hneg.
  replace (-1 * d * 2 ^ c) with (- (d * 2 ^ c)) by lia.
  reflexivity.
Qed.

(** What the rounding primitive returns for a magnitude of [n] bits: the
    magnitude itself when it fits, else its [p] leading bits, plus one or
    not; the carry is set exactly when that sum is [2^p]. *)
Lemma round_raw_shape (p n m : Z) (rnd : mpfr_rnd_t) (neg : bool) :
  1 <= p -> 2 ^ (n - 1) <= m < 2 ^ n -> 1 <= n ->
  let '(d, c, _) := mpfr_round_raw p rnd neg m in
  (n <= p /\ c = 0 /\ d = m * 2 ^ (p - n)) \/
  (p < n /\
   exists u, (u = 0 \/ u = 1) /\
             (u = 1 -> m mod 2 ^ (n - p) <> 0) /\
             ((c = 0 /\ d = m / 2 ^ (n - p) + u /\ d < 2 ^ p) \/
              (c = 1 /\ d = 2 ^ (p - 1) /\ m / 2 ^ (n - p) + u = 2 ^ p))).
Proof.
  intros Hp Hm Hn.
  assert (Hpos : 0 < 2 ^ (n - 1)) by (apply Z.pow_pos_nonneg; lia).
  assert (Hlog : Z.log2 m + 1 = n).
  { assert (Z.log2 m = n - 1) as ->; [|lia].
    apply Z.log2_unique; [lia|].
    replace (Z.succ (n - 1)) with n by lia. lia. }
  unfold mpfr_round_raw. rewrite Hlog.
  destruct (Z.leb_spec n p) as [Hle | Hgt]; cbv beta iota zeta.
  - left. split; [exact Hle|]. split; [reflexivity|].
    apply Z.shiftl_mul_pow2. lia.
  - set (sh := n - p).
    assert (Hsh : 0 < 2 ^ sh) by (apply Z.pow_pos_nonneg; lia).
    rewrite Z.shiftr_div_pow2 by lia.
    assert (Hhi : m / 2 ^ sh < 2 ^ p).
    { apply Z.div_lt_upper_bound; [lia|].
      rewrite <- Z.pow_add_r by lia.
      replace (sh + p) with n by lia. lia. }
    destruct (Z.eqb_spec (m mod 2 ^ sh) 0) as [E0 | N0].
    + right. split; [exact Hgt|]. exists 0. split; [left; reflexivity|]. split; [lia|].
      left. split; [reflexivity|]. split; lia.
    + destruct (round_up_p rnd neg _ _ _).
      * destruct (Z.eqb_spec (m / 2 ^ sh + 1) (2 ^ p)) as [E | N];
          (right; split; [exact Hgt|]); exists 1;
          (split; [right; reflexivity|]); (split; [intros _; exact N0|]).
        -- right. split; [reflexivity|]. split; [reflexivity | exact E].
        -- left. split; [reflexivity|]. split; [reflexivity | lia].
      * right. split; [exact Hgt|]. exists 0. split; [left; reflexivity|]. split; [lia|].
        left. split; [reflexivity|]. split; lia.
Qed.

End FitsFacts.

Section FitsRange.

Variable w : Z.
Hypothesis Hw : 2 <= w.
Variable f : mpfr_t.
Hypothesis Hf : regular f.

(** X8: A regular number between [MINIMUM] and [MAXIMUM] fits, in every
    rounding mode. *)
Theorem fits_when_in_range (rnd : mpfr_rnd_t) (fl : Z) :
  Fits.cmp_Z f (Fits.MINIMUM w) <> Lt ->
  Fits.cmp_Z f (Fits.MAXIMUM w) <> Gt ->
  fst (Fits.mpfr_fits w f rnd fl) = 1.
Proof.
  intros Hmin Hmax.
  rewrite (fits_regular w Hw f rnd fl Hf). cbv zeta.
  destruct Hf as (HP & Hs & He & Hd).
  unfold Fits.cmp_Z, mpfr_get_z_exp, MPFR_SIGN, MPFR_GET_EXP, MPFR_PREC,
    Fits.MINIMUM, Fits.MAXIMUM in *.
  set (P := _mpfr_prec f) in *. set (e := _mpfr_exp f) in *.
  set (d := _mpfr_d f) in *.
  pose proof (pow_w_pos w Hw) as HW.
  assert (HP1 : 0 < 2 ^ (P - 1)) by (apply Z.pow_pos_nonneg; lia).
  destruct (Z.ltb_spec e 1); [reflexivity|].
  destruct Hs as [Es | Es]; rewrite Es in *.
  - (* f > 0: the extremum is MAXIMUM, of w - 1 bits *)
    change (1 <? 0) with false. cbv iota.
    destruct (Z.leb_spec e (w - 1 - 1)); [reflexivity|].
    destruct (Z.leb_spec (w - 1 + 1) e) as [Hbig | Hsmall].
    + exfalso. apply Hmax.
      assert (Q1 : 2 ^ (w - 1) <= 2 ^ (e - 1)) by (apply Z.pow_le_mono_r; lia).
      destruct (Z.leb_spec 0 (e - P)); apply Z.compare_gt_iff.
      * assert (Q2 : 2 ^ (e - 1) = 2 ^ (P - 1) * 2 ^ (e - P))
          by (rewrite <- Z.pow_add_r by lia; f_equal; lia).
        assert (0 < 2 ^ (e - P)) by (apply Z.pow_pos_nonneg; lia).
        nia.
      * assert (Q2 : 2 ^ (P - 1) = 2 ^ (e - 1) * 2 ^ (- (e - P)))
          by (rewrite <- Z.pow_add_r by lia; f_equal; lia).
        assert (0 < 2 ^ (- (e - P))) by (apply Z.pow_pos_nonneg; lia).
        nia.
    + assert (Ee : e = w - 1) by lia.
      pose proof (round_raw_shape (w - 1) P d rnd false ltac:(lia) Hd
                    ltac:(lia)) as Hsh.
      destruct (mpfr_round_raw (w - 1) rnd false d) as [[d' c] inex].
      destruct (MPFR_RET fl inex) as [i fl']. cbn [fst].
      assert (Hc : c = 0); [|rewrite Hc, Z.add_0_r, Z.eqb_refl; reflexivity].
      destruct Hsh as [(_ & Hc & _) | (Hgt & u & Hu & Hlo & Hcase)];
        [exact Hc|].
      destruct Hcase as [(Hc & _) | (_ & _ & Hsum)]; [exact Hc|].
      exfalso.
      destruct (Z.leb_spec 0 (e - P)); [lia|].
      apply Hmax. apply Z.compare_gt_iff.
      replace (- (e - P)) with (P - (w - 1)) by lia.
      set (sh := P - (w - 1)) in *.
      assert (Hsh : 0 < 2 ^ sh) by (apply Z.pow_pos_nonneg; lia).
      pose proof (Z.div_mod d (2 ^ sh) ltac:(lia)) as Hdm.
      pose proof (Z.mod_pos_bound d (2 ^ sh) Hsh) as Hmb.
      destruct Hu as [-> | ->]; [nia|].
      specialize (Hlo eq_refl). nia.
  - (* f < 0: the extremum is MINIMUM, of w bits *)
    change (-1 <? 0) with true. cbv iota.
    destruct (Z.leb_spec e (w - 1)); [reflexivity|].
    destruct (Z.leb_spec (w + 1) e) as [Hbig | Hsmall].
    + exfalso. apply Hmin.
      assert (Q1 : 2 ^ w <= 2 ^ (e - 1)) by (apply Z.pow_le_mono_r; lia).
      pose proof (pow_w_double w Hw) as Q0.
      destruct (Z.leb_spec 0 (e - P)); apply Z.compare_lt_iff.
      * assert (Q2 : 2 ^ (e - 1) = 2 ^ (P - 1) * 2 ^ (e - P))
          by (rewrite <- Z.pow_add_r by lia; f_equal; lia).
        assert (0 < 2 ^ (e - P)) by (apply Z.pow_pos_nonneg; lia).
        nia.
      * assert (Q2 : 2 ^ (P - 1) = 2 ^ (e - 1) * 2 ^ (- (e - P)))
          by (rewrite <- Z.pow_add_r by lia; f_equal; lia).
        assert (0 < 2 ^ (- (e - P))) by (apply Z.pow_pos_nonneg; lia).
        nia.
    + assert (Ee : e = w) by lia.
      pose proof (round_raw_shape w P d rnd true ltac:(lia) Hd ltac:(lia))
        as Hsh.
      destruct (mpfr_round_raw w rnd true d) as [[d' c] inex].
      destruct (MPFR_RET fl inex) as [i fl']. cbn [fst].
      assert (Hle : d' * 2 ^ c <= 2 ^ (w - 1)).
      { destruct Hsh as [(HPw & -> & ->) | (Hgt & u & Hu & Hlo & Hcase)].
        - rewrite Z.pow_0_r, Z.mul_1_r.
          destruct (Z.leb_spec 0 (e - P)); [|lia].
          apply Z.compare_ge_iff in Hmin.
          replace (e - P) with (w - P) in Hmin by lia. lia.
        - destruct (Z.leb_spec 0 (e - P)); [lia|].
          apply Z.compare_ge_iff in Hmin.
          replace (- (e - P)) with (P - w) in Hmin by lia.
          set (sh := P - w) in *.
          assert (Hsh : 0 < 2 ^ sh) by (apply Z.pow_pos_nonneg; lia).
          pose proof (Z.div_mod d (2 ^ sh) ltac:(lia)) as Hdm.
          pose proof (Z.mod_pos_bound d (2 ^ sh) Hsh) as Hmb.
          assert (Hsum : d' * 2 ^ c = d / 2 ^ sh + u).
          { destruct Hcase as [(-> & -> & _) | (-> & -> & Hsum)].
            - rewrite Z.pow_0_r. lia.
            - rewrite Hsum, (pow_w_double w Hw). change (2 ^ 1) with 2. lia. }
          rewrite Hsum.
          destruct Hu as [-> | ->]; [nia|].
          specialize (Hlo eq_refl). nia. }
      destruct (Z.compare_spec (- (d' * 2 ^ c)) (- 2 ^ (w - 1)));
        try reflexivity; lia.
Qed.

(** X9: A regular number that fits, in whatever rounding mode, lies strictly
    between [MINIMUM - 1] and [MAXIMUM + 1]. *)
Theorem fits_only_near_range (rnd : mpfr_rnd_t) (fl : Z) :
  fst (Fits.mpfr_fits w f rnd fl) = 1 ->
  Fits.cmp_Z f (Fits.MINIMUM w - 1) = Gt /\
  Fits.cmp_Z f (Fits.MAXIMUM w + 1) = Lt.
Proof.
  rewrite (fits_regular w Hw f rnd fl Hf). cbv zeta.
  destruct Hf as (HP & Hs & He & Hd).
  unfold Fits.cmp_Z, mpfr_get_z_exp, MPFR_SIGN, MPFR_GET_EXP, MPFR_PREC,
    Fits.MINIMUM, Fits.MAXIMUM in *.
  set (P := _mpfr_prec f) in *. set (e := _mpfr_exp f) in *.
  set (d := _mpfr_d f) in *.
  pose proof (pow_w_pos w Hw) as HW.
  assert (HP1 : 0 < 2 ^ (P - 1)) by (apply Z.pow_pos_nonneg; lia).
  (* below 2^E in magnitude when e <= E *)
  assert (Hbelow : forall E, 0 <= E -> e <= E ->
            (0 <= e - P -> d * 2 ^ (e - P) < 2 ^ E) /\
            (e - P < 0 -> d < 2 ^ E * 2 ^ (- (e - P)))).
  { intros E HE HeE. split; intros Hep.
    - assert (2 ^ P * 2 ^ (e - P) <= 2 ^ E).
      { rewrite <- Z.pow_add_r by lia. apply Z.pow_le_mono_r; lia. }
      assert (0 < 2 ^ (e - P)) by (apply Z.pow_pos_nonneg; lia). nia.
    - assert (2 ^ P <= 2 ^ E * 2 ^ (- (e - P))).
      { rewrite <- Z.pow_add_r by lia. apply Z.pow_le_mono_r; lia. }
      lia. }
  destruct Hs as [Es | Es]; rewrite Es in *.
  - change (1 <? 0) with false. cbv iota.
    intros Hres.
    assert (HeW : e <= w - 1).
    { destruct (Z.ltb_spec e 1); [lia|].
      destruct (Z.leb_spec e (w - 1 - 1)); [lia|].
      destruct (Z.leb_spec (w - 1 + 1) e); [cbn in Hres; lia | lia]. }
    destruct (Hbelow (w - 1) ltac:(lia) HeW) as [B1 B2].
    destruct (Z.leb_spec 0 (e - P)) as [Hep | Hep].
    + assert (0 < 2 ^ (e - P)) by (apply Z.pow_pos_nonneg; lia).
      specialize (B1 Hep).
      split; [apply Z.compare_gt_iff; nia | apply Z.compare_lt_iff; lia].
    + assert (0 < 2 ^ (- (e - P))) by (apply Z.pow_pos_nonneg; lia).
      specialize (B2 Hep).
      split; [apply Z.compare_gt_iff; nia | apply Z.compare_lt_iff; lia].
  - change (-1 <? 0) with true. cbv iota.
    intros Hres.
    assert (Hmax : forall a b, 0 < a -> 0 < b -> (-1 * a ?= b) = Lt)
      by (intros; apply Z.compare_lt_iff; lia).
    assert (Hcases : e <= w - 1 \/
                     (e = w /\
                      let '(d', c, _) := mpfr_round_raw w rnd true d in
                      d' * 2 ^ c <= 2 ^ (w - 1))).
    { destruct (Z.ltb_spec e 1); [lia|].
      destruct (Z.leb_spec e (w - 1)); [lia|].
      destruct (Z.leb_spec (w + 1) e); [cbn in Hres; lia|].
      right. split; [lia|].
      destruct (mpfr_round_raw w rnd true d) as [[d' c] inex].
      destruct (MPFR_RET fl inex) as [i fl']. cbn [fst] in Hres.
      destruct (Z.compare_spec (- (d' * 2 ^ c)) (- 2 ^ (w - 1)));
        cbn in Hres; lia. }
    destruct Hcases as [HeW | (Ee & Hround)].
    + destruct (Hbelow (w - 1) ltac:(lia) HeW) as [B1 B2].
      destruct (Z.leb_spec 0 (e - P)) as [Hep | Hep].
      * assert (0 < 2 ^ (e - P)) by (apply Z.pow_pos_nonneg; lia).
        specialize (B1 Hep).
        split; [apply Z.compare_gt_iff; nia | apply Z.compare_lt_iff; nia].
      * assert (0 < 2 ^ (- (e - P))) by (apply Z.pow_pos_nonneg; lia).
        specialize (B2 Hep).
        split; [apply Z.compare_gt_iff; nia | apply Z.compare_lt_iff; nia].
    + pose proof (round_raw_shape w P d rnd true ltac:(lia) Hd ltac:(lia))
        as Hsh.
      destruct (mpfr_round_raw w rnd true d) as [[d' c] inex].
      destruct Hsh as [(HPw & -> & ->) | (Hgt & u & Hu & Hlo & Hcase)].
      * rewrite Z.pow_0_r, Z.mul_1_r in Hround.
        destruct (Z.leb_spec 0 (e - P)); [|lia].
        replace (e - P) with (w - P) by lia.
        assert (0 < 2 ^ (w - P)) by (apply Z.pow_pos_nonneg; lia).
        split; [apply Z.compare_gt_iff; nia | apply Z.compare_lt_iff; nia].
      * destruct (Z.leb_spec 0 (e - P)); [lia|].
        replace (- (e - P)) with (P - w) by lia.
        set (sh := P - w) in *.
        assert (Hsh : 0 < 2 ^ sh) by (apply Z.pow_pos_nonneg; lia).
        pose proof (Z.div_mod d (2 ^ sh) ltac:(lia)) as Hdm.
        pose proof (Z.mod_pos_bound d (2 ^ sh) Hsh) as Hmb.
        assert (Hsum : d' * 2 ^ c = d / 2 ^ sh + u).
        { destruct Hcase as [(-> & -> & _) | (-> & -> & Hsum)].
          - rewrite Z.pow_0_r. lia.
          - rewrite Hsum, (pow_w_double w Hw). change (2 ^ 1) with 2. lia. }
        rewrite Hsum in Hround.
        split; [apply Z.compare_gt_iff; nia | apply Z.compare_lt_iff; nia].
Qed.

End FitsRange.

Lemma fits_when_in_range_witness :
  let f := Numbers.of_Z 53 127 in
  regular f /\ fst (Fits.mpfr_fits 8 f MPFR_RNDU 0) = 1.
Proof.
  cbv zeta.
  assert (Hf : regular (Numbers.of_Z 53 127)) by solve_regular.
  split; [exact Hf|].
  apply (fits_when_in_range 8 ltac:(lia) _ Hf MPFR_RNDU 0);
    vm_compute; discriminate.
Defined.

Lemma fits_only_near_range_witness :
  let f := Numbers.of_Z_2exp 53 (-257) (-1) in
  regular f /\ Fits.cmp_Z f (Fits.MINIMUM 8 - 1) = Gt.
Proof.
  cbv zeta.
  assert (Hf : regular (Numbers.of_Z_2exp 53 (-257) (-1))) by solve_regular.
  split; [exact Hf|].
  apply (fits_only_near_range 8 ltac:(lia) _ Hf MPFR_RNDZ 0).
  vm_compute. reflexivity.
Defined.

(** Between the extremum and the next integer the answer depends on the
    rounding mode: 127.5 fits an 8-bit type when rounded toward zero and
    not when rounded to nearest, and the test that rounds raises the
    inexact flag. *)
Example fits_depends_on_rounding :
  let f := Numbers.of_Z_2exp 53 255 (-1) in
  Fits.mpfr_fits 8 f MPFR_RNDZ 0 = (1, MPFR_FLAGS_INEXACT) /\
  Fits.mpfr_fits 8 f MPFR_RNDN 0 = (0, MPFR_FLAGS_INEXACT) /\
  Fits.mpfr_fits 8 (Numbers.of_Z_2exp 53 (-257) (-1)) MPFR_RNDD 0
    = (0, MPFR_FLAGS_INEXACT).
Proof. cbv zeta. repeat split; vm_compute; reflexivity. Qed.

Lemma nan_is_singular (x : mpfr_t) :
  MPFR_IS_NAN x = true ->
  MPFR_IS_SINGULAR x = true /\ MPFR_IS_ZERO x = false.
Proof.
  unfold MPFR_IS_SINGULAR, MPFR_IS_NAN, MPFR_IS_ZERO, mpfr_nan_p, mpfr_zero_p,
    __MPFR_EXP_INF, __MPFR_EXP_NAN, __MPFR_EXP_ZERO.
  intros H. apply Z.eqb_eq in H. rewrite H.
  split; [apply Z.leb_le | apply Z.eqb_neq]; lia.
Qed.

Lemma not_singular_cases (x : mpfr_t) :
  MPFR_IS_SINGULAR x = false ->
  MPFR_IS_NAN x = false /\ MPFR_IS_INF x = false /\ MPFR_IS_ZERO x = false.
Proof.
  unfold MPFR_IS_SINGULAR, MPFR_IS_NAN, MPFR_IS_INF, MPFR_IS_ZERO,
    mpfr_nan_p, mpfr_inf_p, mpfr_zero_p,
    __MPFR_EXP_INF, __MPFR_EXP_NAN, __MPFR_EXP_ZERO.
  intros H. apply Z.leb_gt in H.
  repeat split; apply Z.eqb_neq; lia.
Qed.

(** X10: A NaN and an infinity never fit and a zero always does, the flags
    being left alone; on any input the call changes no flag but,
    possibly, the inexact one, which its rounding step may raise. *)
Theorem fits_special_and_flags
  (w : Z) (f : mpfr_t) (rnd : mpfr_rnd_t) (fl : Z) :
  (MPFR_IS_NAN f = true \/ MPFR_IS_INF f = true ->
   Fits.mpfr_fits w f rnd fl = (0, fl)) /\
  (MPFR_IS_ZERO f = true -> Fits.mpfr_fits w f rnd fl = (1, fl)) /\
  (snd (Fits.mpfr_fits w f rnd fl) = fl \/
   snd (Fits.mpfr_fits w f rnd fl) = Z.lor fl MPFR_FLAGS_INEXACT).
Proof.
  split; [|split].
  - intros [H | H]; unfold Fits.mpfr_fits.
    + destruct (nan_is_singular f H) as (-> & ->). reflexivity.
    + destruct (inf_is_singular f H) as (-> & _ & ->). reflexivity.
  - intros H. unfold Fits.mpfr_fits.
    destruct (zero_is_singular f H) as (-> & _). rewrite H. reflexivity.
  - unfold Fits.mpfr_fits.
    destruct (MPFR_IS_SINGULAR f) eqn:Hs; [left; reflexivity|].
    destruct (not_singular_cases f Hs) as (Hn & Hi & Hz).
    cbv zeta.
    destruct (MPFR_GET_EXP f <? 1); [left; reflexivity|].
    destruct (MPFR_GET_EXP f <=? _); [left; reflexivity|].
    destruct (_ <=? MPFR_GET_EXP f); [left; reflexivity|].
    unfold bind, ret, mpfr_set_m, mpfr_set, mpfr_set4.
    rewrite Hn, Hi, Hz.
    destruct (mpfr_round_raw _ _ _ _) as [[d c] inex].
    unfold MPFR_RET. destruct (inex =? 0); cbn [snd]; auto.
Qed.

Lemma fits_special_and_flags_witness :
  Fits.mpfr_fits 16 (Numbers.nan 53) MPFR_RNDN 0 = (0, 0).
Proof.
  apply (proj1 (fits_special_and_flags 16 (Numbers.nan 53) MPFR_RNDN 0)).
  left. reflexivity.
Defined.

(** ** gamma.c: the precision of the next pass *)

Lemma wrap_int_small (z : Z) : - 2 ^ 31 <= z < 2 ^ 31 -> wrap_int z = z.
Proof.
  unfold wrap_int, INT_BIT.
  change (2 ^ (32 - 1)) with 2147483648. change (2 ^ 32) with 4294967296.
  change (2 ^ 31) with 2147483648.
  intros H. rewrite Z.mod_small; lia.
Qed.

(** X7: A pass of [mpfr_gamma] that is refused is followed by one at a strictly
    larger [realprec]: from 2 bits up to [2^30] the increment
    [ceil (log2 (realprec))] is between 1 and 30 and the sum does not leave
    [int]. *)
Theorem gamma_realprec_grows (realprec : Z) :
  2 <= realprec < 2 ^ 30 ->
  Gamma.next_realprec realprec = realprec + Z.log2_up realprec /\
  realprec < Gamma.next_realprec realprec <= realprec + 30.
Proof.
  intros [Hlo Hhi].
  assert (H1 : 0 < Z.log2_up realprec) by (apply Z.log2_up_pos; lia).
  assert (H2 : Z.log2_up realprec <= 30).
  { replace 30 with (Z.log2_up (2 ^ 30)) by (apply Z.log2_up_pow2; lia).
    apply Z.log2_up_le_mono. lia. }
  unfold Gamma.next_realprec, _mpfr_ceil_log2.
  change (2 ^ 30) with 1073741824 in Hhi.
  rewrite wrap_int_small by (change (2 ^ 31) with 2147483648; lia).
  split; [reflexivity | lia].
Qed.

Lemma gamma_realprec_grows_witness :
  63 < Gamma.next_realprec 63 <= 63 + 30.
Proof.
  apply (gamma_realprec_grows 63). change (2 ^ 30) with 1073741824. lia.
Defined.

(** ** mpfr.h: [mpfr_setsign] and [mpfr_signbit] *)

(** X21: After [mpfr_setsign (a, b, s, rnd)] with [b] not a NaN, [mpfr_signbit]
    of the result tells whether [s] was nonzero, whatever [b], its sign
    and the rounding; the precision of [a] is kept. *)
Theorem setsign_then_signbit
  (fl : Z) (a b : mpfr_t) (s : Z) (rnd : mpfr_rnd_t) :
  MPFR_IS_NAN b = false ->
  let '(_, a', _) := Header.mpfr_setsign fl a b s rnd in
  Header.mpfr_signbit a' = negb (s =? 0) /\ MPFR_PREC a' = MPFR_PREC a.
Proof.
  intros Hn. unfold Header.mpfr_setsign, Header.mpfr_signbit, mpfr_set4.
  rewrite Hn.
  destruct (MPFR_IS_INF b);
    [destruct (s =? 0); split; reflexivity|].
  destruct (MPFR_IS_ZERO b);
    [destruct (s =? 0); split; reflexivity|].
  destruct (mpfr_round_raw _ _ _ _) as [[d c] i].
  destruct (MPFR_RET fl i) as [i' fl'].
  destruct (s =? 0); split; reflexivity.
Qed.

Lemma setsign_then_signbit_witness :
  let '(_, a', _) :=
    Header.mpfr_setsign 0 (Numbers.nan 24) (Numbers.of_Z 53 5) 7 MPFR_RNDN in
  Header.mpfr_signbit a' = true.
Proof.
  pose proof (setsign_then_signbit 0 (Numbers.nan 24) (Numbers.of_Z 53 5) 7
                MPFR_RNDN eq_refl) as H.
  destruct (Header.mpfr_setsign 0 (Numbers.nan 24) (Numbers.of_Z 53 5) 7
              MPFR_RNDN) as [[i a'] fl'].
  exact (proj1 H).
Defined.
